(** * Shuttle-service vehicle simulator: shallow embedding and verification

    The development follows the JavaScript sources of the repository:

    - [utils/locationUtils] : the geodesy helpers ([toRad],
      [calculateDistance], [calculateBearing]);
    - the socket server     : [BUS_ROUTES], [generateVehicles] and the
      ping-pong [startVehicleSimulation] / [stopVehicleSimulation];
    - [services/vehicleService] : the client copy of the simulator, which
      builds a bidirectional route and repairs an out-of-range next index;
    - [services/mapService] : [generateVehicleRoute] with its direct-line
      fallback and its per-vehicle cache;
    - [utils/socketUtils]   : the loop-to-start simulator of the mock socket.

    JavaScript numbers are modelled as real numbers extended with [NaN]:
    rounding, infinities and signed zeros are abstracted away, while the
    absorbing behaviour of [NaN] and of [undefined] operands is kept. *)

From Stdlib Require Import Reals Lra Lia ZArith List String Bool.
From Stdlib Require Import DecimalString.
Import ListNotations.

Set Implicit Arguments.

(* ================================================================== *)
(** * JavaScript numbers *)
(* ================================================================== *)

Module JS.

Local Open Scope R_scope.

Inductive number : Type :=
| NaN : number
| Num : R -> number.

Definition lift1 (f : R -> R) (a : number) : number :=
  match a with
  | Num x => Num (f x)
  | NaN => NaN
  end.

Definition lift2 (f : R -> R -> R) (a b : number) : number :=
  match a, b with
  | Num x, Num y => Num (f x y)
  | _, _ => NaN
  end.

Definition add : number -> number -> number := lift2 Rplus.
Definition sub : number -> number -> number := lift2 Rminus.
Definition mul : number -> number -> number := lift2 Rmult.
(** Division.  A zero divisor, which JavaScript answers with an infinity
    or with [NaN], gives [NaN] here, infinities not being represented. *)
Definition div (a b : number) : number :=
  match a, b with
  | Num x, Num y => if Req_dec_T y 0 then NaN else Num (x / y)
  | _, _ => NaN
  end.

(** [ToNumber] on a property that may be absent: [undefined] becomes [NaN]. *)
Definition toNumber (v : option number) : number :=
  match v with
  | Some n => n
  | None => NaN
  end.

(** Relational operators: every comparison with [NaN] is [false]. *)
Definition geb (a b : number) : bool :=
  match a, b with
  | Num x, Num y => if Rle_dec y x then true else false
  | _, _ => false
  end.

(** Strict equality [===] on numbers: [NaN] equals nothing. *)
Definition eqb (a b : number) : bool :=
  match a, b with
  | Num x, Num y => if Req_dec_T x y then true else false
  | _, _ => false
  end.

(** Truthiness of a number: [0] and [NaN] are falsy. *)
Definition truthy (a : number) : bool :=
  match a with
  | Num x => if Req_dec_T x 0 then false else true
  | NaN => false
  end.

(** [a || b] on numbers. *)
Definition or_else (a b : number) : number :=
  if truthy a then a else b.

(** Truncation towards zero, as used by the remainder operator. *)
Definition Rtrunc (r : R) : Z :=
  if Rle_dec 0 r then Int_part r else (- Int_part (- r))%Z.

Definition Rrem (x m : R) : R := x - m * IZR (Rtrunc (x / m)).

(** The [%] operator: the result takes the sign of the dividend. *)
Definition rem (a b : number) : number :=
  match a, b with
  | Num x, Num m => if Req_dec_T m 0 then NaN else Num (Rrem x m)
  | _, _ => NaN
  end.

(** [Math.atan2] on real arguments, with the quadrant conventions of
    ECMAScript. *)
Definition Ratan2 (y x : R) : R :=
  if Rlt_dec 0 x then atan (y / x)
  else if Rlt_dec x 0 then
         (if Rle_dec 0 y then atan (y / x) + PI else atan (y / x) - PI)
  else if Rlt_dec 0 y then PI / 2
  else if Rlt_dec y 0 then - (PI / 2)
  else 0.

Definition Math_PI : number := Num PI.
Definition Math_sin : number -> number := lift1 sin.
Definition Math_cos : number -> number := lift1 cos.
Definition Math_atan2 : number -> number -> number := lift2 Ratan2.
(** [Math.sqrt] of a negative number is [NaN]. *)
Definition Math_sqrt (a : number) : number :=
  match a with
  | Num x => if Rlt_dec x 0 then NaN else Num (sqrt x)
  | NaN => NaN
  end.
Definition Math_floor : number -> number :=
  lift1 (fun x => IZR (Int_part x)).
(** [Math.round]: the nearest integer, ties towards +infinity. *)
Definition Math_round : number -> number :=
  lift1 (fun x => IZR (Int_part (x + 1 / 2))).
End JS.

Import JS.

Declare Scope js_scope.
Delimit Scope js_scope with js.
Bind Scope js_scope with number.
Infix "+" := JS.add : js_scope.
Infix "-" := JS.sub : js_scope.
Infix "*" := JS.mul : js_scope.
Infix "/" := JS.div : js_scope.
Notation "# x" := (Num x%R) (at level 9, x at level 9, format "# x") : js_scope.

(* ================================================================== *)
(** * Coordinates and the geodesy helpers ([utils/locationUtils]) *)
(* ================================================================== *)

Record coordinate : Type := mkCoord {
  latitude : number;
  longitude : number
}.

(** Two positions are the same when both components are [===]. *)
Definition same_position (a b : coordinate) : bool :=
  JS.eqb (latitude a) (latitude b) && JS.eqb (longitude a) (longitude b).

(** A coordinate with real (non-[NaN]) components. *)
Definition coord (lat lng : R) : coordinate :=
  {| latitude := Num lat; longitude := Num lng |}.

Module LocationUtils.

Local Open Scope js_scope.

Definition toRad (degrees : number) : number :=
  degrees * Math_PI / #180.

(** [calculateDistance]: the haversine formula; a missing argument
    ([null] / [undefined]) gives [0].  Over the reals [a] never exceeds 1
    for latitudes in [-90, 90]; in the code's arithmetic the rounding of
    [a] can exceed 1 for nearly antipodal points, and the square root of
    [1 - a] is then [NaN]: statements about the value of the distance
    keep away from such pairs. *)
Definition calculateDistance (coord1 coord2 : option coordinate) : number :=
  match coord1, coord2 with
  | Some coord1, Some coord2 =>
      let R := #6371 in
      let dLat := toRad (latitude coord2 - latitude coord1) in
      let dLon := toRad (longitude coord2 - longitude coord1) in
      let a :=
        Math_sin (dLat / #2) * Math_sin (dLat / #2) +
        Math_cos (toRad (latitude coord1)) * Math_cos (toRad (latitude coord2)) *
        Math_sin (dLon / #2) * Math_sin (dLon / #2) in
      let c := #2 * Math_atan2 (Math_sqrt a) (Math_sqrt (#1 - a)) in
      R * c
  | _, _ => #0
  end.

(** [calculateBearing]: forward azimuth, normalised with [(b + 360) % 360]. *)
Definition calculateBearing (start end_ : option coordinate) : number :=
  match start, end_ with
  | Some start, Some end_ =>
      let startLat := toRad (latitude start) in
      let startLng := toRad (longitude start) in
      let endLat := toRad (latitude end_) in
      let endLng := toRad (longitude end_) in
      let y := Math_sin (endLng - startLng) * Math_cos endLat in
      let x := Math_cos startLat * Math_sin endLat -
               Math_sin startLat * Math_cos endLat * Math_cos (endLng - startLng) in
      let bearing := Math_atan2 y x * #180 / Math_PI in
      JS.rem (bearing + #360) #360
  | _, _ => #0
  end.

(** [generateRandomCoordinate]: [u] and [v] are the two [Math.random()]
    draws, in the order the source makes them. *)
Definition generateRandomCoordinate
    (center : coordinate) (radiusKm : number) (u v : number) : coordinate :=
  let radiusEarth := #6371 in
  let radiusRadians := radiusKm / radiusEarth in
  let w := radiusRadians * Math_sqrt u in
  let t := #2 * Math_PI * v in
  let x := w * Math_cos t in
  let y := w * Math_sin t in
  let newLatitude := latitude center + (y * (#180 / Math_PI)) in
  let newLongitude :=
    longitude center +
    (x * (#180 / Math_PI) / Math_cos (latitude center * Math_PI / #180)) in
  {| latitude := newLatitude; longitude := newLongitude |}.

End LocationUtils.

(** ** Readings of the helpers on real coordinates *)

Section RealReadings.

Local Open Scope R_scope.

(** The bearing computed on real coordinates. *)
Definition bearingR (lat1 lng1 lat2 lng2 : R) : R :=
  let startLat := lat1 * PI / 180 in
  let startLng := lng1 * PI / 180 in
  let endLat := lat2 * PI / 180 in
  let endLng := lng2 * PI / 180 in
  let y := sin (endLng - startLng) * cos endLat in
  let x := cos startLat * sin endLat -
           sin startLat * cos endLat * cos (endLng - startLng) in
  Rrem (Ratan2 y x * 180 / PI + 360) 360.

(** The haversine term [a] computed on real coordinates. *)
Definition haversine_a (lat1 lng1 lat2 lng2 : R) : R :=
  let dLat := (lat2 - lat1) * PI / 180 in
  let dLon := (lng2 - lng1) * PI / 180 in
  sin (dLat / 2) * sin (dLat / 2) +
  cos (lat1 * PI / 180) * cos (lat2 * PI / 180) *
  sin (dLon / 2) * sin (dLon / 2).

(** Two bearings, in degrees, differ by 180 modulo 360. *)
Definition differ_by_180 (x y : number) : Prop :=
  match x, y with
  | Num x, Num y => exists k : Z, x - y = 180 + 360 * IZR k
  | _, _ => False
  end.

End RealReadings.

(* ================================================================== *)
(** * Shared data: timestamps, exceptions, routes and vehicles *)
(* ================================================================== *)

(** The result of [new Date().toISOString()]. *)
Definition timestamp : Type := string.

(** A computation that may raise an exception (a [TypeError] on reading a
    property of [undefined], or a rejected promise once awaited). *)
Inductive outcome (A : Type) : Type :=
| Ok : A -> outcome A
| Throw : outcome A.
Arguments Throw {A}.

Definition bind {A B : Type} (m : outcome A) (f : A -> outcome B) : outcome B :=
  match m with
  | Ok a => f a
  | Throw => Throw
  end.

(** [Array.prototype.map] with a callback that may throw: the first
    exception aborts the whole call. *)
Fixpoint mapM {A B : Type} (f : A -> outcome B) (l : list A) : outcome (list B) :=
  match l with
  | [] => Ok []
  | a :: l' => bind (f a) (fun b => bind (mapM f l') (fun bs => Ok (b :: bs)))
  end.

(** [route[i]] for an integer index: [undefined] outside the array. *)
Definition lookup {A : Type} (l : list A) (i : Z) : option A :=
  if (i <? 0)%Z then None else nth_error l (Z.to_nat i).

(** [{ ...c }] for a coordinate that may be [undefined]: spreading
    [undefined] gives an object without components, which read as [NaN]
    in arithmetic. *)
Definition spread (c : option coordinate) : coordinate :=
  match c with
  | Some c => c
  | None => {| latitude := NaN; longitude := NaN |}
  end.

(** [s || d] on strings: the empty string is falsy. *)
Definition str_or (s d : string) : string :=
  if String.eqb s "" then d else s.

(** A template literal's rendering of a non-negative integer. *)
Definition decimal (n : nat) : string :=
  NilZero.string_of_uint (Nat.to_uint n).

Module Route.
Record t : Type := mk {
  id : string;
  name : string;
  startPoint : string;
  endPoint : string;
  startCoordinates : option coordinate;
  endCoordinates : option coordinate;
  stops : Z;
  color : string
}.
End Route.

(** The predefined bus routes; the server and the client configuration hold
    the same table. *)
Definition BUS_ROUTES : list Route.t :=
  [ Route.mk "route-1" "Bus #1" "Al Urubah Station" "Olaya buildings"
      (Some (coord 24.715722 46.672611)) (Some (coord 24.711389 46.674444))
      8 "#2ecc71";
    Route.mk "route-2" "Bus #2" "Al Urubah Station" "Sulimaniyah buildings"
      (Some (coord 24.7175 46.6726)) (Some (coord 24.7244 46.6872))
      5 "#3498db";
    Route.mk "route-3" "Bus #3" "Sulimaniyah Station" "Sulimaniyah Buildings"
      (Some (coord 24.7244 46.6872)) (Some (coord 24.7165 46.6765))
      7 "#e74c3c";
    Route.mk "route-4" "Bus #4" "Kingdom Tower parking (Basement 2)"
      "Olaya buildings"
      (Some (coord 24.7165 46.6765)) (Some (coord 24.7155 46.6705))
      6 "#9b59b6";
    Route.mk "route-5" "Bus #5" "Olaya buildings" "Sulimaniyah Buildings"
      (Some (coord 24.7155 46.6705)) (Some (coord 24.7244 46.6872))
      9 "#f39c12" ].

(** Default map region (Mobily C11, Riyadh). *)
Definition DEFAULT_REGION : coordinate := coord 24.710616 46.6855285.

(** [BUS_ROUTES.find(r => r.id === routeId) || BUS_ROUTES[0]] *)
Definition findRoute (routeId : string) : option Route.t :=
  match find (fun r => String.eqb (Route.id r) routeId) BUS_ROUTES with
  | Some r => Some r
  | None => nth_error BUS_ROUTES 0
  end.

Module Vehicle.
(** A vehicle as [generateVehicles] builds it.  [location] is always
    present in this shape: a vehicle object without a [location], which
    the clients accept ([generateVehicleRoute] answers it like an unusable
    location), is not represented. *)
Record t : Type := mk {
  id : string;
  name : string;
  type : string;
  route : string;
  routeId : string;
  stops : Z;
  speed : number;
  heading : number;
  location : coordinate;
  lastUpdated : timestamp
}.

Definition with_speed (s : number) (v : t) : t :=
  mk (id v) (name v) (type v) (route v) (routeId v) (stops v)
     s (heading v) (location v) (lastUpdated v).

(** [{ ...v, location, heading, lastUpdated }] *)
Definition moved (loc : coordinate) (h : number) (now : timestamp) (v : t) : t :=
  mk (id v) (name v) (type v) (route v) (routeId v) (stops v)
     (speed v) h loc now.
End Vehicle.

(** Vehicles as the server generates them for the first two routes, used
    in the worked examples. *)
Definition bus1 : Vehicle.t :=
  Vehicle.mk "vehicle-0" "Bus 1" "bus" "Bus #1" "route-1" 8
    (Num 30) (Num 0) (coord 24.7157 46.6726) "2025-01-01T00:00:00.000Z"%string.

Definition bus2 : Vehicle.t :=
  Vehicle.mk "vehicle-1" "Bus 2" "bus" "Bus #2" "route-2" 5
    (Num 45) (Num 90) (coord 24.7176 46.6725) "2025-01-01T00:00:00.000Z"%string.

(* ================================================================== *)
(** * Route lookup ([services/mapService]) *)
(* ================================================================== *)

Module Directions.
(** What [fetchDirections] resolves to when the provider answers. *)
Record t : Type := mk {
  coordinates : list coordinate;
  distance : number;
  duration : number;
  startName : string;
  endName : string
}.
End Directions.

Module MapService.

Import LocationUtils.
Local Open Scope js_scope.

(** The [route] object of a lookup's answer.  [coordinates], [startName],
    [endName] and [color] are copied from the stored entry on the cached
    path, and are [undefined] ([None]) when that entry has no such
    properties. *)
Record routeT : Type := mkRoute {
  coordinates : option (list coordinate);
  distance : number;
  duration : number;
  routeName : string;
  routeId : string;
  stops : Z;
  startName : option string;
  endName : option string;
  color : option string
}.

Record routeInfo : Type := mkInfo {
  vehicleId : option string;
  route : option routeT;
  busStop : option coordinate
}.

(** An entry of the module-level table [vehicleFixedRoutes] (the
    [distance] and [duration] stored on the success path are never read
    back and are left out). *)
Record fixedEntry : Type := mkEntry {
  e_coordinates : list coordinate;
  e_busStop : coordinate;
  e_startName : string;
  e_endName : string;
  e_color : string
}.

(** The own properties of [vehicleFixedRoutes], keyed by vehicle id; the
    first binding of a key is the live one. *)
Definition table : Type := list (string * fixedEntry).

Definition table_get (t : table) (k : string) : option fixedEntry :=
  option_map snd (find (fun kv => String.eqb (fst kv) k) t).

Definition table_set (t : table) (k : string) (e : fixedEntry) : table :=
  (k, e) :: filter (fun kv => negb (String.eqb (fst kv) k)) t.

(** [vehicleFixedRoutes] is a plain object ([{}]): a key it does not hold
    itself is looked up on [Object.prototype], whose properties (those of
    ECMAScript, Annex B included) are functions or objects, all truthy and
    none with a [coordinates], [busStop], [startName], [endName] or
    [color] property. *)
Definition Object_prototype_keys : list string :=
  [ "constructor"; "hasOwnProperty"; "isPrototypeOf"; "propertyIsEnumerable";
    "toLocaleString"; "toString"; "valueOf"; "__proto__";
    "__defineGetter__"; "__defineSetter__";
    "__lookupGetter__"; "__lookupSetter__" ]%string.

Definition inherited (k : string) : bool :=
  existsb (String.eqb k) Object_prototype_keys.

(** What [vehicleFixedRoutes[k]] reads. *)
Inductive property : Type :=
| Own (e : fixedEntry)
| Inherited
| Undefined.

Definition table_read (t : table) (k : string) : property :=
  match table_get t k with
  | Some e => Own e
  | None => if inherited k then Inherited else Undefined
  end.

Fixpoint sumLegs (prev : coordinate) (rest : list coordinate) (acc : number)
  : number :=
  match rest with
  | [] => acc
  | c :: rest' =>
      sumLegs c rest' (acc + calculateDistance (Some prev) (Some c))
  end.

(** [calculateRouteDistance]: [0] for a missing list and for fewer than
    two points. *)
Definition calculateRouteDistance (coordinates : option (list coordinate))
  : number :=
  match coordinates with
  | None | Some [] | Some [_] => #0
  | Some (c0 :: rest) => sumLegs c0 rest #0
  end.

Definition calculateRouteDuration
    (coordinates : option (list coordinate)) (speed : number) : number :=
  let distance := calculateRouteDistance coordinates in
  if JS.eqb distance #0 || negb (JS.truthy speed)
  then #0
  else
    let speedInKmPerMin := speed / #60 in
    distance / speedInKmPerMin.

(** The provider gave no usable answer: [fetchDirections] threw, resolved
    to [null], or resolved to an empty coordinate list. *)
Definition provider_failed (fetch : outcome (option Directions.t)) : Prop :=
  match fetch with
  | Ok (Some d) => Directions.coordinates d = []
  | _ => True
  end.

Definition unknownRoute : routeInfo :=
  {| vehicleId := None;
     route := Some (mkRoute (Some []) #0 #0 "Unknown Route" "R0" 0
                            (Some "Unknown"%string) (Some "Unknown"%string)
                            (Some "#3498db"%string));
     busStop := None |}.

(** [generateVehicleRoute].  [fetch] is what the awaited [fetchDirections]
    produces, [u] and [v] are the random draws used when the route table
    has no endpoints; the updated [vehicleFixedRoutes] is returned with the
    result. *)
Definition generateVehicleRoute
    (fixedRoutes : table)
    (vehicle : option Vehicle.t) (userLocation : option coordinate)
    (fetch : outcome (option Directions.t)) (u v : number)
  : outcome (routeInfo * table) :=
  match vehicle, userLocation with
  | Some vehicle, Some userLocation =>
    if negb (JS.truthy (latitude (Vehicle.location vehicle))) ||
       negb (JS.truthy (longitude (Vehicle.location vehicle)))
    then Ok (unknownRoute, fixedRoutes)
    else
      match table_read fixedRoutes (Vehicle.id vehicle) with
      | Own fixedRoute =>
          let distance :=
            calculateRouteDistance (Some (e_coordinates fixedRoute)) in
          let duration :=
            calculateRouteDuration (Some (e_coordinates fixedRoute))
              (JS.or_else (Vehicle.speed vehicle) #30) in
          Ok ({| vehicleId := None;
                 route := Some (mkRoute (Some (e_coordinates fixedRoute))
                                  distance duration
                                  (str_or (Vehicle.route vehicle) "Unknown Route")
                                  (str_or (Vehicle.routeId vehicle) "R0")
                                  (Vehicle.stops vehicle)
                                  (Some (e_startName fixedRoute))
                                  (Some (e_endName fixedRoute))
                                  (Some (e_color fixedRoute)));
                 busStop := Some (e_busStop fixedRoute) |}, fixedRoutes)
      | Inherited =>
          (* the truthy value found on the prototype is taken for a stored
             route; every property read from it is [undefined] *)
          let distance := calculateRouteDistance None in
          let duration :=
            calculateRouteDuration None
              (JS.or_else (Vehicle.speed vehicle) #30) in
          Ok ({| vehicleId := None;
                 route := Some (mkRoute None distance duration
                                  (str_or (Vehicle.route vehicle) "Unknown Route")
                                  (str_or (Vehicle.routeId vehicle) "R0")
                                  (Vehicle.stops vehicle)
                                  None None None);
                 busStop := None |}, fixedRoutes)
      | Undefined =>
        match findRoute (Vehicle.routeId vehicle) with
        | None => Throw
        | Some routeData =>
          let '(startPoint, endPoint) :=
            match Route.startCoordinates routeData,
                  Route.endCoordinates routeData with
            | Some sc, Some ec => (sc, ec)
            | _, _ => (Vehicle.location vehicle,
                       generateRandomCoordinate userLocation #3 u v)
            end in
          let fetched :=
            match fetch with
            | Ok (Some d) =>
                if (0 <? List.length (Directions.coordinates d))%nat
                then Some d else None
            | _ => None
            end in
          match fetched with
          | Some directionsResult =>
              Ok ({| vehicleId := Some (Vehicle.id vehicle);
                     route := Some (mkRoute
                                (Some (Directions.coordinates directionsResult))
                                (Directions.distance directionsResult)
                                (Directions.duration directionsResult)
                                (str_or (Vehicle.route vehicle) "Unknown Route")
                                (str_or (Vehicle.routeId vehicle) "R0")
                                (Vehicle.stops vehicle)
                                (Some (Route.startPoint routeData))
                                (Some (Route.endPoint routeData))
                                (Some (Route.color routeData)));
                     busStop := Some endPoint |},
                  table_set fixedRoutes (Vehicle.id vehicle)
                    (mkEntry (Directions.coordinates directionsResult) endPoint
                       (Route.startPoint routeData) (Route.endPoint routeData)
                       (Route.color routeData)))
          | None =>
              let routeCoordinates := [startPoint; endPoint] in
              let distance := calculateRouteDistance (Some routeCoordinates) in
              let duration :=
                calculateRouteDuration (Some routeCoordinates)
                  (JS.or_else (Vehicle.speed vehicle) #30) in
              Ok ({| vehicleId := Some (Vehicle.id vehicle);
                     route := Some (mkRoute (Some routeCoordinates)
                                distance duration
                                (str_or (Vehicle.route vehicle) "Unknown Route")
                                (str_or (Vehicle.routeId vehicle) "R0")
                                (Vehicle.stops vehicle)
                                (Some (Route.startPoint routeData))
                                (Some (Route.endPoint routeData))
                                (Some (Route.color routeData)));
                     busStop := Some endPoint |},
                  table_set fixedRoutes (Vehicle.id vehicle)
                    (mkEntry routeCoordinates endPoint
                       (Route.startPoint routeData) (Route.endPoint routeData)
                       (Route.color routeData)))
          end
        end
      end
  | _, _ => Ok (unknownRoute, fixedRoutes)
  end.

End MapService.

(* ================================================================== *)
(** * Simulated vehicles of the ping-pong simulators *)
(* ================================================================== *)

Module Sim.

(** The [routeInfo] property: the server stores the route's end points,
    the client service stores the result of [generateVehicleRoute]. *)
Inductive info : Type :=
| Endpoints (startPoint endPoint color : string)
| Lookup (r : MapService.routeInfo).

(** [{ ...vehicle, currentRouteIndex, originalLocation, fixedRoute,
    direction, progress, routeInfo }]: the spread vehicle is kept in
    [base]; [simulationSpeed] exists in the client service only. *)
Record t : Type := mk {
  base : Vehicle.t;
  routeInfo : info;
  currentRouteIndex : Z;
  originalLocation : coordinate;
  simulationSpeed : option number;
  fixedRoute : option (list coordinate);
  direction : Z;
  progress : number
}.

(** The object returned by a tick that moved the vehicle: the fields
    mutated in place ([progress], [currentRouteIndex], [direction]) are
    copied by the spread, then [location], [heading] and [lastUpdated]
    are overwritten. *)
Definition moved (v : t) (idx dir : Z) (p : number)
    (loc : coordinate) (h : number) (now : timestamp) : t :=
  mk (Vehicle.moved loc h now (base v)) (routeInfo v) idx
     (originalLocation v) (simulationSpeed v) (fixedRoute v) dir p.

End Sim.

(** The index [i] is a position of a route of length [len]. *)
Definition in_route (len i : Z) : Prop := (0 <= i < len)%Z.

(** Invalid route data at tick time: no usable route (absent, or shorter
    than two points), or a next index outside the route. *)
Definition short_route (v : Sim.t) : Prop :=
  match Sim.fixedRoute v with
  | Some route => (List.length route < 2)%nat
  | None => True
  end.

Definition next_out_of_route (v : Sim.t) : Prop :=
  match Sim.fixedRoute v with
  | Some route =>
      (2 <= List.length route)%nat /\
      ~ in_route (Z.of_nat (List.length route))
                 (Sim.currentRouteIndex v + Sim.direction v)
  | None => False
  end.

Definition invalid_route (v : Sim.t) : Prop :=
  short_route v \/ next_out_of_route v.

(** What the client service makes of a vehicle whose next index is outside
    its route: the direction is reversed, the index is put on the end the
    old direction pointed to, and progress is reset. *)
Definition repaired (v : Sim.t) : Sim.t :=
  Sim.mk (Sim.base v) (Sim.routeInfo v)
    (if (Sim.direction v =? 1)%Z
     then (Z.of_nat (List.length (match Sim.fixedRoute v with
                                  | Some route => route
                                  | None => []
                                  end)) - 1)%Z
     else 0%Z)
    (Sim.originalLocation v) (Sim.simulationSpeed v) (Sim.fixedRoute v)
    (Sim.direction v * -1)%Z (Num 0).

(** The state invariants of a simulated vehicle bound to [route]. *)
Definition state_inv (route : list coordinate) (v : Sim.t) : Prop :=
  Sim.fixedRoute v = Some route /\
  in_route (Z.of_nat (List.length route)) (Sim.currentRouteIndex v) /\
  (exists p : R, Sim.progress v = Num p /\ (0 <= p < 1)%R) /\
  (Sim.direction v = 1 \/ Sim.direction v = -1)%Z.

(* ================================================================== *)
(** * The socket server *)
(* ================================================================== *)

Module Server.

Import LocationUtils.
Local Open Scope js_scope.

(** [generateVehicles(centerLocation, count)].  [random k] is the [k]-th
    [Math.random()] draw of the call and [clock i] the time stamp taken for
    vehicle [i]; each iteration draws four numbers (latitude offset,
    longitude offset, speed, heading). *)
Definition generateVehicle
    (centerLocation : coordinate) (random : nat -> number)
    (clock : nat -> timestamp) (i : nat) (routeData : Route.t) : Vehicle.t :=
  let location :=
    match Route.startCoordinates routeData with
    | Some sc =>
        {| latitude := latitude sc + (random (4 * i)%nat - #0.5) * #0.001;
           longitude := longitude sc + (random (4 * i + 1)%nat - #0.5) * #0.001 |}
    | None =>
        {| latitude :=
             latitude centerLocation + (random (4 * i)%nat - #0.5) * #0.03;
           longitude :=
             longitude centerLocation + (random (4 * i + 1)%nat - #0.5) * #0.03 |}
    end in
  Vehicle.mk
    ("vehicle-" ++ decimal i)
    ("Bus " ++ decimal (i + 1))
    "bus"
    (Route.name routeData)
    (Route.id routeData)
    (Route.stops routeData)
    (#20 + Math_floor (random (4 * i + 2)%nat * #40))
    (Math_floor (random (4 * i + 3)%nat * #360))
    location
    (clock i).

Definition generateVehicles
    (centerLocation : option coordinate) (count : Z)
    (random : nat -> number) (clock : nat -> timestamp)
  : outcome (list Vehicle.t) :=
  let centerLocation :=
    match centerLocation with
    | Some c => c
    | None => DEFAULT_REGION
    end in
  let actualCount := Z.min count (Z.of_nat (List.length BUS_ROUTES)) in
  mapM (fun i =>
          match nth_error BUS_ROUTES i with
          | Some routeData =>
              Ok (generateVehicle centerLocation random clock i routeData)
          | None => Throw
          end)
       (seq 0 (Z.to_nat actualCount)).

(** The vehicle built for index [i] from the route the table holds at
    [i] (an empty route record stands in beyond the table, where
    [generateVehicles] never looks). *)
Definition generated (centerLocation : coordinate) (random : nat -> number)
    (clock : nat -> timestamp) (i : nat) : Vehicle.t :=
  generateVehicle centerLocation random clock i
    (nth i BUS_ROUTES (Route.mk "" "" "" "" None None 0 "")).

(** One vehicle of [startVehicleSimulation]'s initialisation; [fetch] is
    what the awaited [fetchDirections] produces. *)
Definition initVehicle
    (userLocation : coordinate) (u v : number)
    (fetch : outcome (option Directions.t)) (vehicle : Vehicle.t)
  : outcome Sim.t :=
  match findRoute (Vehicle.routeId vehicle) with
  | None => Throw
  | Some routeData =>
    let '(startPoint, endPoint) :=
      match Route.startCoordinates routeData, Route.endCoordinates routeData with
      | Some sc, Some ec => (sc, ec)
      | _, _ => (Vehicle.location vehicle,
                 generateRandomCoordinate userLocation #3 u v)
      end in
    let routeCoordinates :=
      match fetch with
      | Ok (Some directionsResult) =>
          if (0 <? List.length (Directions.coordinates directionsResult))%nat
          then Directions.coordinates directionsResult
          else [startPoint; endPoint]
      | _ => [startPoint; endPoint]
      end in
    let originalLocation := Vehicle.location vehicle in
    Ok (Sim.mk
          (Vehicle.with_speed
             (JS.or_else (Vehicle.speed vehicle) #30 / #3600 * #0.0001 * #100)
             vehicle)
          (Sim.Endpoints (Route.startPoint routeData) (Route.endPoint routeData)
                         (Route.color routeData))
          0 originalLocation None (Some routeCoordinates) 1 #0)
  end.

(** The body of the interval callback for one vehicle.  [step] is the
    per-tick progress increment ([0.01] in the source). *)
Definition tickVehicleWith (step : number) (now : timestamp) (vehicle : Sim.t)
  : outcome Sim.t :=
  match Sim.fixedRoute vehicle with
  | Some route =>
    let len := Z.of_nat (List.length route) in
    if (1 <? len)%Z then
      let currentPoint := lookup route (Sim.currentRouteIndex vehicle) in
      let nextIndex := (Sim.currentRouteIndex vehicle + Sim.direction vehicle)%Z in
      if ((0 <=? nextIndex) && (nextIndex <? len))%Z then
        let nextPoint := lookup route nextIndex in
        let bearing := calculateBearing currentPoint nextPoint in
        let progress := Sim.progress vehicle + step in
        if JS.geb progress #1 then
          let index := nextIndex in
          let '(direction, index) :=
            if ((index >=? len - 1) || (index <=? 0))%Z then
              let direction := (Sim.direction vehicle * -1)%Z in
              (direction, if (direction =? -1)%Z then (len - 1)%Z else 0%Z)
            else (Sim.direction vehicle, index) in
          Ok (Sim.moved vehicle index direction #0
                (spread (lookup route index)) bearing now)
        else
          match currentPoint, nextPoint with
          | Some cur, Some next =>
              let newLocation :=
                {| latitude :=
                     latitude cur + (latitude next - latitude cur) * progress;
                   longitude :=
                     longitude cur + (longitude next - longitude cur) * progress |} in
              Ok (Sim.moved vehicle (Sim.currentRouteIndex vehicle)
                    (Sim.direction vehicle) progress newLocation bearing now)
          | _, _ => Throw
          end
      else Ok vehicle
    else Ok vehicle
  | None => Ok vehicle
  end.

Definition tickVehicle : timestamp -> Sim.t -> outcome Sim.t :=
  tickVehicleWith #0.01.

(** The writes a tick makes in place on the old object ([progress],
    [currentRouteIndex], [direction]) before it builds the new one; the old
    object keeps its [location], [heading] and [lastUpdated]. *)
Definition writtenWith (step : number) (vehicle : Sim.t) : Sim.t :=
  match Sim.fixedRoute vehicle with
  | Some route =>
    let len := Z.of_nat (List.length route) in
    let nextIndex := (Sim.currentRouteIndex vehicle + Sim.direction vehicle)%Z in
    if ((1 <? len) && (0 <=? nextIndex) && (nextIndex <? len))%Z then
      let progress := Sim.progress vehicle + step in
      if JS.geb progress #1 then
        let '(direction, index) :=
          if ((nextIndex >=? len - 1) || (nextIndex <=? 0))%Z then
            let direction := (Sim.direction vehicle * -1)%Z in
            (direction, if (direction =? -1)%Z then (len - 1)%Z else 0%Z)
          else (Sim.direction vehicle, nextIndex) in
        Sim.mk (Sim.base vehicle) (Sim.routeInfo vehicle) index
               (Sim.originalLocation vehicle) (Sim.simulationSpeed vehicle)
               (Sim.fixedRoute vehicle) direction #0
      else
        Sim.mk (Sim.base vehicle) (Sim.routeInfo vehicle)
               (Sim.currentRouteIndex vehicle)
               (Sim.originalLocation vehicle) (Sim.simulationSpeed vehicle)
               (Sim.fixedRoute vehicle) (Sim.direction vehicle) progress
    else vehicle
  | None => vehicle
  end.

Definition written : Sim.t -> Sim.t := writtenWith #0.01.

(** Successive ticks of one vehicle, one time stamp per tick. *)
Fixpoint ticks (step : number) (nows : list timestamp) (vehicle : Sim.t)
  : outcome Sim.t :=
  match nows with
  | [] => Ok vehicle
  | now :: nows' =>
      bind (tickVehicleWith step now vehicle) (ticks step nows')
  end.

(** A vehicle at the start of the route [(0,0), (0,1), (1,1)], heading
    forward, whatever its other properties. *)
Definition scenario (b : Vehicle.t) (i : Sim.info) (o : coordinate) : Sim.t :=
  Sim.mk b i 0 o None (Some [coord 0 0; coord 0 1; coord 1 1]) 1 #0.

End Server.

(* ================================================================== *)
(** * The client vehicle service ([services/vehicleService]) *)
(* ================================================================== *)

Module VehicleService.

Import LocationUtils.
Local Open Scope js_scope.

(** The bidirectional route: the forward coordinates followed by the
    reversed coordinates without their first element. *)
Definition bidirectional (coordinates : list coordinate) : list coordinate :=
  let forwardRoute := coordinates in
  let reverseRoute := tl (rev coordinates) in
  forwardRoute ++ reverseRoute.

(** One vehicle of [startVehicleSimulation]'s initialisation; [resolved] is
    what the awaited [generateVehicleRoute] produces, [Throw] standing for a
    rejected promise, which the [catch] clause handles. *)
Definition initVehicle
    (resolved : outcome MapService.routeInfo) (vehicle : Vehicle.t) : Sim.t :=
  match resolved with
  | Ok routeInfo =>
      let originalLocation := Vehicle.location vehicle in
      let bidirectionalRoute :=
        match MapService.route routeInfo with
        | Some r =>
            match MapService.coordinates r with
            | Some coordinates => Some (bidirectional coordinates)
            | None => None
            end
        | None => None
        end in
      Sim.mk
        (Vehicle.with_speed
           (Math_round (JS.or_else (Vehicle.speed vehicle) #30)) vehicle)
        (Sim.Lookup routeInfo)
        0 originalLocation (Some #0.0001) bidirectionalRoute 1 #0
  | Throw =>
      Sim.mk
        (Vehicle.with_speed
           (Math_round (JS.or_else (Vehicle.speed vehicle) #30)) vehicle)
        (Sim.Lookup (MapService.mkInfo None None None))
        0 (Vehicle.location vehicle) (Some #0.0001) None 1 #0
  end.

(** [vehicles.map(async vehicle => ...)] joined by [Promise.all]: the
    [i]-th result comes from the [i]-th vehicle and the [i]-th lookup. *)
Fixpoint initVehicles
    (resolved : list (outcome MapService.routeInfo)) (vehicles : list Vehicle.t)
  : list Sim.t :=
  match vehicles, resolved with
  | vehicle :: vehicles', r :: resolved' =>
      initVehicle r vehicle :: initVehicles resolved' vehicles'
  | _, _ => []
  end.

(** The body of the interval callback for one vehicle; it differs from the
    server's in the last branch, which repairs an out-of-range next index. *)
Definition tickVehicleWith (step : number) (now : timestamp) (vehicle : Sim.t)
  : outcome Sim.t :=
  match Sim.fixedRoute vehicle with
  | Some route =>
    let len := Z.of_nat (List.length route) in
    if (1 <? len)%Z then
      let currentPoint := lookup route (Sim.currentRouteIndex vehicle) in
      let nextIndex := (Sim.currentRouteIndex vehicle + Sim.direction vehicle)%Z in
      if ((0 <=? nextIndex) && (nextIndex <? len))%Z then
        let nextPoint := lookup route nextIndex in
        let bearing := calculateBearing currentPoint nextPoint in
        let progress := Sim.progress vehicle + step in
        if JS.geb progress #1 then
          let index := nextIndex in
          let '(direction, index) :=
            if ((index >=? len - 1) || (index <=? 0))%Z then
              let direction := (Sim.direction vehicle * -1)%Z in
              (direction, if (direction =? -1)%Z then (len - 1)%Z else 0%Z)
            else (Sim.direction vehicle, index) in
          Ok (Sim.moved vehicle index direction #0
                (spread (lookup route index)) bearing now)
        else
          match currentPoint, nextPoint with
          | Some cur, Some next =>
              let newLocation :=
                {| latitude :=
                     latitude cur + (latitude next - latitude cur) * progress;
                   longitude :=
                     longitude cur + (longitude next - longitude cur) * progress |} in
              Ok (Sim.moved vehicle (Sim.currentRouteIndex vehicle)
                    (Sim.direction vehicle) progress newLocation bearing now)
          | _, _ => Throw
          end
      else
        Ok (Sim.mk (Sim.base vehicle) (Sim.routeInfo vehicle)
              (if (Sim.direction vehicle =? 1)%Z then (len - 1)%Z else 0%Z)
              (Sim.originalLocation vehicle) (Sim.simulationSpeed vehicle)
              (Sim.fixedRoute vehicle)
              (Sim.direction vehicle * -1)%Z
              #0)
    else Ok vehicle
  | None => Ok vehicle
  end.

Definition tickVehicle : timestamp -> Sim.t -> outcome Sim.t :=
  tickVehicleWith #0.01.

(** A vehicle on the first point of a two-point route and heading
    backwards: its next index is [-1]. *)
Definition backwards_at_start : Sim.t :=
  Sim.mk bus1 (Sim.Lookup (MapService.mkInfo None None None)) 0
    (Vehicle.location bus1) (Some #0.0001)
    (Some [coord 24.715722 46.672611; coord 24.711389 46.674444]) (-1) #0.

(** The in-place writes of a tick are those of the server's tick: the
    repair branch builds its object without writing to the old one.

    Between the map and the update callback the client service logs
    [v.location.latitude] of every vehicle; on the vehicles represented
    here, which all have a location, the log reads numbers and cannot
    throw, so it has no counterpart in the life-cycle model. *)
Definition written : Sim.t -> Sim.t := Server.writtenWith #0.01.

End VehicleService.

(* ================================================================== *)
(** * The mock socket's simulator ([utils/socketUtils]) *)
(* ================================================================== *)

Module SocketUtils.

Import LocationUtils.
Local Open Scope js_scope.

(** [{ ...vehicle, routeInfo, currentRouteIndex, originalLocation, speed,
    fixedRoute }]: no [direction], and no [progress] until a tick writes
    one ([None] is the absent property). *)
Record simVehicle : Type := mk {
  base : Vehicle.t;
  routeInfo : MapService.routeInfo;
  currentRouteIndex : Z;
  originalLocation : coordinate;
  fixedRoute : option (list coordinate);
  progress : option number
}.

(** The object the [catch] clause of the initialisation returns. *)
Definition withoutRoute (vehicle : Vehicle.t) : simVehicle :=
  mk (Vehicle.with_speed
        (JS.or_else (Vehicle.speed vehicle) #30 / #3600 * #0.0001 * #20)
        vehicle)
     (MapService.mkInfo None None None) 0 (Vehicle.location vehicle)
     None None.

(** One vehicle of the initialisation.  [[...routeInfo.route.coordinates]]
    throws when the route has no [coordinates], which the [catch] clause
    handles like a rejected lookup. *)
Definition initVehicle
    (resolved : outcome MapService.routeInfo) (vehicle : Vehicle.t)
  : simVehicle :=
  match resolved with
  | Ok routeInfo =>
      let originalLocation := Vehicle.location vehicle in
      match MapService.route routeInfo with
      | Some r =>
          match MapService.coordinates r with
          | Some coordinates =>
              mk (Vehicle.with_speed
                    (JS.or_else (Vehicle.speed vehicle) #30
                     / #3600 * #0.0001 * #20)
                    vehicle)
                 routeInfo 0 originalLocation (Some coordinates) None
          | None => withoutRoute vehicle
          end
      | None =>
          mk (Vehicle.with_speed
                (JS.or_else (Vehicle.speed vehicle) #30
                 / #3600 * #0.0001 * #20)
                vehicle)
             routeInfo 0 originalLocation None None
      end
  | Throw => withoutRoute vehicle
  end.

Fixpoint initVehicles
    (resolved : list (outcome MapService.routeInfo)) (vehicles : list Vehicle.t)
  : list simVehicle :=
  match vehicles, resolved with
  | vehicle :: vehicles', r :: resolved' =>
      initVehicle r vehicle :: initVehicles resolved' vehicles'
  | _, _ => []
  end.

(** The body of [startSimulationInterval]'s callback for one vehicle. *)
Definition tickVehicle (now : timestamp) (vehicle : simVehicle)
  : outcome simVehicle :=
  match fixedRoute vehicle with
  | Some route =>
    let len := Z.of_nat (List.length route) in
    if (1 <? len)%Z then
      if (currentRouteIndex vehicle >=? len - 1)%Z then
        Ok (mk (Vehicle.moved (originalLocation vehicle) #0 now (base vehicle))
               (routeInfo vehicle) 0 (originalLocation vehicle)
               (fixedRoute vehicle) (progress vehicle))
      else
        let currentPoint := lookup route (currentRouteIndex vehicle) in
        let nextPoint := lookup route (currentRouteIndex vehicle + 1)%Z in
        let bearing := calculateBearing currentPoint nextPoint in
        let progress := JS.toNumber (progress vehicle) + #0.0005 in
        let '(progress, index) :=
          if JS.geb progress #1
          then (#0, (currentRouteIndex vehicle + 1)%Z)
          else (progress, currentRouteIndex vehicle) in
        match currentPoint, nextPoint with
        | Some cur, Some next =>
            let newLocation :=
              {| latitude :=
                   latitude cur + (latitude next - latitude cur) * progress;
                 longitude :=
                   longitude cur + (longitude next - longitude cur) * progress |} in
            Ok (mk (Vehicle.moved newLocation bearing now (base vehicle))
                   (routeInfo vehicle) index (originalLocation vehicle)
                   (fixedRoute vehicle) (Some progress))
        | _, _ => Throw
        end
    else Ok vehicle
  | None => Ok vehicle
  end.

(** The writes a tick makes in place on the old object: the reset branch
    rewinds the index and the location, the other branch updates
    [progress] and, on a reset of progress, the index. *)
Definition written (vehicle : simVehicle) : simVehicle :=
  match fixedRoute vehicle with
  | Some route =>
    let len := Z.of_nat (List.length route) in
    if (1 <? len)%Z then
      if (currentRouteIndex vehicle >=? len - 1)%Z then
        mk (Vehicle.moved (originalLocation vehicle)
              (Vehicle.heading (base vehicle))
              (Vehicle.lastUpdated (base vehicle)) (base vehicle))
           (routeInfo vehicle) 0 (originalLocation vehicle)
           (fixedRoute vehicle) (progress vehicle)
      else
        let progress := JS.toNumber (progress vehicle) + #0.0005 in
        let '(progress, index) :=
          if JS.geb progress #1
          then (#0, (currentRouteIndex vehicle + 1)%Z)
          else (progress, currentRouteIndex vehicle) in
        mk (base vehicle) (routeInfo vehicle) index (originalLocation vehicle)
           (fixedRoute vehicle) (Some progress)
    else vehicle
  | None => vehicle
  end.

(** Successive ticks of one vehicle, one time stamp per tick. *)
Fixpoint ticks (nows : list timestamp) (vehicle : simVehicle)
  : outcome simVehicle :=
  match nows with
  | [] => Ok vehicle
  | now :: nows' => bind (tickVehicle now vehicle) (ticks nows')
  end.

End SocketUtils.

(** The position whose components are both [NaN]. *)
Definition nowhere : coordinate := {| latitude := NaN; longitude := NaN |}.

(** A vehicle of the socket utilities stuck on the first leg of [route]
    with a progress that is no number. *)
Definition stuck (route : list coordinate) (v : SocketUtils.simVehicle) : Prop :=
  SocketUtils.fixedRoute v = Some route /\
  SocketUtils.currentRouteIndex v = 0%Z /\
  JS.toNumber (SocketUtils.progress v) = NaN.

(* ================================================================== *)
(** * The life cycle: [startVehicleSimulation] / [stopVehicleSimulation] *)
(* ================================================================== *)

(** The three modules share the life cycle code: two module-level
    variables, [simulatedVehicles] and [simulationInterval], a start that
    stops the previous simulation, awaits the joined route lookups and only
    then calls [setInterval], and a stop that clears the interval held in
    [simulationInterval].  JavaScript runs each of these pieces to
    completion; the host decides when a suspended start resumes and when an
    interval fires.  The section is parameterised by the vehicle type, the
    per-vehicle tick, and the writes that tick makes in place on the old
    vehicle object. *)

Section Lifecycle.

Variable V : Type.
Variable tick : timestamp -> V -> outcome V.
Variable written : V -> V.

(** Identity of an update callback handed to [startVehicleSimulation]. *)
Definition callback : Type := nat.

(** A start suspended at [await Promise.all(vehiclePromises)]: what the
    joined promises settle to, and the callback captured by the closure. *)
Definition suspended : Type := (outcome (list V) * option callback)%type.

Record state : Type := mkState {
  simulatedVehicles : list V;
  simulationInterval : option nat;
  (** live interval timers of the host, each with the callback captured by
      its closure *)
  intervals : list (nat * option callback);
  (** the next handle [setInterval] returns; handles are never [0] *)
  nextHandle : nat;
  (** starts waiting for their route lookups *)
  pending : list suspended;
  (** every invocation of an update callback, oldest first, with the
      collection as it was when the callback received it *)
  emitted : list (callback * list V)
}.

Definition initial : state := mkState [] None [] 1 [] [].

(** [clearInterval(h)] *)
Definition clearInterval (h : nat) (ivs : list (nat * option callback))
  : list (nat * option callback) :=
  filter (fun iv => negb (Nat.eqb (fst iv) h)) ivs.

Definition stopVehicleSimulation (st : state) : state :=
  match simulationInterval st with
  | Some h =>
      mkState [] None (clearInterval h (intervals st)) (nextHandle st)
              (pending st) (emitted st)
  | None =>
      mkState [] (simulationInterval st) (intervals st) (nextHandle st)
              (pending st) (emitted st)
  end.

(** The synchronous part of [startVehicleSimulation], up to the [await];
    [lookups] is what the joined per-vehicle promises will settle to. *)
Definition startVehicleSimulation
    (lookups : outcome (list V)) (updateCallback : option callback) (st : state)
  : state :=
  let st := stopVehicleSimulation st in
  mkState (simulatedVehicles st) (simulationInterval st) (intervals st)
          (nextHandle st) (pending st ++ [(lookups, updateCallback)])
          (emitted st).

Fixpoint remove_nth {A : Type} (k : nat) (l : list A) : list A :=
  match l, k with
  | [], _ => []
  | _ :: l', O => l'
  | a :: l', S k' => a :: remove_nth k' l'
  end.

(** The rest of [startVehicleSimulation], after the [await]: the [k]-th
    suspended start stores its vehicles and installs its interval.  A
    rejected join ends that start without installing anything. *)
Definition resume (k : nat) (st : state) : state :=
  match nth_error (pending st) k with
  | Some (Ok vehicles, updateCallback) =>
      mkState vehicles (Some (nextHandle st))
              (intervals st ++ [(nextHandle st, updateCallback)])
              (S (nextHandle st)) (remove_nth k (pending st)) (emitted st)
  | Some (Throw, _) =>
      mkState (simulatedVehicles st) (simulationInterval st) (intervals st)
              (nextHandle st) (remove_nth k (pending st)) (emitted st)
  | None => st
  end.

(** [simulatedVehicles.map(vehicle => ...)]: the old objects as the ticks
    leave them, and the new array, or the exception that aborted the map. *)
Fixpoint tickAll (now : timestamp) (vehicles : list V)
  : list V * outcome (list V) :=
  match vehicles with
  | [] => ([], Ok [])
  | vehicle :: rest =>
      match tick now vehicle with
      | Throw => (written vehicle :: rest, Throw)
      | Ok vehicle' =>
          let '(olds, news) := tickAll now rest in
          (written vehicle :: olds,
           bind news (fun vs => Ok (vehicle' :: vs)))
      end
  end.

(** One run of the interval callback installed under handle [h]: every
    vehicle is ticked, the module variable is replaced, and the callback, if
    any, receives the new collection.  An exception escaping the map leaves
    [simulatedVehicles] bound to the old array, whose objects keep the
    writes made before the exception, and skips the callback. *)
Definition fire (h : nat) (now : timestamp) (st : state) : state :=
  match find (fun iv => Nat.eqb (fst iv) h) (intervals st) with
  | Some (_, updateCallback) =>
      match tickAll now (simulatedVehicles st) with
      | (_, Ok vehicles) =>
          mkState vehicles (simulationInterval st) (intervals st)
                  (nextHandle st) (pending st)
                  (match updateCallback with
                   | Some cb => emitted st ++ [(cb, vehicles)]
                   | None => emitted st
                   end)
      | (olds, Throw) =>
          mkState olds (simulationInterval st) (intervals st)
                  (nextHandle st) (pending st) (emitted st)
      end
  | None => st
  end.

Inductive event : Type :=
| Start (lookups : outcome (list V)) (updateCallback : option callback)
| Resume (k : nat)
| Fire (h : nat) (now : timestamp)
| Stop.

Definition step (st : state) (e : event) : state :=
  match e with
  | Start lookups cb => startVehicleSimulation lookups cb st
  | Resume k => resume k st
  | Fire h now => fire h now st
  | Stop => stopVehicleSimulation st
  end.

Definition run (st : state) (es : list event) : state :=
  fold_left step es st.

(** The number of live interval timers. *)
Definition activeTimers (st : state) : nat := List.length (intervals st).

Definition is_fire (e : event) : Prop :=
  match e with
  | Fire _ _ => True
  | _ => False
  end.

(** A vehicle no tick changes, neither in the new array nor in place. *)
Definition inert (v : V) : Prop :=
  (forall now, tick now v = Ok v) /\ written v = v.

(** No start is waiting, and the only live timer, if any, is the one held
    in [simulationInterval]. *)
Definition quiescent (st : state) : Prop :=
  pending st = [] /\
  match simulationInterval st with
  | Some h => exists cb, intervals st = [(h, cb)]
  | None => intervals st = []
  end.

End Lifecycle.

Arguments Start {V} lookups updateCallback.
Arguments Resume {V} k.
Arguments Fire {V} h now.
Arguments Stop {V}.

(* ================================================================== *)
(** * Proof automation *)
(* ================================================================== *)

(** Turns the boolean tests of the sources, found among the hypotheses,
    into arithmetic facts. *)
Ltac zbool :=
  repeat match goal with
  | H : (_ && _)%bool = true |- _ => apply andb_true_iff in H; destruct H
  | H : (_ || _)%bool = false |- _ => apply orb_false_iff in H; destruct H
  | H : (_ && _)%bool = false |- _ => apply andb_false_iff in H
  | H : (_ || _)%bool = true |- _ => apply orb_true_iff in H
  | H : (_ <=? _)%Z = true |- _ => apply Z.leb_le in H
  | H : (_ <=? _)%Z = false |- _ => apply Z.leb_gt in H
  | H : (_ <? _)%Z = true |- _ => apply Z.ltb_lt in H
  | H : (_ <? _)%Z = false |- _ => apply Z.ltb_ge in H
  | H : (_ >=? _)%Z = _ |- _ => rewrite Z.geb_leb in H
  | H : (_ =? _)%Z = true |- _ => apply Z.eqb_eq in H
  | H : (_ =? _)%Z = false |- _ => apply Z.eqb_neq in H
  end.

(* ================================================================== *)
(** * Further functions of the sources *)
(* ================================================================== *)

(** The [<] operator on numbers: [false] when an operand is [NaN]. *)
Definition number_ltb (a b : number) : bool :=
  match a, b with
  | Num x, Num y => if Rlt_dec x y then true else false
  | _, _ => false
  end.

(** [Math.min] of two numbers: [NaN] when an operand is [NaN]. *)
Definition Math_min (a b : number) : number :=
  match a, b with
  | Num x, Num y => Num (Rmin x y)
  | _, _ => NaN
  end.

Module Movement.

Local Open Scope js_scope.

(** [moveTowardsPoint] of [utils/locationUtils] (the server holds the same
    function): the step is shortened by a smoothing factor. *)
Definition moveTowardsPoint (start end_ : coordinate) (amount : number)
  : coordinate :=
  let dx := longitude end_ - longitude start in
  let dy := latitude end_ - latitude start in
  let distance := Math_sqrt (dx * dx + dy * dy) in
  if number_ltb distance #0.0000001 then end_
  else
    let nx := dx / distance in
    let ny := dy / distance in
    let moveAmount := Math_min amount distance in
    let smoothingFactor := #0.98 in
    let smoothedAmount := moveAmount * smoothingFactor in
    {| latitude := latitude start + ny * smoothedAmount;
       longitude := longitude start + nx * smoothedAmount |}.



End Movement.

(** The point a fraction [t] of the way from [a] to [b], on real
    coordinates. *)
Definition lerp (a b : coordinate) (t : R) : coordinate :=
  {| latitude := JS.add (latitude a)
                   (JS.mul (JS.sub (latitude b) (latitude a)) (Num t));
     longitude := JS.add (longitude a)
                    (JS.mul (JS.sub (longitude b) (longitude a)) (Num t)) |}.

(** ** The parts of a simulated vehicle no tick writes *)

(** Identity, display data, route and original location of a vehicle of the
    ping-pong simulators. *)
Definition static_part (v : Sim.t)
  : string * string * string * string * string * Z * number *
    Sim.info * coordinate * option number * option (list coordinate) :=
  (Vehicle.id (Sim.base v), Vehicle.name (Sim.base v),
   Vehicle.type (Sim.base v), Vehicle.route (Sim.base v),
   Vehicle.routeId (Sim.base v), Vehicle.stops (Sim.base v),
   Vehicle.speed (Sim.base v),
   Sim.routeInfo v, Sim.originalLocation v, Sim.simulationSpeed v,
   Sim.fixedRoute v).

(** The same for a vehicle of the socket utilities. *)
Definition socket_static_part (v : SocketUtils.simVehicle)
  : string * string * string * string * string * Z * number *
    MapService.routeInfo * coordinate * option (list coordinate) :=
  (Vehicle.id (SocketUtils.base v), Vehicle.name (SocketUtils.base v),
   Vehicle.type (SocketUtils.base v), Vehicle.route (SocketUtils.base v),
   Vehicle.routeId (SocketUtils.base v), Vehicle.stops (SocketUtils.base v),
   Vehicle.speed (SocketUtils.base v),
   SocketUtils.routeInfo v, SocketUtils.originalLocation v,
   SocketUtils.fixedRoute v).

(** A vehicle of the ping-pong simulators on which ticks cannot fail:
    either it has no route of two points, or it satisfies the state
    invariants and its next index lies on the route. *)
Definition safe (v : Sim.t) : Prop :=
  short_route v \/
  exists route,
    (2 <= List.length route)%nat /\
    state_inv route v /\
    in_route (Z.of_nat (List.length route))
             (Sim.currentRouteIndex v + Sim.direction v).

(** Successive ticks of one vehicle in the client service. *)
Fixpoint client_ticks (step : number) (nows : list timestamp) (vehicle : Sim.t)
  : outcome Sim.t :=
  match nows with
  | [] => Ok vehicle
  | now :: nows' =>
      bind (VehicleService.tickVehicleWith step now vehicle)
           (client_ticks step nows')
  end.

(** The server's [vehicles.map(async vehicle => ...)] joined by
    [Promise.all]: one fetch outcome and one pair of random draws per
    vehicle; the join rejects as soon as one vehicle's promise does. *)
Fixpoint server_initVehicles
    (userLocation : coordinate)
    (inputs : list (number * number * outcome (option Directions.t)))
    (vehicles : list Vehicle.t) : outcome (list Sim.t) :=
  match vehicles, inputs with
  | vehicle :: vehicles', (u, v, fetch) :: inputs' =>
      bind (Server.initVehicle userLocation u v fetch vehicle) (fun sv =>
      bind (server_initVehicles userLocation inputs' vehicles') (fun svs =>
      Ok (sv :: svs)))
  | _, _ => Ok []
  end.

(** A vehicle of the socket utilities on which ticks cannot fail: it has
    no route of two points, or it is stuck on the first leg. *)
Definition socket_safe (v : SocketUtils.simVehicle) : Prop :=
  match SocketUtils.fixedRoute v with
  | Some route => (List.length route < 2)%nat \/ stuck route v
  | None => True
  end.

(** The first bus at the start of [route], heading forward, as the server
    initialises it; used in the worked examples. *)
Definition shuttle (route : list coordinate) : Sim.t :=
  Sim.mk bus1 (Sim.Endpoints "Al Urubah Station" "Olaya buildings" "#2ecc71")
    0 (Vehicle.location bus1) None (Some route) 1 (Num 0).

(** The state invariants of a vehicle of the socket utilities that has a
    usable progress. *)
Definition socket_inv (route : list coordinate) (v : SocketUtils.simVehicle)
  : Prop :=
  SocketUtils.fixedRoute v = Some route /\
  in_route (Z.of_nat (List.length route)) (SocketUtils.currentRouteIndex v) /\
  exists p : R, SocketUtils.progress v = Some (Num p) /\ (0 <= p < 1)%R.

(** A vehicle of the socket utilities on the first point of [route] with
    progress [p]; used in the worked examples. *)
Definition socket_shuttle (route : list coordinate) (p : R)
  : SocketUtils.simVehicle :=
  SocketUtils.mk bus1 (MapService.mkInfo None None None) 0
    (Vehicle.location bus1) (Some route) (Some (Num p)).

(** ** Schedules *)

(** A serial schedule: every start resumes before anything else happens. *)
Inductive serial (V : Type) : list (event V) -> Prop :=
| serial_nil : serial []
| serial_start lookups cb es :
    serial es -> serial (Start lookups cb :: Resume 0 :: es)
| serial_fire h now es : serial es -> serial (Fire h now :: es)
| serial_stop es : serial es -> serial (Stop :: es).

(** ** Route lookups *)

(** The location test of [generateVehicleRoute]: both components must be
    truthy, so [0] and [NaN] make a location unusable. *)
Definition usable_location (vehicle : Vehicle.t) : bool :=
  JS.truthy (latitude (Vehicle.location vehicle)) &&
  JS.truthy (longitude (Vehicle.location vehicle)).


(* ================================================================== *)
(** * Polyline decoding ([decodePolyline] of the server and the map service) *)
(* ================================================================== *)

Module Polyline.

Local Open Scope Z_scope.

(** [ToInt32]: the bitwise operators work on 32-bit two's complement
    integers. *)
Definition toInt32 (z : Z) : Z := (z + 2 ^ 31) mod 2 ^ 32 - 2 ^ 31.

Definition and32 (a b : Z) : Z := toInt32 (Z.land (toInt32 a) (toInt32 b)).
Definition or32 (a b : Z) : Z := toInt32 (Z.lor (toInt32 a) (toInt32 b)).
(** [a << s] and [a >> s]: only the low five bits of the count are used. *)
Definition shl32 (a s : Z) : Z := toInt32 (Z.shiftl (toInt32 a) (s mod 32)).
Definition sar32 (a s : Z) : Z := Z.shiftr (toInt32 a) (s mod 32).
Definition not32 (a : Z) : Z := Z.lnot (toInt32 a).

(** [encoded.charCodeAt(i)] for a position inside the string.  Strings
    are of one-byte characters, which covers the alphabet of the encoding
    (codes 63 to 126). *)
Definition charCode (c : Ascii.ascii) : Z := Z.of_N (Ascii.N_of_ascii c).

(** One [do ... while (b >= 0x20)] loop, from the current position.  Past
    the end of the string [charCodeAt] gives [NaN]: [NaN & 0x1f] is [0]
    and [NaN >= 0x20] is false, so the loop ends there with [result]
    unchanged. *)
Fixpoint readChunk (encoded : string) (shift result : Z) : Z * string :=
  match encoded with
  | EmptyString => (result, EmptyString)
  | String c rest =>
      let b := charCode c - 63 in
      let result := or32 result (shl32 (and32 b 31) shift) in
      if 32 <=? b then readChunk rest (shift + 5) result else (result, rest)
  end.

(** [(result & 1) ? ~(result >> 1) : (result >> 1)] *)
Definition delta (result : Z) : Z :=
  if and32 result 1 =? 0 then sar32 result 1 else not32 (sar32 result 1).

Record point : Type := mkPoint {
  lat : number;
  lng : number
}.

(** The [while (index < encoded.length)] loop on what is left of the
    string; [fuel] bounds the number of iterations.  [lat] and [lng] hold
    whole numbers, kept in [Z] until the division by [1e5]. *)
Fixpoint decodeFrom (fuel : nat) (encoded : string) (lat lng : Z)
  : option (list point) :=
  match encoded with
  | EmptyString => Some []
  | String _ _ =>
      match fuel with
      | O => None
      | S fuel' =>
          let '(result, rest) := readChunk encoded 0 0 in
          let lat := lat + delta result in
          let '(result, rest) := readChunk rest 0 0 in
          let lng := lng + delta result in
          option_map
            (cons {| lat := JS.div (Num (IZR lat)) (Num 100000);
                     lng := JS.div (Num (IZR lng)) (Num 100000) |})
            (decodeFrom fuel' rest lat lng)
      end
  end.

(** [decodePolyline]: one iteration reads at least one character, so the
    length of the string is fuel enough. *)
Definition decodePolyline (encoded : string) : option (list point) :=
  decodeFrom (String.length encoded) encoded 0 0.

(** The conversion [fetchDirections] applies to the decoded points. *)
Definition toCoordinates (points : list point) : list coordinate :=
  map (fun p => {| latitude := lat p; longitude := lng p |}) points.

(** ** The encoding the decoder expects

    The repository holds no encoder; this is the published polyline
    encoding, against which the decoder is checked: a signed value is
    shifted left by one bit and inverted when negative, then cut into
    five-bit groups, lowest first, each but the last flagged with [0x20],
    and 63 is added to every group. *)

Definition chr (z : Z) : Ascii.ascii := Ascii.ascii_of_N (Z.to_N z).

Fixpoint encodeGroups (fuel : nat) (value : Z) : string :=
  match fuel with
  | O => EmptyString
  | S fuel' =>
      if 32 <=? value
      then String (chr (Z.lor (Z.land value 31) 32 + 63))
                  (encodeGroups fuel' (Z.shiftr value 5))
      else String (chr (value + 63)) EmptyString
  end.

Definition zigzag (v : Z) : Z :=
  if v <? 0 then Z.lnot (Z.shiftl v 1) else Z.shiftl v 1.

Definition encodeValue (v : Z) : string := encodeGroups 6 (zigzag v).

(** Points are given in units of 1e-5 degrees; each is encoded as its
    offset from the previous one. *)
Fixpoint encodeFrom (points : list (Z * Z)) (lat lng : Z) : string :=
  match points with
  | [] => EmptyString
  | (la, lo) :: rest =>
      (encodeValue (la - lat) ++ encodeValue (lo - lng) ++ encodeFrom rest la lo)%string
  end.

Definition encodePolyline (points : list (Z * Z)) : string :=
  encodeFrom points 0 0.

(** Every step between successive points (the first from the origin) is
    within the 30 bits six groups hold. *)
Fixpoint small_steps (points : list (Z * Z)) (lat lng : Z) : Prop :=
  match points with
  | [] => True
  | (la, lo) :: rest =>
      - 2 ^ 29 <= la - lat < 2 ^ 29 /\
      - 2 ^ 29 <= lo - lng < 2 ^ 29 /\
      small_steps rest la lo
  end.

Definition scaled (p : Z * Z) : point :=
  {| lat := JS.div (Num (IZR (fst p))) (Num 100000);
     lng := JS.div (Num (IZR (snd p))) (Num 100000) |}.

End Polyline.

(* ================================================================== *)
(** * The directions request ([fetchDirections]) *)
(* ================================================================== *)

Module DirectionsApi.

Import Polyline.
Local Open Scope js_scope.

(** The fields of the provider's answer that [fetchDirections] reads. *)
Record leg : Type := mkLeg {
  distance_value : number;
  duration_value : number;
  start_address : string;
  end_address : string
}.

Record apiRoute : Type := mkApiRoute {
  legs : list leg;
  overview_polyline : string
}.

Record data : Type := mkData {
  status : string;
  routes : list apiRoute
}.

(** [fetchDirections], given what the awaited request produced.  The whole
    body sits in a [try] whose [catch] returns [null]: a failed request
    ([Throw]), a missing first route and a missing first leg (both a
    [TypeError] on the property read) all end there.  [decodePolyline]
    always returns, so its [None] is never met. *)
Definition fetchDirections (response : outcome data) : option Directions.t :=
  match response with
  | Throw => None
  | Ok data =>
      if negb (String.eqb (status data) "OK") then None
      else
        match routes data with
        | [] => None
        | route :: _ =>
            match decodePolyline (overview_polyline route), legs route with
            | Some points, leg :: _ =>
                Some {| Directions.coordinates := toCoordinates points;
                        Directions.distance := distance_value leg / #1000;
                        Directions.duration := duration_value leg / #60;
                        Directions.startName := start_address leg;
                        Directions.endName := end_address leg |}
            | _, _ => None
            end
        end
  end.

End DirectionsApi.

(** Every route kept in [vehicleFixedRoutes] has at least one point. *)
Definition stored_routes_nonempty (t : MapService.table) : Prop :=
  forall k e, MapService.table_get t k = Some e -> MapService.e_coordinates e <> [].

(** A path given by real latitudes and longitudes. *)
Definition real_route (points : list (R * R)) : list coordinate :=
  map (fun p => coord (fst p) (snd p)) points.

(** Two points are not nearly antipodal: the haversine term stays away
    from 1, where [calculateDistance] takes the square root of [1 - a]
    (within about 0.004 degrees of the antipode the rounding of [a] can
    make that argument negative). *)
Definition not_antipodal (lat1 lng1 lat2 lng2 : R) : Prop :=
  (haversine_a lat1 lng1 lat2 lng2 <= 1 - 1 / 1000000000)%R.

(** A leg between two points with latitudes in [-90, 90] that are not
    nearly antipodal. *)
Definition clear_leg (p q : R * R) : Prop :=
  (-90 <= fst p <= 90)%R /\ (-90 <= fst q <= 90)%R /\
  not_antipodal (fst p) (snd p) (fst q) (snd q).

Fixpoint clear_legs (prev : R * R) (rest : list (R * R)) : Prop :=
  match rest with
  | [] => True
  | q :: rest' => clear_leg prev q /\ clear_legs q rest'
  end.

(** Every leg of the path is clear. *)
Definition clear_route (points : list (R * R)) : Prop :=
  match points with
  | [] => True
  | p :: rest => clear_legs p rest
  end.

(** The lookup for [vehicle] takes what it finds on [Object.prototype] for
    a stored route: the vehicle and the user location are present, the
    vehicle's location is usable, and its id, not a key of the table
    itself, names a property of the prototype. *)
Definition reads_prototype
    (fixedRoutes : MapService.table) (vehicle : option Vehicle.t)
    (userLocation : option coordinate) : Prop :=
  exists v,
    vehicle = Some v /\ userLocation <> None /\
    usable_location v = true /\
    MapService.table_read fixedRoutes (Vehicle.id v) = MapService.Inherited.

(** Successive runs of the server's interval callback on one vehicle, one
    time stamp per run, with the progress step the code fixes. *)
Fixpoint server_ticks (nows : list timestamp) (vehicle : Sim.t)
  : outcome Sim.t :=
  match nows with
  | [] => Ok vehicle
  | now :: nows' => bind (Server.tickVehicle now vehicle) (server_ticks nows')
  end.

(** The time stamps of [n] successive runs, from run number [a] on. *)
Definition runs (clock : nat -> timestamp) (a n : nat) : list timestamp :=
  map clock (seq a n).

(** What an awaited lookup hands to the initialisation of a vehicle: the
    answer without the table, or the rejection. *)
Definition answer (r : outcome (MapService.routeInfo * MapService.table))
  : outcome MapService.routeInfo :=
  match r with
  | Ok (routeInfo, _) => Ok routeInfo
  | Throw => Throw
  end.

(** The answer of a lookup with the three-point route (0,0), (0,1), (1,1);
    used in the worked examples. *)
Definition sampleInfo : MapService.routeInfo :=
  MapService.mkInfo (Some "vehicle-0"%string)
    (Some (MapService.mkRoute
             (Some [coord 0 0; coord 0 1; coord 1 1]) (Num 0) (Num 0)
             "Bus #1" "route-1" 8
             (Some "Al Urubah Station"%string) (Some "Olaya buildings"%string)
             (Some "#2ecc71"%string)))
    None.
(* ================================================================== *)
(** * Properties of the geodesy helpers *)
(* ================================================================== *)

Section GeodesyFacts.

Open Scope R_scope.
Import LocationUtils.

Lemma Rtrunc_unique_nonneg (r : R) (z : Z) :
  0 <= r -> IZR z <= r < IZR z + 1 -> Rtrunc r = z.
Proof.
  intros Hr Hz. unfold Rtrunc.
  destruct (Rle_dec 0 r) as [_|n]; [|contradiction].
  symmetry. apply Int_part_spec. lra.
Qed.

Lemma Rdiv_between (x m a b : R) :
  0 < m -> a * m <= x < b * m -> a <= x / m < b.
Proof.
  intros Hm [Hlo Hhi].
  assert (E : x = x / m * m) by (field; lra).
  split.
  - apply Rmult_le_reg_r with m; [exact Hm | lra].
  - apply Rmult_lt_reg_r with m; [exact Hm | lra].
Qed.

Lemma Rrem_below (x m : R) : 0 < m -> 0 <= x < m -> Rrem x m = x.
Proof.
  intros Hm Hx. unfold Rrem.
  assert (Hq : 0 <= x / m < 1) by (apply Rdiv_between; lra).
  rewrite (@Rtrunc_unique_nonneg (x / m) 0%Z); lra.
Qed.

Lemma Rrem_once (x m : R) : 0 < m -> m <= x < 2 * m -> Rrem x m = x - m.
Proof.
  intros Hm Hx. unfold Rrem.
  assert (Hq : 1 <= x / m < 2) by (apply Rdiv_between; lra).
  rewrite (@Rtrunc_unique_nonneg (x / m) 1%Z); lra.
Qed.

Lemma div_Num (x y : R) : y <> 0 -> JS.div (Num x) (Num y) = Num (x / y).
Proof.
  intros Hy. unfold JS.div. destruct (Req_dec_T y 0); [contradiction|reflexivity].
Qed.

Lemma toRad_Num (d : R) : toRad (Num d) = Num (d * PI / 180).
Proof. unfold toRad. cbn. apply div_Num. lra. Qed.

Lemma calculateBearing_real (lat1 lng1 lat2 lng2 : R) :
  calculateBearing (Some (coord lat1 lng1)) (Some (coord lat2 lng2)) =
  Num (bearingR lat1 lng1 lat2 lng2).
Proof.
  unfold calculateBearing, bearingR, coord; cbn [latitude longitude].
  rewrite !toRad_Num.
  unfold Math_sin, Math_cos, Math_atan2, Math_PI, JS.sub, JS.add, JS.mul;
    cbn [lift1 lift2].
  rewrite div_Num by apply PI_neq0. cbn [lift2]. unfold JS.rem.
  destruct (Req_dec_T 360 0) as [E|_]; [lra|reflexivity].
Qed.

Lemma haversine_a_sym (lat1 lng1 lat2 lng2 : R) :
  haversine_a lat1 lng1 lat2 lng2 = haversine_a lat2 lng2 lat1 lng1.
Proof.
  unfold haversine_a; cbv zeta.
  replace ((lat1 - lat2) * PI / 180 / 2) with (- ((lat2 - lat1) * PI / 180 / 2))
    by field.
  replace ((lng1 - lng2) * PI / 180 / 2) with (- ((lng2 - lng1) * PI / 180 / 2))
    by field.
  rewrite !sin_neg. ring.
Qed.

Lemma haversine_a_refl (lat lng : R) : haversine_a lat lng lat lng = 0.
Proof.
  unfold haversine_a; cbv zeta.
  replace ((lat - lat) * PI / 180 / 2) with 0 by field.
  replace ((lng - lng) * PI / 180 / 2) with 0 by field.
  rewrite sin_0. ring.
Qed.

Lemma calculateDistance_real (lat1 lng1 lat2 lng2 : R) :
  calculateDistance (Some (coord lat1 lng1)) (Some (coord lat2 lng2)) =
  let a := Num (haversine_a lat1 lng1 lat2 lng2) in
  (#6371 * (#2 * Math_atan2 (Math_sqrt a) (Math_sqrt (#1 - a))))%js.
Proof.
  unfold calculateDistance, haversine_a, coord; cbn [latitude longitude].
  unfold JS.sub; cbn [lift2]. rewrite !toRad_Num, !div_Num by lra. reflexivity.
Qed.

(** C7. For all coordinates [a] and [b] with real components, the haversine
    distance (Earth radius 6371 km) of [a] to itself is [0], and the distance
    from [a] to [b] equals the distance from [b] to [a]. *)
Theorem calculateDistance_zero_and_symmetric (lat1 lng1 lat2 lng2 : R) :
  calculateDistance (Some (coord lat1 lng1)) (Some (coord lat1 lng1)) = Num 0 /\
  calculateDistance (Some (coord lat1 lng1)) (Some (coord lat2 lng2)) =
  calculateDistance (Some (coord lat2 lng2)) (Some (coord lat1 lng1)).
Proof.
  split.
  - rewrite calculateDistance_real, haversine_a_refl. cbn.
    destruct (Rlt_dec 0 0) as [H|_]; [lra|].
    destruct (Rlt_dec (1 - 0) 0) as [H|_]; [lra|]. cbn.
    f_equal. unfold Ratan2.
    replace (1 - 0) with 1 by ring. rewrite sqrt_0, sqrt_1.
    destruct (Rlt_dec 0 1) as [_|H]; [|lra].
    replace (0 / 1) with 0 by field. rewrite atan_0. ring.
  - rewrite !calculateDistance_real, (haversine_a_sym lat1 lng1 lat2 lng2).
    reflexivity.
Qed.


(** ** Bearings *)

Lemma normalize_nonneg (d : R) : 0 <= d < 360 -> Rrem (d + 360) 360 = d.
Proof. intros H. rewrite Rrem_once; lra. Qed.

Lemma normalize_neg (d : R) : -360 <= d < 0 -> Rrem (d + 360) 360 = d + 360.
Proof. intros H. rewrite Rrem_below; lra. Qed.

Lemma Ratan2_pos_axis_y (y : R) : 0 < y -> Ratan2 y 0 = PI / 2.
Proof.
  intros Hy. unfold Ratan2.
  destruct (Rlt_dec 0 0); [lra|]. destruct (Rlt_dec 0 y); [reflexivity|lra].
Qed.

Lemma Ratan2_neg_axis_y (y : R) : y < 0 -> Ratan2 y 0 = - (PI / 2).
Proof.
  intros Hy. unfold Ratan2.
  destruct (Rlt_dec 0 0); [lra|]. destruct (Rlt_dec 0 y); [lra|].
  destruct (Rlt_dec y 0); [reflexivity|lra].
Qed.

Lemma Ratan2_pos_axis_x (x : R) : 0 < x -> Ratan2 0 x = 0.
Proof.
  intros Hx. unfold Ratan2. destruct (Rlt_dec 0 x); [|lra].
  replace (0 / x) with 0 by (field; lra). apply atan_0.
Qed.

Lemma Ratan2_neg_axis_x (x : R) : x < 0 -> Ratan2 0 x = PI.
Proof.
  intros Hx. unfold Ratan2. destruct (Rlt_dec 0 x); [lra|].
  destruct (Rlt_dec x 0); [|lra]. destruct (Rle_dec 0 0); [|lra].
  replace (0 / x) with 0 by (field; lra). rewrite atan_0. ring.
Qed.

Lemma sin_deg_pos (d : R) : 0 < d < 180 -> 0 < sin (d * PI / 180).
Proof.
  intros [H0 H1]. pose proof PI_RGT_0 as HPI.
  apply sin_gt_0.
  - apply Rdiv_lt_0_compat; [apply Rmult_lt_0_compat|]; lra.
  - apply Rmult_lt_reg_r with 180; [lra|].
    replace (d * PI / 180 * 180) with (d * PI) by field. nra.
Qed.

(** Along the equator the bearing is due east, and due west on the way
    back. *)
Lemma bearing_equator (lng1 lng2 : R) :
  0 < lng2 - lng1 < 180 ->
  bearingR 0 lng1 0 lng2 = 90 /\ bearingR 0 lng2 0 lng1 = 270.
Proof.
  intros H. pose proof (sin_deg_pos H) as Hs.
  unfold bearingR; cbv zeta.
  replace (0 * PI / 180) with 0 by field. rewrite sin_0, cos_0.
  replace (lng2 * PI / 180 - lng1 * PI / 180) with ((lng2 - lng1) * PI / 180)
    by field.
  replace (lng1 * PI / 180 - lng2 * PI / 180) with (- ((lng2 - lng1) * PI / 180))
    by field.
  rewrite sin_neg.
  replace (1 * 0 - 0 * 1 * cos ((lng2 - lng1) * PI / 180)) with 0 by ring.
  replace (1 * 0 - 0 * 1 * cos (- ((lng2 - lng1) * PI / 180))) with 0 by ring.
  rewrite Ratan2_pos_axis_y, Ratan2_neg_axis_y by lra.
  replace (PI / 2 * 180 / PI) with 90 by (field; apply PI_neq0).
  replace (- (PI / 2) * 180 / PI) with (-90) by (field; apply PI_neq0).
  rewrite normalize_nonneg, normalize_neg by lra. split; lra.
Qed.

(** Along a meridian the bearing is due north, and due south on the way
    back. *)
Lemma bearing_meridian (lat1 lat2 lng : R) :
  0 < lat2 - lat1 < 180 ->
  bearingR lat1 lng lat2 lng = 0 /\ bearingR lat2 lng lat1 lng = 180.
Proof.
  intros H. pose proof (sin_deg_pos H) as Hs.
  unfold bearingR; cbv zeta.
  replace (lng * PI / 180 - lng * PI / 180) with 0 by ring.
  rewrite sin_0, cos_0.
  replace (cos (lat1 * PI / 180) * sin (lat2 * PI / 180) -
           sin (lat1 * PI / 180) * cos (lat2 * PI / 180) * 1)
    with (sin ((lat2 - lat1) * PI / 180)).
  2:{ replace ((lat2 - lat1) * PI / 180)
        with (lat2 * PI / 180 - lat1 * PI / 180) by field.
      rewrite sin_minus. ring. }
  replace (cos (lat2 * PI / 180) * sin (lat1 * PI / 180) -
           sin (lat2 * PI / 180) * cos (lat1 * PI / 180) * 1)
    with (- sin ((lat2 - lat1) * PI / 180)).
  2:{ replace ((lat2 - lat1) * PI / 180)
        with (lat2 * PI / 180 - lat1 * PI / 180) by field.
      rewrite sin_minus. ring. }
  rewrite !Rmult_0_l.
  rewrite Ratan2_pos_axis_x, Ratan2_neg_axis_x by lra.
  replace (0 * 180 / PI) with 0 by (field; apply PI_neq0).
  replace (PI * 180 / PI) with 180 by (field; apply PI_neq0).
  rewrite !normalize_nonneg by lra. split; lra.
Qed.


Lemma bearing_0_0_to_45_90 : bearingR 0 0 45 90 = 45.
Proof.
  unfold bearingR; cbv zeta.
  replace (0 * PI / 180) with 0 by field.
  replace (45 * PI / 180) with (PI / 4) by field.
  replace (90 * PI / 180 - 0) with (PI / 2) by field.
  rewrite sin_0, cos_0, sin_PI2, cos_PI2, sin_cos_PI4.
  assert (Hc : 0 < cos (PI / 4)).
  { pose proof PI_RGT_0. apply cos_gt_0; lra. }
  replace (1 * cos (PI / 4) - 0 * cos (PI / 4) * 0) with (cos (PI / 4)) by ring.
  rewrite Rmult_1_l.
  unfold Ratan2. destruct (Rlt_dec 0 (cos (PI / 4))) as [_|n]; [|contradiction].
  replace (cos (PI / 4) / cos (PI / 4)) with 1 by (field; lra).
  rewrite atan_1.
  replace (PI / 4 * 180 / PI) with 45 by (field; apply PI_neq0).
  apply normalize_nonneg; lra.
Qed.

Lemma bearing_45_90_to_0_0 : bearingR 45 90 0 0 = 270.
Proof.
  unfold bearingR; cbv zeta.
  replace (0 * PI / 180) with 0 by field.
  replace (0 - 90 * PI / 180) with (- (PI / 2)) by field.
  rewrite sin_neg, cos_neg, sin_0, cos_0, sin_PI2, cos_PI2.
  replace (cos (45 * PI / 180) * 0 - sin (45 * PI / 180) * 1 * 0) with 0 by ring.
  rewrite Ratan2_neg_axis_y by lra.
  replace (- (PI / 2) * 180 / PI) with (-90) by (field; apply PI_neq0).
  rewrite normalize_neg; lra.
Qed.

(** C4, counterexample. From (0,0) the bearing to (45,90) is 45 degrees, while
    the bearing back from (45,90) to (0,0) is 270 degrees: the two do not
    differ by 180 degrees modulo 360. *)
Lemma calculateBearing_reverse_counterexample :
  coord 0 0 <> coord 45 90 /\
  calculateBearing (Some (coord 0 0)) (Some (coord 45 90)) = Num 45 /\
  calculateBearing (Some (coord 45 90)) (Some (coord 0 0)) = Num 270 /\
  ~ differ_by_180 (calculateBearing (Some (coord 0 0)) (Some (coord 45 90)))
                  (calculateBearing (Some (coord 45 90)) (Some (coord 0 0))).
Proof.
  rewrite !calculateBearing_real, bearing_0_0_to_45_90, bearing_45_90_to_0_0.
  repeat split.
  - unfold coord. intros E. injection E as E1 _. lra.
  - cbn. intros [k Hk].
    assert (Hz : (k <= -2)%Z \/ (-1 <= k)%Z) by lia.
    destruct Hz as [Hz|Hz]; apply IZR_le in Hz; lra.
Qed.

(** C4, amended. For two distinct points on one meridian, or two distinct
    points on the equator, less than 180 degrees apart, [calculateBearing]
    forth and back differ by 180 degrees modulo 360. *)
Theorem calculateBearing_reverse_meridian_or_equator
    (lat1 lng1 lat2 lng2 : R) :
  (lng1 = lng2 /\ 0 < Rabs (lat2 - lat1) < 180) \/
  (lat1 = 0 /\ lat2 = 0 /\ 0 < Rabs (lng2 - lng1) < 180) ->
  differ_by_180 (calculateBearing (Some (coord lat1 lng1)) (Some (coord lat2 lng2)))
                (calculateBearing (Some (coord lat2 lng2)) (Some (coord lat1 lng1))).
Proof.
  intros H. rewrite !calculateBearing_real. cbn.
  destruct H as [[-> H]|[-> [-> H]]].
  - destruct (Rle_dec 0 (lat2 - lat1)) as [Hle|Hgt].
    + rewrite Rabs_pos_eq in H by lra.
      destruct (@bearing_meridian lat1 lat2 lng2 H) as [-> ->].
      exists (-1)%Z. lra.
    + rewrite Rabs_left in H by lra.
      assert (H' : 0 < lat1 - lat2 < 180) by lra.
      destruct (@bearing_meridian lat2 lat1 lng2 H') as [-> ->].
      exists 0%Z. lra.
  - destruct (Rle_dec 0 (lng2 - lng1)) as [Hle|Hgt].
    + rewrite Rabs_pos_eq in H by lra.
      destruct (@bearing_equator lng1 lng2 H) as [-> ->].
      exists (-1)%Z. lra.
    + rewrite Rabs_left in H by lra.
      assert (H' : 0 < lng1 - lng2 < 180) by lra.
      destruct (@bearing_equator lng2 lng1 H') as [-> ->].
      exists 0%Z. lra.
Qed.

Lemma calculateBearing_reverse_witness :
  differ_by_180 (calculateBearing (Some (coord 0 0)) (Some (coord 0 1)))
                (calculateBearing (Some (coord 0 1)) (Some (coord 0 0))).
Proof.
  apply calculateBearing_reverse_meridian_or_equator.
  right. split; [reflexivity|]. split; [reflexivity|].
  replace (1 - 0) with 1 by ring. rewrite Rabs_R1. lra.
Defined.

End GeodesyFacts.

(* ================================================================== *)
(** * The server's tick *)
(* ================================================================== *)

Section ServerTick.

Local Open Scope Z_scope.

Lemma lookup_in_range {A : Type} (l : list A) (i : Z) :
  0 <= i < Z.of_nat (List.length l) -> exists a, lookup l i = Some a.
Proof.
  intros [H0 H1]. unfold lookup.
  destruct (i <? 0) eqn:E; [apply Z.ltb_lt in E; lia|].
  destruct (nth_error l (Z.to_nat i)) as [a|] eqn:En; [now exists a|].
  apply nth_error_None in En. lia.
Qed.

Lemma lookup_out_of_range {A : Type} (l : list A) (i : Z) :
  ~ 0 <= i < Z.of_nat (List.length l) -> lookup l i = None.
Proof.
  intros H. unfold lookup.
  destruct (i <? 0) eqn:E; [reflexivity|].
  apply Z.ltb_ge in E. apply nth_error_None. lia.
Qed.

End ServerTick.

Section ServerInvariants.

Import Server.
Local Open Scope Z_scope.

(** One tick from a state that satisfies the invariants. *)
Lemma tick_step_spec
    (s : R) (now : timestamp) (route : list coordinate) (v : Sim.t) (p : R) :
  (0 <= s)%R ->
  (2 <= List.length route)%nat ->
  state_inv route v ->
  Sim.progress v = Num p ->
  let len := Z.of_nat (List.length route) in
  let next := Sim.currentRouteIndex v + Sim.direction v in
  exists v',
    tickVehicleWith (Num s) now v = Ok v' /\
    state_inv route v' /\
    (in_route len next ->
       ((1 <= p + s)%R ->
          Sim.progress v' = Num 0 /\ Sim.currentRouteIndex v' = next) /\
       ((p + s < 1)%R ->
          Sim.progress v' = Num (p + s) /\
          Sim.currentRouteIndex v' = Sim.currentRouteIndex v)) /\
    (Sim.direction v' <> Sim.direction v <->
       in_route len next /\ (1 <= p + s)%R /\
       ~ in_route len (next + Sim.direction v)) /\
    (in_route len next ->
       in_route len (Sim.currentRouteIndex v' + Sim.direction v')).
Proof.
  intros Hs Hlen (Hroute & Hidx & (p0 & Hp0 & Hp) & Hdir) Hprog len next.
  rewrite Hprog in Hp0. injection Hp0 as <-.
  unfold in_route in *. fold len in Hidx.
  assert (Hlen' : 2 <= len) by (unfold len; lia).
  unfold tickVehicleWith. rewrite Hroute. fold len. fold next.
  destruct (1 <? len) eqn:E1; zbool; [|lia].
  destruct ((0 <=? next) && (next <? len))%bool eqn:E2; zbool.
  - rewrite Hprog. cbn [JS.add lift2 JS.geb].
    destruct (Rle_dec 1 (p + s)) as [Hge|Hlt].
    + destruct ((next >=? len - 1) || (next <=? 0))%bool eqn:E3; zbool;
        [destruct (Sim.direction v * -1 =? -1) eqn:E4; zbool|];
        (eexists; split; [reflexivity|]); cbn;
        (split; [unfold state_inv, in_route; cbn; fold len;
                 repeat split; try assumption; try lia;
                 try (exists 0%R; split; [reflexivity|lra])|]);
        repeat split; intros; try lia; try lra; try tauto.
    + destruct (@lookup_in_range _ route (Sim.currentRouteIndex v) Hidx)
        as [cur ->].
      destruct (@lookup_in_range _ route next) as [nxt ->]; [lia|].
      eexists; split; [reflexivity|]; cbn.
      split; [unfold state_inv, in_route; cbn; fold len;
              repeat split; try assumption; try lia;
              exists (p + s)%R; split; [reflexivity|lra]|].
      repeat split; intros; try lia; try lra; try tauto.
  - exists v. split; [reflexivity|].
    split; [unfold state_inv, in_route; fold len; repeat split;
            try assumption; try lia; exists p; split; [assumption|lra]|].
    repeat split; intros; try lia; try lra; try tauto.
Qed.

(** C3. For a vehicle whose route has at least two points, a tick (with a
    non-negative progress step) preserves the state invariants: the route
    index stays a position of the route, progress stays in [0,1), and the
    direction stays +1 or -1.  When the increased progress reaches 1 the
    index advances and progress is reset to 0 in that same tick; the
    direction flips exactly when the index advanced onto an end of the
    route, from which one more step the same way would leave the route. *)
Theorem tick_preserves_invariants
    (s : R) (now : timestamp) (route : list coordinate) (v : Sim.t) (p : R) :
  (0 <= s)%R ->
  (2 <= List.length route)%nat ->
  state_inv route v ->
  Sim.progress v = Num p ->
  let len := Z.of_nat (List.length route) in
  let next := Sim.currentRouteIndex v + Sim.direction v in
  exists v',
    tickVehicleWith (Num s) now v = Ok v' /\
    state_inv route v' /\
    (in_route len next ->
       ((1 <= p + s)%R ->
          Sim.progress v' = Num 0 /\ Sim.currentRouteIndex v' = next) /\
       ((p + s < 1)%R ->
          Sim.progress v' = Num (p + s) /\
          Sim.currentRouteIndex v' = Sim.currentRouteIndex v)) /\
    (Sim.direction v' <> Sim.direction v <->
       in_route len next /\ (1 <= p + s)%R /\
       ~ in_route len (next + Sim.direction v)) /\
    (in_route len next ->
       in_route len (Sim.currentRouteIndex v' + Sim.direction v')).
Proof. apply tick_step_spec. Qed.

Lemma tick_preserves_invariants_witness :
  exists v',
    tickVehicleWith (Num 0.01) "t"%string
      (scenario bus1 (Sim.Endpoints "a" "b" "c") (coord 0 0)) = Ok v' /\
    state_inv [coord 0 0; coord 0 1; coord 1 1] v'.
Proof.
  destruct (@tick_preserves_invariants 0.01 "t"%string
              [coord 0 0; coord 0 1; coord 1 1]
              (scenario bus1 (Sim.Endpoints "a" "b" "c") (coord 0 0)) 0%R)
    as (v' & Hv' & Hinv & _).
  - lra.
  - cbn. lia.
  - unfold state_inv, in_route, scenario; cbn.
    repeat split; try lia. exists 0%R. split; [reflexivity|lra].
  - reflexivity.
  - exists v'. split; assumption.
Defined.

(** The state a successful server initialisation produces satisfies the
    invariants once its route has two points. *)
Lemma initVehicle_state_inv
    (userLocation : coordinate) (u w : number)
    (fetch : outcome (option Directions.t)) (vehicle : Vehicle.t)
    (v : Sim.t) (route : list coordinate) :
  initVehicle userLocation u w fetch vehicle = Ok v ->
  Sim.fixedRoute v = Some route ->
  (2 <= List.length route)%nat ->
  state_inv route v /\
  in_route (Z.of_nat (List.length route))
           (Sim.currentRouteIndex v + Sim.direction v).
Proof.
  unfold initVehicle. intros Hinit Hroute Hlen.
  destruct (findRoute (Vehicle.routeId vehicle)) as [routeData|];
    [|discriminate].
  destruct (match Route.startCoordinates routeData,
                  Route.endCoordinates routeData with
            | Some sc, Some ec => (sc, ec)
            | _, _ => (Vehicle.location vehicle,
                       LocationUtils.generateRandomCoordinate userLocation
                         (Num 3) u w)
            end) as [startPoint endPoint].
  injection Hinit as <-. cbn in *.
  unfold state_inv, in_route; cbn.
  repeat split; try assumption; try lia.
  exists 0%R. split; [reflexivity|lra].
Qed.

(** Along any run of ticks from a state that satisfies the invariants and
    whose next index lies on the route, every tick succeeds and the final
    state satisfies them again. *)
Lemma ticks_preserve_invariants
    (s : R) (nows : list timestamp) (route : list coordinate) (v : Sim.t) :
  (0 <= s)%R ->
  (2 <= List.length route)%nat ->
  state_inv route v ->
  in_route (Z.of_nat (List.length route))
           (Sim.currentRouteIndex v + Sim.direction v) ->
  exists v',
    ticks (Num s) nows v = Ok v' /\
    state_inv route v' /\
    in_route (Z.of_nat (List.length route))
             (Sim.currentRouteIndex v' + Sim.direction v').
Proof.
  intros Hs Hlen. revert v.
  induction nows as [|now nows IH]; intros v Hinv Hnext.
  - exists v. split; [reflexivity|]. split; assumption.
  - pose proof Hinv as (_ & _ & (p & Hp & _) & _).
    destruct (@tick_step_spec s now route v p Hs Hlen Hinv Hp)
      as (v1 & Ht & Hinv1 & _ & _ & Hnext1).
    cbn. rewrite Ht. cbn. apply IH; [exact Hinv1|]. now apply Hnext1.
Qed.

End ServerInvariants.

Section ServerScenario.

Import Server LocationUtils.
Local Open Scope Z_scope.

Lemma lookup_Some_in_range {A : Type} (l : list A) (i : Z) (a : A) :
  lookup l i = Some a -> 0 <= i < Z.of_nat (List.length l).
Proof.
  intros H.
  destruct (Z_lt_dec i 0);
    [rewrite lookup_out_of_range in H by lia; discriminate|].
  destruct (Z_lt_dec i (Z.of_nat (List.length l))); [lia|].
  rewrite lookup_out_of_range in H by lia. discriminate.
Qed.

(** The tick between two way points: progress grows, the position is
    interpolated. *)
Lemma tick_interpolates
    (s p : R) (now : timestamp) (route : list coordinate) (v : Sim.t)
    (cur nxt : coordinate) :
  Sim.fixedRoute v = Some route ->
  (1 < List.length route)%nat ->
  lookup route (Sim.currentRouteIndex v) = Some cur ->
  lookup route (Sim.currentRouteIndex v + Sim.direction v) = Some nxt ->
  Sim.progress v = Num p ->
  (p + s < 1)%R ->
  tickVehicleWith (Num s) now v =
  Ok (Sim.moved v (Sim.currentRouteIndex v) (Sim.direction v) (Num (p + s))
        {| latitude :=
             (latitude cur + (latitude nxt - latitude cur) * Num (p + s))%js;
           longitude :=
             (longitude cur + (longitude nxt - longitude cur) * Num (p + s))%js |}
        (calculateBearing (Some cur) (Some nxt)) now).
Proof.
  intros Hroute Hlen Hcur Hnxt Hp Hlt.
  pose proof (lookup_Some_in_range _ _ Hnxt) as Hnext.
  unfold tickVehicleWith. rewrite Hroute, Hcur, Hnxt, Hp.
  destruct (1 <? Z.of_nat (List.length route)) eqn:E1; zbool; [|lia].
  destruct ((0 <=? Sim.currentRouteIndex v + Sim.direction v) &&
            (Sim.currentRouteIndex v + Sim.direction v <?
             Z.of_nat (List.length route)))%bool eqn:E2; zbool; [|lia].
  cbn [JS.add lift2 JS.geb].
  destruct (Rle_dec 1 (p + s)); [lra|reflexivity].
Qed.

(** The tick that reaches the next way point: progress is reset, the index
    advances, and the direction is reversed on an end of the route. *)
Lemma tick_arrives
    (s p : R) (now : timestamp) (route : list coordinate) (v : Sim.t)
    (nxt : coordinate) :
  Sim.fixedRoute v = Some route ->
  (1 < List.length route)%nat ->
  lookup route (Sim.currentRouteIndex v + Sim.direction v) = Some nxt ->
  Sim.progress v = Num p ->
  (1 <= p + s)%R ->
  let len := Z.of_nat (List.length route) in
  let next := Sim.currentRouteIndex v + Sim.direction v in
  let bearing :=
    calculateBearing (lookup route (Sim.currentRouteIndex v)) (Some nxt) in
  tickVehicleWith (Num s) now v =
  if ((next >=? len - 1) || (next <=? 0))%bool then
    if Sim.direction v * -1 =? -1
    then Ok (Sim.moved v (len - 1) (Sim.direction v * -1) (Num 0)
               (spread (lookup route (len - 1))) bearing now)
    else Ok (Sim.moved v 0 (Sim.direction v * -1) (Num 0)
               (spread (lookup route 0)) bearing now)
  else Ok (Sim.moved v next (Sim.direction v) (Num 0) (spread (Some nxt))
             bearing now).
Proof.
  intros Hroute Hlen Hnxt Hp Hge len next bearing.
  pose proof (lookup_Some_in_range _ _ Hnxt) as Hnext.
  unfold tickVehicleWith. rewrite Hroute, Hp. fold len. fold next.
  destruct (1 <? len) eqn:E1; zbool; [|lia].
  destruct ((0 <=? next) && (next <? len))%bool eqn:E2; zbool; [|lia].
  cbn [JS.add lift2 JS.geb].
  destruct (Rle_dec 1 (p + s)); [|lra].
  fold next in Hnxt. rewrite Hnxt.
  destruct ((next >=? len - 1) || (next <=? 0))%bool;
    [|cbv beta iota zeta; rewrite Hnxt; reflexivity].
  destruct (Sim.direction v * -1 =? -1); reflexivity.
Qed.

Lemma mk_coord_eq (a b c d : R) :
  a = c -> b = d -> {| latitude := Num a; longitude := Num b |} = coord c d.
Proof. intros -> ->. reflexivity. Qed.

(** The body of the tick run with a progress step of 0.5 in place of the
    0.01 the code fixes, on the route (0,0), (0,1), (1,1) from index 0 with
    direction +1 and progress 0: the first tick gives progress 0.5,
    location (0, 0.5) and heading bearing((0,0),(0,1)) = 90 degrees; the
    second resets progress to 0, moves the index to 1 and puts the vehicle
    exactly on (0,1); the third gives progress 0.5, location (0.5, 1) and
    heading bearing((0,1),(1,1)); the fourth moves the index to 2, flips
    the direction to -1 and puts the vehicle on (1,1). *)
Lemma tick_body_at_step_one_half
    (b : Vehicle.t) (i : Sim.info) (o : coordinate) (n1 n2 n3 n4 : timestamp) :
  exists v1 v2 v3 v4 : Sim.t,
    tickVehicleWith (Num 0.5) n1 (scenario b i o) = Ok v1 /\
    Sim.progress v1 = Num 0.5 /\
    Vehicle.location (Sim.base v1) = coord 0 0.5 /\
    Vehicle.heading (Sim.base v1) =
      calculateBearing (Some (coord 0 0)) (Some (coord 0 1)) /\
    Vehicle.heading (Sim.base v1) = Num 90 /\
    tickVehicleWith (Num 0.5) n2 v1 = Ok v2 /\
    Sim.progress v2 = Num 0 /\
    Sim.currentRouteIndex v2 = 1 /\
    Vehicle.location (Sim.base v2) = coord 0 1 /\
    tickVehicleWith (Num 0.5) n3 v2 = Ok v3 /\
    Sim.progress v3 = Num 0.5 /\
    Vehicle.location (Sim.base v3) = coord 0.5 1 /\
    Vehicle.heading (Sim.base v3) =
      calculateBearing (Some (coord 0 1)) (Some (coord 1 1)) /\
    tickVehicleWith (Num 0.5) n4 v3 = Ok v4 /\
    Sim.currentRouteIndex v4 = 2 /\
    Sim.direction v4 = -1 /\
    Vehicle.location (Sim.base v4) = coord 1 1.
Proof.
  set (route := [coord 0 0; coord 0 1; coord 1 1]).
  set (v0 := scenario b i o).
  assert (H1 := @tick_interpolates 0.5 0 n1 route v0 (coord 0 0) (coord 0 1)
                  eq_refl ltac:(unfold route; cbn; lia) eq_refl eq_refl eq_refl
                  ltac:(lra)).
  set (v1 := Sim.moved v0 _ _ _ _ _ _) in H1.
  assert (H2 := @tick_arrives 0.5 (0 + 0.5) n2 route v1 (coord 0 1)
                  eq_refl ltac:(unfold route; cbn; lia) eq_refl eq_refl ltac:(lra)).
  cbv zeta in H2. cbn in H2.
  set (v2 := Sim.moved v1 _ _ _ _ _ _) in H2.
  assert (H3 := @tick_interpolates 0.5 0 n3 route v2 (coord 0 1) (coord 1 1)
                  eq_refl ltac:(unfold route; cbn; lia) eq_refl eq_refl eq_refl
                  ltac:(lra)).
  set (v3 := Sim.moved v2 _ _ _ _ _ _) in H3.
  assert (H4 := @tick_arrives 0.5 (0 + 0.5) n4 route v3 (coord 1 1)
                  eq_refl ltac:(unfold route; cbn; lia) eq_refl eq_refl ltac:(lra)).
  cbv zeta in H4. cbn in H4.
  set (v4 := Sim.moved v3 _ _ _ _ _ _) in H4.
  exists v1, v2, v3, v4.
  repeat match goal with |- _ /\ _ => split end;
    try assumption; try reflexivity.
  - cbn. f_equal. lra.
  - cbn. apply mk_coord_eq; lra.
  - cbn -[calculateBearing]. rewrite calculateBearing_real.
    f_equal. apply bearing_equator. lra.
  - cbn. f_equal. lra.
  - cbn. apply mk_coord_eq; lra.
Qed.

End ServerScenario.

(* ================================================================== *)
(** * Invalid route data at tick time *)
(* ================================================================== *)

Section InvalidRoute.

Local Open Scope Z_scope.

Lemma mapM_app_cons {A B : Type} (f : A -> outcome B) (l1 l2 : list A)
    (a : A) (b : B) :
  f a = Ok b ->
  mapM f (l1 ++ a :: l2) =
  bind (mapM f l1) (fun r1 =>
  bind (mapM f l2) (fun r2 => Ok (r1 ++ b :: r2))).
Proof.
  intros Hab. induction l1 as [|x l1 IH]; cbn.
  - rewrite Hab. cbn. destruct (mapM f l2); reflexivity.
  - destruct (f x) as [y|]; cbn; [|reflexivity].
    rewrite IH. destruct (mapM f l1) as [r1|]; cbn; [|reflexivity].
    destruct (mapM f l2); reflexivity.
Qed.

Lemma server_tick_invalid (s : number) (now : timestamp) (v : Sim.t) :
  invalid_route v -> Server.tickVehicleWith s now v = Ok v.
Proof.
  unfold invalid_route, short_route, next_out_of_route, in_route,
    Server.tickVehicleWith.
  destruct (Sim.fixedRoute v) as [route|]; [|reflexivity].
  intros [Hshort|[Hlen Hout]].
  - destruct (1 <? Z.of_nat (List.length route)) eqn:E; zbool; [lia|reflexivity].
  - destruct (1 <? Z.of_nat (List.length route)) eqn:E; zbool; [|reflexivity].
    destruct ((0 <=? Sim.currentRouteIndex v + Sim.direction v) &&
              (Sim.currentRouteIndex v + Sim.direction v <?
               Z.of_nat (List.length route)))%bool eqn:E2; zbool;
      [lia|reflexivity].
Qed.

Lemma client_tick_short (s : number) (now : timestamp) (v : Sim.t) :
  short_route v -> VehicleService.tickVehicleWith s now v = Ok v.
Proof.
  unfold short_route, VehicleService.tickVehicleWith.
  destruct (Sim.fixedRoute v) as [route|]; [|reflexivity].
  intros Hshort.
  destruct (1 <? Z.of_nat (List.length route)) eqn:E; zbool; [lia|reflexivity].
Qed.

Lemma client_tick_out_of_route (s : number) (now : timestamp) (v : Sim.t) :
  next_out_of_route v ->
  VehicleService.tickVehicleWith s now v = Ok (repaired v).
Proof.
  unfold next_out_of_route, in_route, VehicleService.tickVehicleWith, repaired.
  destruct (Sim.fixedRoute v) as [route|]; [|contradiction].
  intros [Hlen Hout].
  destruct (1 <? Z.of_nat (List.length route)) eqn:E; zbool; [|lia].
  destruct ((0 <=? Sim.currentRouteIndex v + Sim.direction v) &&
            (Sim.currentRouteIndex v + Sim.direction v <?
             Z.of_nat (List.length route)))%bool eqn:E2; zbool;
    [lia|reflexivity].
Qed.

(** C6, counterexample. In the client service a vehicle on the first point
    of a two-point route and heading backwards (next index -1) does not
    come out of the tick unchanged: its direction is reversed. *)
Lemma client_tick_changes_invalid_vehicle :
  invalid_route VehicleService.backwards_at_start /\
  VehicleService.tickVehicle "t"%string VehicleService.backwards_at_start =
    Ok (repaired VehicleService.backwards_at_start) /\
  Sim.direction (repaired VehicleService.backwards_at_start) = 1 /\
  VehicleService.tickVehicle "t"%string VehicleService.backwards_at_start <>
    Ok VehicleService.backwards_at_start.
Proof.
  assert (Hout : next_out_of_route VehicleService.backwards_at_start).
  { unfold next_out_of_route, in_route; cbn. split; lia. }
  assert (Ht := @client_tick_out_of_route (Num 0.01) "t"%string _ Hout).
  fold VehicleService.tickVehicle in Ht.
  split; [right; exact Hout|]. split; [exact Ht|]. split; [reflexivity|].
  rewrite Ht. intros E. injection E as E. discriminate E.
Qed.

(** C6, amended. At tick time a vehicle with invalid route data never makes
    the tick throw.  The server returns it unchanged.  The client service
    returns it unchanged when it has no route of at least two points, and
    otherwise (next index outside the route) returns it repaired: direction
    reversed, index put on an end of the route, progress reset, location,
    heading and time stamp untouched.  In both loops the other vehicles are
    updated exactly as they would be without it. *)
Theorem invalid_route_never_throws
    (s : number) (now : timestamp) (v : Sim.t) (before after : list Sim.t) :
  invalid_route v ->
  Server.tickVehicleWith s now v = Ok v /\
  (exists v',
     VehicleService.tickVehicleWith s now v = Ok v' /\
     Sim.base v' = Sim.base v /\
     Sim.fixedRoute v' = Sim.fixedRoute v /\
     (short_route v -> v' = v) /\
     (next_out_of_route v -> v' = repaired v) /\
     mapM (VehicleService.tickVehicleWith s now) (before ++ v :: after) =
     bind (mapM (VehicleService.tickVehicleWith s now) before) (fun r1 =>
     bind (mapM (VehicleService.tickVehicleWith s now) after) (fun r2 =>
     Ok (r1 ++ v' :: r2)))) /\
  mapM (Server.tickVehicleWith s now) (before ++ v :: after) =
  bind (mapM (Server.tickVehicleWith s now) before) (fun r1 =>
  bind (mapM (Server.tickVehicleWith s now) after) (fun r2 =>
  Ok (r1 ++ v :: r2))).
Proof.
  intros Hinv.
  pose proof (@server_tick_invalid s now v Hinv) as Hsrv.
  split; [exact Hsrv|]. split; [|now apply mapM_app_cons].
  destruct Hinv as [Hshort|Hout].
  - exists v. pose proof (@client_tick_short s now v Hshort) as Hc.
    repeat split; try assumption; try reflexivity.
    + intros Hout. exfalso. unfold short_route, next_out_of_route in *.
      destruct (Sim.fixedRoute v); [lia|assumption].
    + now apply mapM_app_cons.
  - exists (repaired v).
    pose proof (@client_tick_out_of_route s now v Hout) as Hc.
    repeat split; try assumption; try reflexivity.
    + intros Hshort. exfalso. unfold short_route, next_out_of_route in *.
      destruct (Sim.fixedRoute v); [lia|assumption].
    + now apply mapM_app_cons.
Qed.

Lemma invalid_route_never_throws_witness :
  Server.tickVehicleWith (Num 0.01) "t"%string VehicleService.backwards_at_start =
    Ok VehicleService.backwards_at_start.
Proof.
  apply (@invalid_route_never_throws (Num 0.01) "t"%string
           VehicleService.backwards_at_start [] []).
  right. unfold next_out_of_route, in_route; cbn. split; lia.
Defined.

End InvalidRoute.

(* ================================================================== *)
(** * The client service's bidirectional route *)
(* ================================================================== *)

Section Bidirectional.

Import VehicleService.

Lemma nth_error_tl {A : Type} (l : list A) (i : nat) :
  nth_error (tl l) i = nth_error l (S i).
Proof. destruct l; [destruct i|]; reflexivity. Qed.

Lemma length_tl {A : Type} (l : list A) :
  List.length (tl l) = (List.length l - 1)%nat.
Proof. destruct l; cbn; lia. Qed.

Lemma nth_error_rev_at {A : Type} (l : list A) (i : nat) :
  (i < List.length l)%nat ->
  nth_error (rev l) i = nth_error l (List.length l - 1 - i).
Proof.
  intros Hi.
  destruct (nth_error l (List.length l - 1 - i)) as [a|] eqn:E.
  - rewrite (nth_error_nth' (rev l) a) by (rewrite length_rev; lia).
    rewrite rev_nth by lia.
    replace (List.length l - S i)%nat with (List.length l - 1 - i)%nat by lia.
    f_equal. now apply nth_error_nth.
  - apply nth_error_None in E. lia.
Qed.

Lemma bidirectional_length (coordinates : list coordinate) :
  List.length (bidirectional coordinates) =
  (2 * List.length coordinates - 1)%nat.
Proof.
  unfold bidirectional. rewrite length_app, length_tl, length_rev. lia.
Qed.

Lemma bidirectional_forward (coordinates : list coordinate) (i : nat) :
  (i < List.length coordinates)%nat ->
  nth_error (bidirectional coordinates) i = nth_error coordinates i.
Proof. intros Hi. unfold bidirectional. now rewrite nth_error_app1. Qed.

Lemma bidirectional_backward (coordinates : list coordinate) (i : nat) :
  (1 <= i <= List.length coordinates - 1)%nat ->
  nth_error (bidirectional coordinates) (List.length coordinates - 1 + i) =
  nth_error coordinates (List.length coordinates - 1 - i).
Proof.
  intros Hi. unfold bidirectional.
  rewrite nth_error_app2 by lia.
  replace (List.length coordinates - 1 + i - List.length coordinates)%nat
    with (i - 1)%nat by lia.
  rewrite nth_error_tl.
  replace (S (i - 1)) with i by lia.
  apply nth_error_rev_at. lia.
Qed.

Lemma bidirectional_ends (coordinates : list coordinate) :
  (1 <= List.length coordinates)%nat ->
  exists start,
    nth_error coordinates 0 = Some start /\
    nth_error (bidirectional coordinates) 0 = Some start /\
    nth_error (bidirectional coordinates) (2 * List.length coordinates - 2) =
      Some start.
Proof.
  intros Hn.
  destruct (nth_error coordinates 0) as [start|] eqn:E0;
    [|apply nth_error_None in E0; lia].
  exists start. split; [reflexivity|].
  split; [rewrite bidirectional_forward by lia; exact E0|].
  destruct (Nat.eq_dec (List.length coordinates) 1) as [E1|E1].
  - rewrite E1. cbn [Nat.mul Nat.add Nat.sub].
    rewrite bidirectional_forward by lia. exact E0.
  - replace (2 * List.length coordinates - 2)%nat
      with (List.length coordinates - 1 + (List.length coordinates - 1))%nat
      by lia.
    rewrite bidirectional_backward by lia.
    rewrite Nat.sub_diag. exact E0.
Qed.

(** C9. When the route lookup succeeds with a coordinate list of length
    [n >= 1], the client service gives the vehicle a [fixedRoute] made of
    the coordinates followed by the reversed coordinates without their
    first element: it has length [2n - 1], it starts and ends on the
    original start coordinate, and its element [n - 1 + i] is
    [coordinates[n - 1 - i]] for every [1 <= i <= n - 1]. *)
Theorem fixedRoute_is_bidirectional
    (vehicle : Vehicle.t) (routeInfo : MapService.routeInfo)
    (r : MapService.routeT) (coords : list coordinate) (n : nat) :
  MapService.route routeInfo = Some r ->
  MapService.coordinates r = Some coords ->
  List.length coords = n ->
  (1 <= n)%nat ->
  exists fixedRoute start,
    Sim.fixedRoute (initVehicle (Ok routeInfo) vehicle) = Some fixedRoute /\
    fixedRoute = coords ++ tl (rev coords) /\
    List.length fixedRoute = (2 * n - 1)%nat /\
    nth_error coords 0 = Some start /\
    nth_error fixedRoute 0 = Some start /\
    nth_error fixedRoute (2 * n - 2) = Some start /\
    forall i, (1 <= i <= n - 1)%nat ->
      nth_error fixedRoute (n - 1 + i) = nth_error coords (n - 1 - i) /\
      nth_error coords (n - 1 - i) <> None.
Proof.
  intros Hr Hc Hlen Hn. subst n.
  destruct (@bidirectional_ends coords Hn)
    as (start & H0 & Hfirst & Hlast).
  exists (bidirectional coords), start.
  split; [unfold initVehicle; cbn; rewrite Hr, Hc; reflexivity|].
  split; [reflexivity|].
  split; [apply bidirectional_length|].
  split; [exact H0|]. split; [exact Hfirst|]. split; [exact Hlast|].
  intros i Hi. split.
  - now apply bidirectional_backward.
  - intros E. apply nth_error_None in E. lia.
Qed.

Lemma fixedRoute_is_bidirectional_witness :
  exists fixedRoute start,
    Sim.fixedRoute
      (initVehicle
         (Ok (MapService.mkInfo (Some "vehicle-0"%string)
                (Some (MapService.mkRoute
                         (Some [coord 0 0; coord 0 1; coord 1 1])
                         (Num 0) (Num 0) "Bus #1" "route-1" 8
                         (Some "a"%string) (Some "b"%string)
                         (Some "c"%string)))
                None))
         bus1) = Some fixedRoute /\
    fixedRoute = [coord 0 0; coord 0 1; coord 1 1; coord 0 1; coord 0 0] /\
    nth_error fixedRoute 4 = Some start.
Proof.
  destruct (@fixedRoute_is_bidirectional bus1
              (MapService.mkInfo (Some "vehicle-0"%string)
                 (Some (MapService.mkRoute
                          (Some [coord 0 0; coord 0 1; coord 1 1])
                          (Num 0) (Num 0) "Bus #1" "route-1" 8
                          (Some "a"%string) (Some "b"%string)
                          (Some "c"%string)))
                 None)
              _ _ 3%nat eq_refl eq_refl eq_refl ltac:(lia))
    as (fixedRoute & start & Hfr & Heq & _ & _ & _ & Hlast & _).
  exists fixedRoute, start.
  split; [exact Hfr|]. split; [exact Heq|]. exact Hlast.
Defined.

End Bidirectional.

(* ================================================================== *)
(** * The server's vehicle generator *)
(* ================================================================== *)

Section GenerateVehicles.

Import Server.

Lemma mapM_total {A B : Type} (f : A -> outcome B) (g : A -> B) (l : list A) :
  (forall a, In a l -> f a = Ok (g a)) -> mapM f l = Ok (map g l).
Proof.
  induction l as [|a l IH]; intros H; cbn; [reflexivity|].
  rewrite (H a) by now left. cbn.
  rewrite IH by (intros x Hx; apply H; now right). reflexivity.
Qed.

Lemma floor_of_scaled_draw (r : R) (k : Z) :
  (0 <= r < 1)%R -> (0 < k)%Z ->
  (0 <= Int_part (r * IZR k) < k)%Z.
Proof.
  intros Hr Hk. apply IZR_lt in Hk.
  destruct (base_Int_part (r * IZR k)) as [Hlo Hhi].
  split.
  - apply Z.lt_succ_r. apply lt_IZR. rewrite succ_IZR. nra.
  - apply lt_IZR. nra.
Qed.

(** C10. For a non-negative integer [count] and random draws in [0,1),
    [generateVehicles] returns exactly [min(count, 5)] vehicles, and the
    vehicle at index [i] has id ["vehicle-i"], name ["Bus i+1"], type
    ["bus"], the [routeId] of the [i]-th predefined route and an integer
    speed in [20, 60). *)
Theorem generateVehicles_capped
    (centerLocation : option coordinate) (count : Z)
    (random : nat -> number) (clock : nat -> timestamp) :
  (0 <= count)%Z ->
  (forall k, exists r : R, random k = Num r /\ (0 <= r < 1)%R) ->
  exists vehicles,
    generateVehicles centerLocation count random clock = Ok vehicles /\
    Z.of_nat (List.length vehicles) = Z.min count 5 /\
    forall i, (i < List.length vehicles)%nat ->
      exists v routeData (speed : Z),
        nth_error vehicles i = Some v /\
        nth_error BUS_ROUTES i = Some routeData /\
        Vehicle.id v = ("vehicle-" ++ decimal i)%string /\
        Vehicle.name v = ("Bus " ++ decimal (i + 1))%string /\
        Vehicle.type v = "bus"%string /\
        Vehicle.routeId v = Route.id routeData /\
        Vehicle.speed v = Num (IZR speed) /\
        (20 <= speed < 60)%Z.
Proof.
  intros Hcount Hrand.
  set (center := match centerLocation with Some c => c | None => DEFAULT_REGION end).
  set (m := Z.to_nat (Z.min count 5)).
  assert (Hm : (m <= 5)%nat) by (unfold m; lia).
  exists (map (generated center random clock) (seq 0 m)).
  split; [|split].
  - unfold generateVehicles. fold center.
    change (Z.of_nat (List.length BUS_ROUTES)) with 5%Z. fold m.
    apply mapM_total. intros i Hi. apply in_seq in Hi.
    unfold generated.
    destruct (nth_error BUS_ROUTES i) as [routeData|] eqn:E.
    + now rewrite (nth_error_nth _ _ _ E).
    + apply nth_error_None in E. cbn in E. lia.
  - rewrite length_map, length_seq. unfold m. lia.
  - rewrite length_map, length_seq. intros i Hi.
    destruct (nth_error BUS_ROUTES i) as [routeData|] eqn:E;
      [|apply nth_error_None in E; cbn in E; lia].
    destruct (Hrand (4 * i + 2)%nat) as (r & Hr & Hr01).
    exists (generated center random clock i), routeData,
           (20 + Int_part (r * 40))%Z.
    split.
    { rewrite nth_error_map, nth_error_seq.
      destruct (Nat.ltb_spec i m); [reflexivity|lia]. }
    split; [reflexivity|].
    unfold generated. rewrite (nth_error_nth _ _ _ E).
    split; [reflexivity|]. split; [reflexivity|]. split; [reflexivity|].
    split; [reflexivity|].
    split.
    + unfold generateVehicle. cbn [Vehicle.speed]. rewrite Hr.
      unfold Math_floor, JS.mul, JS.add; cbn [lift1 lift2].
      f_equal. rewrite plus_IZR. reflexivity.
    + pose proof (@floor_of_scaled_draw r 40 Hr01 ltac:(lia)). lia.
Qed.

Lemma generateVehicles_capped_witness :
  exists vehicles,
    generateVehicles None 7 (fun _ => Num 0.5) (fun _ => "t"%string) =
      Ok vehicles /\
    Z.of_nat (List.length vehicles) = 5%Z.
Proof.
  destruct (@generateVehicles_capped None 7 (fun _ => Num 0.5)
              (fun _ => "t"%string))
    as (vehicles & Hgen & Hlen & _).
  - lia.
  - intros _. exists 0.5%R. split; [reflexivity|lra].
  - exists vehicles. split; [exact Hgen|exact Hlen].
Defined.

End GenerateVehicles.

(* ================================================================== *)
(** * The mock socket's simulator: progress is never initialised *)
(* ================================================================== *)

Section SocketUtilsNaN.

Import SocketUtils.
Local Open Scope Z_scope.

Lemma lift2_NaN_r (f : R -> R -> R) (a : number) : lift2 f a NaN = NaN.
Proof. destruct a; reflexivity. Qed.

Lemma tick_stuck (now : timestamp) (route : list coordinate) (v : simVehicle) :
  (2 <= List.length route)%nat ->
  stuck route v ->
  exists v',
    tickVehicle now v = Ok v' /\
    stuck route v' /\
    progress v' = Some NaN /\
    Vehicle.location (base v') = nowhere.
Proof.
  intros Hlen (Hroute & Hidx & Hp).
  destruct (@lookup_in_range _ route 0) as [cur Hcur]; [lia|].
  destruct (@lookup_in_range _ route 1) as [nxt Hnxt]; [lia|].
  unfold tickVehicle. rewrite Hroute, Hidx, Hp.
  destruct (1 <? Z.of_nat (List.length route)) eqn:E1; zbool; [|lia].
  destruct (0 >=? Z.of_nat (List.length route) - 1) eqn:E2; zbool; [lia|].
  change (0 + 1) with 1. rewrite Hcur, Hnxt.
  cbn [JS.add lift2 JS.geb].
  eexists. split; [reflexivity|]. cbn.
  unfold JS.mul, JS.add. rewrite !lift2_NaN_r.
  repeat split; try assumption; reflexivity.
Qed.

Lemma ticks_stuck (nows : list timestamp) (route : list coordinate)
    (v : simVehicle) :
  (2 <= List.length route)%nat ->
  stuck route v ->
  nows <> [] ->
  exists v',
    ticks nows v = Ok v' /\
    stuck route v' /\
    progress v' = Some NaN /\
    Vehicle.location (base v') = nowhere.
Proof.
  intros Hlen. revert v.
  induction nows as [|now nows IH]; intros v Hstuck Hne; [contradiction|].
  destruct (@tick_stuck now route v Hlen Hstuck) as (v1 & Ht & Hs1 & Hp1 & Hl1).
  cbn. rewrite Ht. cbn.
  destruct nows as [|now' nows'].
  - exists v1. split; [reflexivity|]. split; [assumption|]. split; assumption.
  - apply IH; [assumption|discriminate].
Qed.

Lemma socket_init_at_start
    (resolved : outcome MapService.routeInfo) (vehicle : Vehicle.t) :
  progress (initVehicle resolved vehicle) = None /\
  currentRouteIndex (initVehicle resolved vehicle) = 0%Z.
Proof.
  destruct resolved as [routeInfo|]; [|split; reflexivity].
  unfold initVehicle.
  destruct (MapService.route routeInfo) as [r|]; [|split; reflexivity].
  destruct (MapService.coordinates r); split; reflexivity.
Qed.

(** C8. [startVehicleSimulation] of the socket utilities gives no vehicle a
    [progress].  For a vehicle with a [fixedRoute] of at least two points,
    after any positive number of ticks: progress is [NaN] (the first
    [progress += 0.0005] already yields it and [NaN >= 1] never resets it),
    the index has not moved, the location has [NaN] latitude and longitude,
    and so equals no way point of the route. *)
Theorem progress_never_initialised
    (resolved : outcome MapService.routeInfo) (vehicle : Vehicle.t)
    (route : list coordinate) (nows : list timestamp) :
  progress (initVehicle resolved vehicle) = None /\
  (fixedRoute (initVehicle resolved vehicle) = Some route ->
   (2 <= List.length route)%nat ->
   nows <> [] ->
   exists v,
     ticks nows (initVehicle resolved vehicle) = Ok v /\
     progress v = Some NaN /\
     JS.geb (JS.toNumber (progress v)) (Num 1) = false /\
     currentRouteIndex v = 0 /\
     latitude (Vehicle.location (base v)) = NaN /\
     longitude (Vehicle.location (base v)) = NaN /\
     forall w, In w route -> same_position (Vehicle.location (base v)) w = false).
Proof.
  split; [apply socket_init_at_start|].
  intros Hroute Hlen Hne.
  assert (Hstuck : stuck route (initVehicle resolved vehicle)).
  { split; [exact Hroute|].
    destruct (socket_init_at_start resolved vehicle) as [Hp Hi].
    split; [exact Hi|]. rewrite Hp. reflexivity. }
  destruct (@ticks_stuck nows route _ Hlen Hstuck Hne)
    as (v & Ht & (_ & Hidx & _) & Hp & Hloc).
  exists v. rewrite Hloc, Hp.
  repeat split; try assumption; try reflexivity.
Qed.

Lemma progress_never_initialised_witness :
  exists v,
    ticks ["t1"; "t2"; "t3"]%string
      (initVehicle
         (Ok (MapService.mkInfo (Some "vehicle-0"%string)
                (Some (MapService.mkRoute
                         (Some [coord 0 0; coord 0 1; coord 1 1])
                         (Num 0) (Num 0) "Bus #1" "route-1" 8
                         (Some "a"%string) (Some "b"%string)
                         (Some "c"%string)))
                None))
         bus1) = Ok v /\
    Vehicle.location (base v) = {| latitude := NaN; longitude := NaN |}.
Proof.
  destruct (@progress_never_initialised
              (Ok (MapService.mkInfo (Some "vehicle-0"%string)
                     (Some (MapService.mkRoute
                              (Some [coord 0 0; coord 0 1; coord 1 1])
                              (Num 0) (Num 0) "Bus #1" "route-1" 8
                              (Some "a"%string) (Some "b"%string)
                              (Some "c"%string)))
                     None))
              bus1 [coord 0 0; coord 0 1; coord 1 1]
              ["t1"; "t2"; "t3"]%string)
    as (_ & H).
  destruct H as (v & Ht & _ & _ & _ & Hlat & Hlng & _).
  - reflexivity.
  - cbn. lia.
  - discriminate.
  - exists v. split; [exact Ht|].
    destruct (Vehicle.location (base v)) as [la lo]. cbn in Hlat, Hlng.
    now subst.
Defined.

End SocketUtilsNaN.

(* ================================================================== *)
(** * The life cycle *)
(* ================================================================== *)

Section LifecycleFacts.

Variable V : Type.
Variable tick : timestamp -> V -> outcome V.
Variable written : V -> V.

Local Abbreviation runV := (run tick written).
Local Abbreviation fireV := (fire tick written).
Local Abbreviation tickAllV := (tickAll tick written).
Local Abbreviation inertV := (inert tick written).

Lemma tickAll_snd (now : timestamp) (l : list V) :
  snd (tickAllV now l) = mapM (tick now) l.
Proof.
  induction l as [|v l IH]; cbn; [reflexivity|].
  destruct (tick now v) as [v'|]; [|reflexivity].
  destruct (tickAllV now l) as [olds news]. cbn in *. now rewrite IH.
Qed.

Lemma tickAll_inert (now : timestamp) (l : list V) (i : nat) (v : V) :
  inertV v ->
  nth_error l i = Some v ->
  nth_error (fst (tickAllV now l)) i = Some v /\
  forall l', snd (tickAllV now l) = Ok l' -> nth_error l' i = Some v.
Proof.
  intros [Htick Hwr]. revert i.
  induction l as [|x l IH]; intros i Hi; [destruct i; discriminate|].
  cbn. destruct i as [|i]; cbn in Hi.
  - injection Hi as ->. rewrite Htick.
    destruct (tickAllV now l) as [olds news]. cbn. rewrite Hwr.
    split; [reflexivity|].
    intros l' Hl'. destruct news as [vs|]; cbn in Hl'; [|discriminate].
    injection Hl' as <-. reflexivity.
  - destruct (tick now x) as [x'|]; cbn; [|split; [exact Hi|discriminate]].
    destruct (IH i Hi) as [Hold Hnew].
    destruct (tickAllV now l) as [olds news]. cbn in *.
    split; [exact Hold|].
    intros l' Hl'. destruct news as [vs|]; cbn in Hl'; [|discriminate].
    injection Hl' as <-. cbn. now apply Hnew.
Qed.

(** While only intervals fire, an inert vehicle keeps its place in
    [simulatedVehicles] and shows up, unchanged, in every collection
    handed to an update callback. *)
Lemma fires_keep_inert (es : list (event V)) (st : state V) (i : nat) (v : V) :
  inertV v ->
  Forall (@is_fire V) es ->
  nth_error (simulatedVehicles st) i = Some v ->
  nth_error (simulatedVehicles (runV st es)) i = Some v /\
  exists news,
    emitted (runV st es) = emitted st ++ news /\
    Forall (fun entry => nth_error (snd entry) i = Some v) news.
Proof.
  intros Hin Hes. revert st.
  induction Hes as [|e es He _ IH]; intros st Hi.
  - split; [exact Hi|]. exists []. split; [now rewrite app_nil_r|constructor].
  - destruct e as [| |h now|]; try contradiction. cbn [run fold_left step].
    assert (Hstep :
      nth_error (simulatedVehicles (fireV h now st)) i = Some v /\
      exists one, emitted (fireV h now st) = emitted st ++ one /\
                  Forall (fun entry => nth_error (snd entry) i = Some v) one).
    { unfold fire.
      destruct (find (fun iv => Nat.eqb (fst iv) h) (intervals st))
        as [[h' cb]|];
        [|split; [exact Hi|exists []; split; [now rewrite app_nil_r|constructor]]].
      destruct (@tickAll_inert now (simulatedVehicles st) i v Hin Hi)
        as [Hold Hnew].
      destruct (tickAllV now (simulatedVehicles st)) as [olds [vehicles|]];
        cbn in *.
      - specialize (Hnew vehicles eq_refl). split; [exact Hnew|].
        destruct cb as [cb|].
        + exists [(cb, vehicles)]. split; [reflexivity|].
          constructor; [exact Hnew|constructor].
        + exists []. split; [now rewrite app_nil_r|constructor].
      - split; [exact Hold|].
        exists []. split; [now rewrite app_nil_r|constructor]. }
    destruct Hstep as [Hi' (one & Hone & Fone)].
    destruct (IH (fireV h now st) Hi') as [Hfin (news & Hnews & Fnews)].
    split; [exact Hfin|].
    exists (one ++ news). split.
    + unfold run in Hnews. cbn [fold_left step] in Hnews |- *.
      rewrite Hnews, Hone. now rewrite app_assoc.
    + apply Forall_app. split; assumption.
Qed.

(** Starting while the previous simulation is running, with no other start
    in flight, replaces it: one timer and the new vehicles remain. *)
Lemma start_when_quiescent (st : state V) (vehicles : list V)
    (cb : option callback) :
  quiescent st ->
  let st' := runV st [Start (Ok vehicles) cb; Resume 0] in
  activeTimers st' = 1%nat /\
  intervals st' = [(nextHandle st, cb)] /\
  simulationInterval st' = Some (nextHandle st) /\
  simulatedVehicles st' = vehicles /\
  emitted st' = emitted st /\
  quiescent st'.
Proof.
  intros [Hpend Hiv]. destruct st as [sv si ivs nh pend em]. cbn in *. subst pend.
  unfold run, activeTimers, quiescent; cbn.
  unfold startVehicleSimulation, stopVehicleSimulation, resume; cbn.
  destruct si as [h|].
  - destruct Hiv as [cb0 ->]. cbn. rewrite Nat.eqb_refl. cbn.
    repeat split; try reflexivity. now exists cb.
  - subst ivs. cbn. repeat split; try reflexivity. now exists cb.
Qed.

(** C1, on the failing schedule. Two starts, the second issued while the
    first still awaits its route lookups: when both have resumed, two
    interval timers are live, the first one no longer held in
    [simulationInterval]; each run of the leaked timer hands the second
    start's vehicles to the first start's callback, and a later stop clears
    only the second timer. *)
Theorem overlapping_starts_leak_a_timer
    (first second : list V) (cb1 cb2 : callback) (now : timestamp) :
  let st := runV (initial V)
              [Start (Ok first) (Some cb1); Start (Ok second) (Some cb2);
               Resume 0; Resume 0] in
  activeTimers st = 2%nat /\
  intervals st = [(1%nat, Some cb1); (2%nat, Some cb2)] /\
  simulationInterval st = Some 2%nat /\
  simulatedVehicles st = second /\
  (forall ticked, mapM (tick now) second = Ok ticked ->
     emitted (runV st [Fire 1 now]) = [(cb1, ticked)]) /\
  intervals (runV st [Stop]) = [(1%nat, Some cb1)].
Proof.
  cbn. repeat split.
  intros ticked Ht. unfold run; cbn. unfold fire; cbn.
  rewrite <- tickAll_snd in Ht.
  destruct (tickAllV now second) as [olds news]. cbn in Ht. subst news.
  reflexivity.
Qed.

End LifecycleFacts.

(* ================================================================== *)
(** * Route lookups that fail *)
(* ================================================================== *)

Section FailedLookups.

Local Open Scope nat_scope.

Lemma findRoute_has_endpoints (routeId : string) :
  exists routeData sc ec,
    findRoute routeId = Some routeData /\
    Route.startCoordinates routeData = Some sc /\
    Route.endCoordinates routeData = Some ec.
Proof.
  unfold findRoute, BUS_ROUTES. cbn [find Route.id].
  repeat match goal with
  | |- context [String.eqb ?a ?b] => destruct (String.eqb a b)
  end; cbn; do 3 eexists; repeat split; reflexivity.
Qed.

(** A provider failure is absorbed by [generateVehicleRoute]: for a vehicle
    with a usable location under whose id the table reads nothing, the
    answer is the direct line between the end points of the vehicle's
    route. *)
Lemma generateVehicleRoute_falls_back
    (fixedRoutes : MapService.table) (vehicle : Vehicle.t)
    (userLocation : coordinate) (fetch : outcome (option Directions.t))
    (u v : number) :
  JS.truthy (latitude (Vehicle.location vehicle)) = true ->
  JS.truthy (longitude (Vehicle.location vehicle)) = true ->
  MapService.table_read fixedRoutes (Vehicle.id vehicle) =
    MapService.Undefined ->
  MapService.provider_failed fetch ->
  exists routeInfo fixedRoutes' routeData sc ec r,
    MapService.generateVehicleRoute fixedRoutes (Some vehicle)
      (Some userLocation) fetch u v = Ok (routeInfo, fixedRoutes') /\
    findRoute (Vehicle.routeId vehicle) = Some routeData /\
    Route.startCoordinates routeData = Some sc /\
    Route.endCoordinates routeData = Some ec /\
    MapService.route routeInfo = Some r /\
    MapService.coordinates r = Some [sc; ec].
Proof.
  intros Hlat Hlng Hget Hfail.
  destruct (findRoute_has_endpoints (Vehicle.routeId vehicle))
    as (routeData & sc & ec & Hfind & Hsc & Hec).
  unfold MapService.generateVehicleRoute.
  rewrite Hlat, Hlng, Hget, Hfind, Hsc, Hec. cbn [negb orb].
  assert (Hnone :
    match fetch with
    | Ok (Some d) =>
        if (0 <? List.length (Directions.coordinates d)) then Some d else None
    | _ => None
    end = None).
  { destruct fetch as [[d|]|]; try reflexivity.
    cbn in Hfail. rewrite Hfail. reflexivity. }
  rewrite Hnone.
  do 6 eexists. split; [reflexivity|].
  repeat split; try eassumption; reflexivity.
Qed.

Lemma client_initVehicles_nth
    (resolved : list (outcome MapService.routeInfo)) (vehicles : list Vehicle.t)
    (j : nat) (r : outcome MapService.routeInfo) (v : Vehicle.t) :
  nth_error resolved j = Some r ->
  nth_error vehicles j = Some v ->
  nth_error (VehicleService.initVehicles resolved vehicles) j =
    Some (VehicleService.initVehicle r v).
Proof.
  revert resolved j.
  induction vehicles as [|x vehicles IH]; intros resolved j Hr Hv;
    [destruct j; discriminate|].
  destruct resolved as [|y resolved]; [destruct j; discriminate|].
  destruct j as [|j]; cbn in *.
  - injection Hr as ->. injection Hv as ->. reflexivity.
  - now apply IH.
Qed.

Lemma client_initVehicles_length
    (resolved : list (outcome MapService.routeInfo)) (vehicles : list Vehicle.t) :
  List.length resolved = List.length vehicles ->
  List.length (VehicleService.initVehicles resolved vehicles) =
    List.length vehicles.
Proof.
  revert resolved.
  induction vehicles as [|x vehicles IH]; intros [|y resolved] H; cbn in *;
    try reflexivity; try discriminate.
  f_equal. apply IH. lia.
Qed.

Lemma socket_initVehicles_nth
    (resolved : list (outcome MapService.routeInfo)) (vehicles : list Vehicle.t)
    (j : nat) (r : outcome MapService.routeInfo) (v : Vehicle.t) :
  nth_error resolved j = Some r ->
  nth_error vehicles j = Some v ->
  nth_error (SocketUtils.initVehicles resolved vehicles) j =
    Some (SocketUtils.initVehicle r v).
Proof.
  revert resolved j.
  induction vehicles as [|x vehicles IH]; intros resolved j Hr Hv;
    [destruct j; discriminate|].
  destruct resolved as [|y resolved]; [destruct j; discriminate|].
  destruct j as [|j]; cbn in *.
  - injection Hr as ->. injection Hv as ->. reflexivity.
  - now apply IH.
Qed.

Lemma socket_initVehicles_length
    (resolved : list (outcome MapService.routeInfo)) (vehicles : list Vehicle.t) :
  List.length resolved = List.length vehicles ->
  List.length (SocketUtils.initVehicles resolved vehicles) =
    List.length vehicles.
Proof.
  revert resolved.
  induction vehicles as [|x vehicles IH]; intros [|y resolved] H; cbn in *;
    try reflexivity; try discriminate.
  f_equal. apply IH. lia.
Qed.

Lemma client_rejected_inert (vehicle : Vehicle.t) :
  inert VehicleService.tickVehicle VehicleService.written
        (VehicleService.initVehicle Throw vehicle).
Proof. split; [intros now|]; reflexivity. Qed.

Lemma socket_rejected_inert (vehicle : Vehicle.t) :
  inert SocketUtils.tickVehicle SocketUtils.written
        (SocketUtils.initVehicle Throw vehicle).
Proof. split; [intros now|]; reflexivity. Qed.

(** C5, counterexample. The provider fails ([fetchDirections] resolves to
    [null]) for the first bus: the lookup answers with the direct line of
    route 1, the client service turns it into a three-point there-and-back
    route, and the first tick already moves the vehicle away from its
    initial location: the vehicle is neither without a route nor
    stationary. *)
Lemma provider_failure_vehicle_moves :
  MapService.provider_failed (Ok None) /\
  exists routeInfo fixedRoutes v1,
    MapService.generateVehicleRoute [] (Some bus1) (Some DEFAULT_REGION)
      (Ok None) (Num 0) (Num 0) = Ok (routeInfo, fixedRoutes) /\
    Sim.fixedRoute (VehicleService.initVehicle (Ok routeInfo) bus1) =
      Some [coord 24.715722 46.672611; coord 24.711389 46.674444;
            coord 24.715722 46.672611] /\
    VehicleService.tickVehicle "t"%string
      (VehicleService.initVehicle (Ok routeInfo) bus1) = Ok v1 /\
    Vehicle.location (Sim.base v1) <> Vehicle.location bus1.
Proof.
  split; [exact I|].
  destruct (@generateVehicleRoute_falls_back [] bus1 DEFAULT_REGION (Ok None)
              (Num 0) (Num 0))
    as (routeInfo & fixedRoutes & routeData & sc & ec & r &
        Hgen & Hfind & Hsc & Hec & Hr & Hcoords).
  - cbn. destruct (Req_dec_T 24.7157 0); [lra|reflexivity].
  - cbn. destruct (Req_dec_T 46.6726 0); [lra|reflexivity].
  - reflexivity.
  - exact I.
  - cbn in Hfind. injection Hfind as <-. cbn in Hsc, Hec.
    injection Hsc as <-. injection Hec as <-.
    assert (Hfr : Sim.fixedRoute (VehicleService.initVehicle (Ok routeInfo) bus1) =
                  Some [coord 24.715722 46.672611; coord 24.711389 46.674444;
                        coord 24.715722 46.672611]).
    { cbn. rewrite Hr, Hcoords. reflexivity. }
    exists routeInfo, fixedRoutes. eexists.
    split; [exact Hgen|]. split; [exact Hfr|].
    unfold VehicleService.tickVehicle, VehicleService.tickVehicleWith.
    rewrite Hfr. cbn.
    destruct (Rle_dec 1 (0 + 0.01)); [lra|].
    split; [reflexivity|].
    cbn. intros E. injection E as E _. lra.
Qed.

End FailedLookups.

(* ================================================================== *)
(** * Further properties of the geodesy helpers *)
(* ================================================================== *)

Section GeodesyRanges.

Open Scope R_scope.
Import LocationUtils.

Lemma atan_nonneg (x : R) : 0 <= x -> 0 <= atan x.
Proof.
  intros [Hx | <-]; [|rewrite atan_0; lra].
  rewrite <- atan_0. left. now apply atan_increasing.
Qed.

Lemma atan_pos (x : R) : 0 < x -> 0 < atan x.
Proof. intros Hx. rewrite <- atan_0. now apply atan_increasing. Qed.

Lemma atan_nonpos (x : R) : x <= 0 -> atan x <= 0.
Proof.
  intros [Hx | ->]; [|rewrite atan_0; lra].
  rewrite <- atan_0. left. now apply atan_increasing.
Qed.

Lemma div_sign_nonpos (y x : R) : 0 <= y -> x < 0 -> y / x <= 0.
Proof.
  intros Hy Hx. unfold Rdiv.
  assert (Hi : / x < 0) by now apply Rinv_lt_0_compat.
  nra.
Qed.

Lemma div_sign_pos (y x : R) : y < 0 -> x < 0 -> 0 < y / x.
Proof.
  intros Hy Hx. unfold Rdiv.
  assert (Hi : / x < 0) by now apply Rinv_lt_0_compat.
  nra.
Qed.

Lemma div_sign_nonneg (y x : R) : 0 <= y -> 0 < x -> 0 <= y / x.
Proof.
  intros Hy Hx. unfold Rdiv.
  assert (Hi : 0 < / x) by now apply Rinv_0_lt_compat.
  nra.
Qed.

Lemma Ratan2_range (y x : R) : - PI < Ratan2 y x <= PI.
Proof.
  pose proof PI_RGT_0 as HPI. unfold Ratan2.
  destruct (Rlt_dec 0 x) as [Hx|Hx].
  - pose proof (atan_bound (y / x)). lra.
  - destruct (Rlt_dec x 0) as [Hx'|Hx'].
    + destruct (Rle_dec 0 y) as [Hy|Hy].
      * pose proof (atan_bound (y / x)).
        pose proof (atan_nonpos (div_sign_nonpos Hy Hx')). lra.
      * pose proof (atan_bound (y / x)).
        assert (Hq : 0 < y / x) by (apply div_sign_pos; lra).
        pose proof (atan_pos Hq). lra.
    + destruct (Rlt_dec 0 y); [lra|]. destruct (Rlt_dec y 0); lra.
Qed.

Lemma Ratan2_first_quadrant (y x : R) :
  0 <= y -> 0 <= x -> 0 <= Ratan2 y x <= PI / 2.
Proof.
  intros Hy Hx. pose proof PI_RGT_0 as HPI. unfold Ratan2.
  destruct (Rlt_dec 0 x) as [Hx'|Hx'].
  - pose proof (atan_bound (y / x)).
    pose proof (atan_nonneg (div_sign_nonneg Hy Hx')). lra.
  - destruct (Rlt_dec x 0); [lra|].
    destruct (Rlt_dec 0 y); [lra|]. destruct (Rlt_dec y 0); lra.
Qed.

Lemma normalize_range (r : R) :
  - PI < r <= PI -> 0 <= Rrem (r * 180 / PI + 360) 360 < 360.
Proof.
  intros [Hlo Hhi]. pose proof PI_RGT_0 as HPI.
  assert (Hd : -180 < r * 180 / PI <= 180).
  { split.
    - apply Rmult_lt_reg_r with PI; [lra|].
      replace (r * 180 / PI * PI) with (r * 180) by (field; lra). nra.
    - apply Rmult_le_reg_r with PI; [lra|].
      replace (r * 180 / PI * PI) with (r * 180) by (field; lra). nra. }
  destruct (Rle_dec 0 (r * 180 / PI)) as [Hpos|Hneg].
  - rewrite normalize_nonneg by lra. lra.
  - rewrite normalize_neg by lra. lra.
Qed.

(** X1. The bearing of two points with real coordinates is a number of degrees
    in [0, 360). *)
Theorem calculateBearing_in_range (lat1 lng1 lat2 lng2 : R) :
  exists b : R,
    calculateBearing (Some (coord lat1 lng1)) (Some (coord lat2 lng2)) = Num b /\
    0 <= b < 360.
Proof.
  rewrite calculateBearing_real. eexists. split; [reflexivity|].
  unfold bearingR. cbv zeta. apply normalize_range. apply Ratan2_range.
Qed.

(** X2. The bearing from a point to itself is 0, and so is the bearing when an
    end point is missing. *)
Theorem calculateBearing_degenerate (lat lng : R) (c : option coordinate) :
  calculateBearing (Some (coord lat lng)) (Some (coord lat lng)) = Num 0 /\
  calculateBearing None c = Num 0 /\
  calculateBearing c None = Num 0.
Proof.
  split; [|split; [reflexivity|destruct c; reflexivity]].
  rewrite calculateBearing_real. f_equal. unfold bearingR. cbv zeta.
  replace (lng * PI / 180 - lng * PI / 180) with 0 by ring.
  rewrite sin_0, cos_0.
  replace (cos (lat * PI / 180) * sin (lat * PI / 180) -
           sin (lat * PI / 180) * cos (lat * PI / 180) * 1) with 0 by ring.
  rewrite Rmult_0_l.
  unfold Ratan2. destruct (Rlt_dec 0 0); [lra|].
  replace (0 * 180 / PI) with 0 by (field; apply PI_neq0).
  rewrite normalize_nonneg; lra.
Qed.

Lemma cos_deg_nonneg (d : R) : -90 <= d <= 90 -> 0 <= cos (d * PI / 180).
Proof.
  intros [Hlo Hhi]. pose proof PI_RGT_0 as HPI.
  apply cos_ge_0.
  - apply Rmult_le_reg_r with 180; [lra|].
    replace (d * PI / 180 * 180) with (d * PI) by field. nra.
  - apply Rmult_le_reg_r with 180; [lra|].
    replace (d * PI / 180 * 180) with (d * PI) by field. nra.
Qed.

Lemma haversine_a_bounds (lat1 lng1 lat2 lng2 : R) :
  -90 <= lat1 <= 90 -> -90 <= lat2 <= 90 ->
  0 <= haversine_a lat1 lng1 lat2 lng2 <= 1.
Proof.
  intros H1 H2. unfold haversine_a. cbv zeta.
  pose proof (cos_deg_nonneg H1) as Hc1.
  pose proof (cos_deg_nonneg H2) as Hc2.
  set (p1 := lat1 * PI / 180) in *. set (p2 := lat2 * PI / 180) in *.
  set (hl := (lat2 - lat1) * PI / 180 / 2).
  set (hg := (lng2 - lng1) * PI / 180 / 2).
  assert (Hdbl : cos (p2 - p1) = 1 - 2 * sin hl * sin hl).
  { rewrite <- cos_2a_sin. f_equal. unfold hl, p1, p2. field. }
  rewrite cos_minus in Hdbl.
  pose proof (COS_bound (p1 + p2)) as [_ Hsum]. rewrite cos_plus in Hsum.
  pose proof (SIN_bound hg) as [Hg1 Hg2].
  assert (Hsq : 0 <= sin hg * sin hg <= 1) by nra.
  assert (Hprod : 0 <= cos p1 * cos p2) by nra.
  assert (Hl : 0 <= sin hl * sin hl) by nra.
  split.
  - rewrite Rmult_assoc. nra.
  - rewrite Rmult_assoc.
    assert (cos p1 * cos p2 * (sin hg * sin hg) <= cos p1 * cos p2) by nra.
    nra.
Qed.

Lemma calculateDistance_range (lat1 lng1 lat2 lng2 : R) :
  -90 <= lat1 <= 90 -> -90 <= lat2 <= 90 ->
  exists d : R,
    calculateDistance (Some (coord lat1 lng1)) (Some (coord lat2 lng2)) = Num d /\
    0 <= d <= 6371 * PI.
Proof.
  intros H1 H2.
  destruct (@haversine_a_bounds lat1 lng1 lat2 lng2 H1 H2) as [Ha0 Ha1].
  rewrite calculateDistance_real. cbv zeta.
  set (a := haversine_a lat1 lng1 lat2 lng2) in *.
  unfold Math_sqrt, JS.sub; cbn [lift2].
  destruct (Rlt_dec a 0); [lra|]. destruct (Rlt_dec (1 - a) 0); [lra|].
  cbn. eexists. split; [reflexivity|].
  pose proof (@Ratan2_first_quadrant (sqrt a) (sqrt (1 - a))
                (sqrt_pos a) (sqrt_pos (1 - a))) as Hq.
  pose proof PI_RGT_0. nra.
Qed.

Lemma haversine_quarter_equator : haversine_a 0 0 0 90 = 1 / 2.
Proof.
  unfold haversine_a; cbv zeta.
  replace ((0 - 0) * PI / 180 / 2) with 0 by field.
  replace (0 * PI / 180) with 0 by field.
  replace ((90 - 0) * PI / 180 / 2) with (PI / 4) by field.
  rewrite sin_0, cos_0, sin_PI4.
  assert (Hs : sqrt 2 * sqrt 2 = 2) by (apply sqrt_def; lra).
  assert (Hpos : 0 < sqrt 2) by (apply sqrt_lt_R0; lra).
  field_simplify; [|lra]. rewrite <- Hs at 2. field. lra.
Qed.

(** X3. For latitudes between -90 and 90 degrees and two points that are not
    nearly antipodal (haversine term at most 1 - 1e-9), the haversine
    distance is a number between 0 and half the Earth's circumference,
    6371 * pi km. *)
Theorem calculateDistance_bounds (lat1 lng1 lat2 lng2 : R) :
  -90 <= lat1 <= 90 -> -90 <= lat2 <= 90 ->
  not_antipodal lat1 lng1 lat2 lng2 ->
  exists d : R,
    calculateDistance (Some (coord lat1 lng1)) (Some (coord lat2 lng2)) = Num d /\
    0 <= d <= 6371 * PI.
Proof.
  intros H1 H2 _. apply calculateDistance_range; assumption.
Qed.

Lemma calculateDistance_bounds_witness :
  exists d : R,
    calculateDistance (Some (coord 0 0)) (Some (coord 0 90)) = Num d /\
    0 <= d <= 6371 * PI.
Proof.
  apply calculateDistance_bounds; try lra.
  unfold not_antipodal. rewrite haversine_quarter_equator. lra.
Defined.

End GeodesyRanges.

(* ================================================================== *)
(** * Random destinations and straight-line moves *)
(* ================================================================== *)

Section PlanarMoves.

Open Scope R_scope.
Import LocationUtils Movement.

(** X4. [generateRandomCoordinate] stays within the radius: measured in the
    local planar approximation the function itself uses (longitude scaled
    by the cosine of the centre's latitude), the sampled point is at
    distance [radiusKm * sqrt u] from the centre, hence at most
    [radiusKm]. *)
Theorem generateRandomCoordinate_within_radius (lat lng r u v : R) :
  cos (lat * PI / 180) <> 0 ->
  0 <= r -> 0 <= u < 1 ->
  exists lat' lng' : R,
    generateRandomCoordinate (coord lat lng) (Num r) (Num u) (Num v) =
      coord lat' lng' /\
    let dy := 6371 * ((lat' - lat) * PI / 180) in
    let dx := 6371 * ((lng' - lng) * PI / 180 * cos (lat * PI / 180)) in
    dx * dx + dy * dy = r * r * u /\
    dx * dx + dy * dy <= r * r.
Proof.
  intros Hcos Hr [Hu0 Hu1]. pose proof PI_neq0 as HPI.
  unfold generateRandomCoordinate, coord; cbn [latitude longitude].
  unfold Math_sqrt. destruct (Rlt_dec u 0); [lra|].
  unfold Math_cos, Math_sin, Math_PI, JS.mul, JS.add; cbn [lift1 lift2].
  repeat first [ rewrite div_Num by (first [lra | assumption])
               | progress cbn [lift1 lift2] ].
  do 2 eexists. split; [reflexivity|]. cbv zeta.
  assert (Hsq : sqrt u * sqrt u = u) by (apply sqrt_sqrt; lra).
  pose proof (sin2_cos2 (2 * PI * v)) as Hone. unfold Rsqr in Hone.
  set (s := sin (2 * PI * v)) in *. set (c := cos (2 * PI * v)) in *.
  set (q := sqrt u) in *.
  assert (Heq :
    6371 * ((lng + r / 6371 * q * c * (180 / PI) / cos (lat * PI / 180) - lng) *
            PI / 180 * cos (lat * PI / 180)) = r * q * c) by (field; lra).
  assert (Heq' :
    6371 * ((lat + r / 6371 * q * s * (180 / PI) - lat) * PI / 180) = r * q * s)
    by (field; lra).
  rewrite Heq, Heq'.
  assert (Hval : r * q * c * (r * q * c) + r * q * s * (r * q * s) = r * r * u).
  { replace (r * q * c * (r * q * c) + r * q * s * (r * q * s))
      with (r * r * (q * q) * (s * s + c * c)) by ring.
    rewrite Hsq, Hone. ring. }
  split; [exact Hval|]. rewrite Hval. nra.
Qed.

Lemma generateRandomCoordinate_within_radius_witness :
  exists lat' lng' : R,
    generateRandomCoordinate (coord 0 46) (Num 3) (Num 0.25) (Num 0.5) =
      coord lat' lng'.
Proof.
  destruct (@generateRandomCoordinate_within_radius 0 46 3 0.25 0.5)
    as (lat' & lng' & H & _).
  - replace (0 * PI / 180) with 0 by field. rewrite cos_0. lra.
  - lra.
  - lra.
  - exists lat', lng'. exact H.
Defined.

Lemma planar_distance_real (la1 lo1 la2 lo2 : R) :
  Math_sqrt (JS.add (JS.mul (JS.sub (Num lo2) (Num lo1)) (JS.sub (Num lo2) (Num lo1)))
                    (JS.mul (JS.sub (Num la2) (Num la1)) (JS.sub (Num la2) (Num la1)))) =
  Num (sqrt ((lo2 - lo1) * (lo2 - lo1) + (la2 - la1) * (la2 - la1))).
Proof.
  unfold JS.sub, JS.mul, JS.add, Math_sqrt; cbn [lift2].
  destruct (Rlt_dec _ 0) as [H|H]; [|reflexivity].
  exfalso.
  pose proof (Rle_0_sqr (lo2 - lo1)) as H1.
  pose proof (Rle_0_sqr (la2 - la1)) as H2. unfold Rsqr in *. lra.
Qed.

(** X5. The smoothed [moveTowardsPoint] never overshoots: for a non-negative
    amount the result lies on the segment from start to end, a fraction
    [t] of the way; unless the end is closer than 1e-7 (then the result is
    the end itself), the step is at most 0.98 of the amount and stops at
    0.98 of the way at the latest. *)
Theorem moveTowardsPoint_on_segment (la1 lo1 la2 lo2 m : R) :
  0 <= m ->
  let d := sqrt ((lo2 - lo1) * (lo2 - lo1) + (la2 - la1) * (la2 - la1)) in
  exists t : R,
    moveTowardsPoint (coord la1 lo1) (coord la2 lo2) (Num m) =
      lerp (coord la1 lo1) (coord la2 lo2) t /\
    0 <= t <= 1 /\
    (d < 0.0000001 -> t = 1) /\
    (0.0000001 <= d -> t * d <= 0.98 * m /\ t <= 0.98).
Proof.
  intros Hm d.
  unfold moveTowardsPoint, coord; cbn [latitude longitude].
  rewrite planar_distance_real. fold d.
  assert (Hd0 : 0 <= d) by apply sqrt_pos.
  unfold number_ltb. destruct (Rlt_dec d 0.0000001) as [Hnear|Hfar].
  - exists 1. split; [|split; [lra|split; [reflexivity|lra]]].
    unfold lerp; cbn. f_equal; f_equal; ring.
  - assert (Hd : 0.0000001 <= d) by lra.
    assert (Hmin0 : 0 <= Rmin m d) by (apply Rmin_glb; lra).
    pose proof (Rmin_l m d) as Hml. pose proof (Rmin_r m d) as Hmr.
    exists (Rmin m d * 0.98 / d).
    assert (Ht : Rmin m d * 0.98 / d * d = Rmin m d * 0.98) by (field; lra).
    split; [|split; [|split]].
    + unfold lerp, Math_min, JS.sub, JS.mul, JS.add; cbn [lift2 latitude longitude].
      rewrite !div_Num by lra. cbn [lift2].
      f_equal; f_equal; field; lra.
    + split.
      * apply Rmult_le_reg_r with d; [lra|]. rewrite Ht. nra.
      * apply Rmult_le_reg_r with d; [lra|]. rewrite Ht. nra.
    + lra.
    + intros _. split; [rewrite Ht; nra|].
      apply Rmult_le_reg_r with d; [lra|]. rewrite Ht. nra.
Qed.

Lemma moveTowardsPoint_on_segment_witness :
  exists t : R,
    moveTowardsPoint (coord 0 0) (coord 3 4) (Num 1) =
      lerp (coord 0 0) (coord 3 4) t /\
    0 <= t <= 1.
Proof.
  destruct (@moveTowardsPoint_on_segment 0 0 3 4 1 ltac:(lra))
    as (t & H & Ht & _).
  exists t. split; assumption.
Defined.




End PlanarMoves.

(* ================================================================== *)
(** * What ticks leave alone, and when they cannot fail *)
(* ================================================================== *)

Section TickFacts.

Local Open Scope Z_scope.

Lemma server_tick_static (s : number) (now : timestamp) (v v' : Sim.t) :
  Server.tickVehicleWith s now v = Ok v' -> static_part v' = static_part v.
Proof.
  unfold Server.tickVehicleWith.
  destruct (Sim.fixedRoute v) as [route|] eqn:Hr; [|now intros [= <-]].
  destruct (1 <? _); [|now intros [= <-]].
  destruct (_ && _)%bool; [|now intros [= <-]].
  destruct (JS.geb _ _).
  - destruct (_ || _)%bool; [destruct (_ =? _)|]; intros [= <-];
      unfold static_part; cbn; rewrite Hr; reflexivity.
  - destruct (lookup route (Sim.currentRouteIndex v)); [|discriminate].
    destruct (lookup route _); [|discriminate].
    intros [= <-]. unfold static_part; cbn; rewrite Hr; reflexivity.
Qed.

Lemma client_tick_static (s : number) (now : timestamp) (v v' : Sim.t) :
  VehicleService.tickVehicleWith s now v = Ok v' ->
  static_part v' = static_part v.
Proof.
  unfold VehicleService.tickVehicleWith.
  destruct (Sim.fixedRoute v) as [route|] eqn:Hr; [|now intros [= <-]].
  destruct (1 <? _); [|now intros [= <-]].
  destruct (_ && _)%bool;
    [|intros [= <-]; unfold static_part; cbn; rewrite Hr; reflexivity].
  destruct (JS.geb _ _).
  - destruct (_ || _)%bool; [destruct (_ =? _)|]; intros [= <-];
      unfold static_part; cbn; rewrite Hr; reflexivity.
  - destruct (lookup route (Sim.currentRouteIndex v)); [|discriminate].
    destruct (lookup route _); [|discriminate].
    intros [= <-]. unfold static_part; cbn; rewrite Hr; reflexivity.
Qed.

Lemma server_written_static (s : number) (v : Sim.t) :
  static_part (Server.writtenWith s v) = static_part v.
Proof.
  unfold Server.writtenWith.
  destruct (Sim.fixedRoute v) as [route|] eqn:Hr; [|reflexivity].
  destruct (_ && _)%bool; [|reflexivity].
  destruct (JS.geb _ _).
  - destruct (_ || _)%bool; [destruct (_ =? _)|];
      unfold static_part; cbn; rewrite Hr; reflexivity.
  - unfold static_part; cbn; rewrite Hr; reflexivity.
Qed.

Lemma socket_tick_static (now : timestamp) (v v' : SocketUtils.simVehicle) :
  SocketUtils.tickVehicle now v = Ok v' ->
  socket_static_part v' = socket_static_part v.
Proof.
  unfold SocketUtils.tickVehicle.
  destruct (SocketUtils.fixedRoute v) as [route|] eqn:Hr; [|now intros [= <-]].
  destruct (1 <? _); [|now intros [= <-]].
  destruct (_ >=? _).
  - intros [= <-]. unfold socket_static_part; cbn; rewrite Hr; reflexivity.
  - destruct (JS.geb _ _);
      (destruct (lookup route (SocketUtils.currentRouteIndex v)); [|discriminate]);
      (destruct (lookup route _); [|discriminate]);
      intros [= <-]; unfold socket_static_part; cbn; rewrite Hr; reflexivity.
Qed.

Lemma socket_written_static (v : SocketUtils.simVehicle) :
  socket_static_part (SocketUtils.written v) = socket_static_part v.
Proof.
  unfold SocketUtils.written.
  destruct (SocketUtils.fixedRoute v) as [route|] eqn:Hr; [|reflexivity].
  destruct (1 <? _); [|reflexivity].
  destruct (_ >=? _).
  - unfold socket_static_part; cbn; rewrite Hr; reflexivity.
  - destruct (JS.geb _ _); unfold socket_static_part; cbn; rewrite Hr;
      reflexivity.
Qed.

End TickFacts.

Section LifecycleMore.

Variable V : Type.
Variable tick : timestamp -> V -> outcome V.
Variable written : V -> V.

Local Abbreviation runL := (run tick written).
Local Abbreviation fireL := (fire tick written).
Local Abbreviation tickAllL := (tickAll tick written).

Section Keys.

Variable K : Type.
Variable key : V -> K.
Hypothesis tick_key : forall now v v', tick now v = Ok v' -> key v' = key v.
Hypothesis written_key : forall v, key (written v) = key v.

Lemma tickAll_keys (now : timestamp) (l : list V) :
  map key (fst (tickAllL now l)) = map key l /\
  forall l', snd (tickAllL now l) = Ok l' -> map key l' = map key l.
Proof.
  induction l as [|v l [IHo IHn]]; cbn.
  - split; [reflexivity|]. now intros l' [= <-].
  - destruct (tick now v) as [v'|] eqn:Ht; cbn.
    + destruct (tickAllL now l) as [olds news]. cbn in *.
      split; [now rewrite written_key, IHo|].
      intros l' Hl'. destruct news as [vs|]; cbn in Hl'; [|discriminate].
      injection Hl' as <-. cbn. rewrite (tick_key Ht). f_equal. now apply IHn.
    + split; [now rewrite written_key|discriminate].
Qed.

Lemma fire_keys (h : nat) (now : timestamp) (st : state V) :
  map key (simulatedVehicles (fireL h now st)) = map key (simulatedVehicles st) /\
  exists one,
    emitted (fireL h now st) = emitted st ++ one /\
    Forall (fun entry => map key (snd entry) = map key (simulatedVehicles st)) one.
Proof.
  unfold fire.
  destruct (find _ (intervals st)) as [[h' cb]|];
    [|split; [reflexivity|exists []; split; [now rewrite app_nil_r|constructor]]].
  destruct (@tickAll_keys now (simulatedVehicles st)) as [Ho Hn].
  destruct (tickAllL now (simulatedVehicles st)) as [olds [vehicles|]]; cbn in *.
  - specialize (Hn vehicles eq_refl). split; [exact Hn|].
    destruct cb as [cb|].
    + exists [(cb, vehicles)]. split; [reflexivity|]. now repeat constructor.
    + exists []. split; [now rewrite app_nil_r|constructor].
  - split; [exact Ho|]. exists []. split; [now rewrite app_nil_r|constructor].
Qed.

Lemma fires_keys (es : list (event V)) (st : state V) :
  Forall (@is_fire V) es ->
  map key (simulatedVehicles (runL st es)) = map key (simulatedVehicles st) /\
  exists news,
    emitted (runL st es) = emitted st ++ news /\
    Forall (fun entry => map key (snd entry) = map key (simulatedVehicles st))
           news.
Proof.
  intros Hes. revert st.
  induction Hes as [|e es He _ IH]; intros st.
  - split; [reflexivity|]. exists []. split; [now rewrite app_nil_r|constructor].
  - destruct e as [| |h now|]; try contradiction.
    unfold run. cbn [fold_left step]. fold (runL (fireL h now st) es).
    destruct (@fire_keys h now st) as [Hk (one & Hone & Fone)].
    destruct (IH (fireL h now st)) as [Hk' (news & Hnews & Fnews)].
    split; [now rewrite Hk', Hk|].
    exists (one ++ news). split.
    + rewrite Hnews, Hone. now rewrite app_assoc.
    + apply Forall_app. split; [exact Fone|].
      eapply Forall_impl; [|exact Fnews]. intros entry He'. now rewrite He', Hk.
Qed.

End Keys.

Section Safety.

Variable P : V -> Prop.
Hypothesis tick_safe :
  forall now v, P v -> exists v', tick now v = Ok v' /\ P v'.

Lemma tickAll_safe (now : timestamp) (l : list V) :
  Forall P l ->
  exists l', snd (tickAllL now l) = Ok l' /\
             Forall P l' /\ List.length l' = List.length l.
Proof.
  induction 1 as [|v l Hv _ (l' & Hl' & Fl' & Hlen)]; cbn.
  - exists []. repeat split; constructor.
  - destruct (tick_safe now Hv) as (v' & Ht & Hv'). rewrite Ht.
    destruct (tickAllL now l) as [olds news]. cbn in *. subst news. cbn.
    exists (v' :: l'). split; [reflexivity|]. split; [now constructor|].
    cbn. now rewrite Hlen.
Qed.

(** With vehicles on which ticks cannot fail, every firing of a live
    timer that holds a callback hands that callback one collection, as long
    as the collection before it. *)
Lemma fires_deliver (h : nat) (cb : callback) (nows : list timestamp)
    (st : state V) :
  find (fun iv => Nat.eqb (fst iv) h) (intervals st) = Some (h, Some cb) ->
  Forall P (simulatedVehicles st) ->
  exists news,
    emitted (runL st (map (Fire h) nows)) = emitted st ++ news /\
    List.length news = List.length nows /\
    Forall (fun entry =>
              fst entry = cb /\
              List.length (snd entry) = List.length (simulatedVehicles st))
           news.
Proof.
  revert st. induction nows as [|now nows IH]; intros st Hfind Hsafe.
  - exists []. cbn. split; [now rewrite app_nil_r|]. split; constructor.
  - cbn [map]. unfold run. cbn [fold_left step].
    fold (runL (fireL h now st) (map (Fire h) nows)).
    destruct (@tickAll_safe now _ Hsafe) as (l' & Hl' & Fl' & Hlen).
    assert (Hfire : fireL h now st =
                    mkState l' (simulationInterval st) (intervals st)
                            (nextHandle st) (pending st)
                            (emitted st ++ [(cb, l')])).
    { unfold fire. rewrite Hfind.
      destruct (tickAllL now (simulatedVehicles st)) as [olds news].
      cbn in Hl'. subst news. reflexivity. }
    rewrite Hfire.
    destruct (IH (mkState l' (simulationInterval st) (intervals st)
                          (nextHandle st) (pending st)
                          (emitted st ++ [(cb, l')])) Hfind Fl')
      as (news & Hnews & Hcount & Fnews).
    exists ((cb, l') :: news). cbn in *.
    split; [rewrite Hnews, <- app_assoc; reflexivity|].
    split; [now rewrite Hcount|].
    constructor; [now split|].
    eapply Forall_impl; [|exact Fnews]. intros entry [He1 He2].
    split; [exact He1|]. now rewrite He2.
Qed.

(** Vehicles on which ticks cannot fail stay so through timer firings;
    their number does not change, in the module variable or in the
    collections handed to callbacks. *)
Lemma fires_stay_safe (es : list (event V)) (st : state V) :
  Forall (@is_fire V) es ->
  Forall P (simulatedVehicles st) ->
  Forall P (simulatedVehicles (runL st es)) /\
  List.length (simulatedVehicles (runL st es)) =
    List.length (simulatedVehicles st) /\
  exists news,
    emitted (runL st es) = emitted st ++ news /\
    Forall (fun entry =>
              List.length (snd entry) = List.length (simulatedVehicles st))
           news.
Proof.
  intros Hes. revert st.
  induction Hes as [|e es He _ IH]; intros st Hsafe.
  - split; [exact Hsafe|]. split; [reflexivity|].
    exists []. split; [now rewrite app_nil_r|constructor].
  - destruct e as [| |h now|]; try contradiction.
    unfold run. cbn [fold_left step]. fold (runL (fireL h now st) es).
    destruct (@tickAll_safe now _ Hsafe) as (l' & Hl' & Fl' & Hlen).
    assert (Hfire :
      Forall P (simulatedVehicles (fireL h now st)) /\
      List.length (simulatedVehicles (fireL h now st)) =
        List.length (simulatedVehicles st) /\
      exists one,
        emitted (fireL h now st) = emitted st ++ one /\
        Forall (fun entry =>
                  List.length (snd entry) = List.length (simulatedVehicles st))
               one).
    { unfold fire.
      destruct (find _ (intervals st)) as [[h' cb]|].
      - destruct (tickAllL now (simulatedVehicles st)) as [olds news].
        cbn in Hl'. subst news. cbn.
        split; [exact Fl'|]. split; [exact Hlen|].
        destruct cb as [cb|].
        + exists [(cb, l')]. split; [reflexivity|]. now repeat constructor.
        + exists []. split; [now rewrite app_nil_r|constructor].
      - split; [exact Hsafe|]. split; [reflexivity|].
        exists []. split; [now rewrite app_nil_r|constructor]. }
    destruct Hfire as (Fs & Hl & one & Hone & Fone).
    destruct (IH _ Fs) as (Fs' & Hl2 & news & Hnews & Fnews).
    split; [exact Fs'|]. split; [now rewrite Hl2|].
    exists (one ++ news). split.
    + rewrite Hnews, Hone. now rewrite app_assoc.
    + apply Forall_app. split; [exact Fone|].
      eapply Forall_impl; [|exact Fnews]. intros entry He'. now rewrite He', Hl.
Qed.

End Safety.

End LifecycleMore.

Section NeverThrows.

Local Open Scope Z_scope.

Lemma client_tick_agrees_with_server_aux
    (s : number) (now : timestamp) (v : Sim.t) :
  ~ next_out_of_route v ->
  VehicleService.tickVehicleWith s now v = Server.tickVehicleWith s now v.
Proof.
  intros Hin.
  unfold VehicleService.tickVehicleWith, Server.tickVehicleWith.
  destruct (Sim.fixedRoute v) as [route|] eqn:Hr; [|reflexivity].
  destruct (1 <? Z.of_nat (List.length route)) eqn:E1; [|reflexivity].
  destruct ((0 <=? Sim.currentRouteIndex v + Sim.direction v) &&
            (Sim.currentRouteIndex v + Sim.direction v <?
             Z.of_nat (List.length route)))%bool eqn:E2; [reflexivity|].
  exfalso. apply Hin. unfold next_out_of_route, in_route. rewrite Hr.
  zbool. split; [lia|]. lia.
Qed.

(** X7. The client service's tick is the server's tick, except on a vehicle
    whose next index is outside its route. *)
Theorem client_tick_agrees_with_server
    (s : number) (now : timestamp) (v : Sim.t) :
  ~ next_out_of_route v ->
  VehicleService.tickVehicleWith s now v = Server.tickVehicleWith s now v.
Proof. apply client_tick_agrees_with_server_aux. Qed.

Lemma client_tick_agrees_with_server_witness :
  ~ next_out_of_route (VehicleService.initVehicle (Ok sampleInfo) bus1) /\
  VehicleService.tickVehicleWith (Num 0.01) "t"%string
    (VehicleService.initVehicle (Ok sampleInfo) bus1) =
  Server.tickVehicleWith (Num 0.01) "t"%string
    (VehicleService.initVehicle (Ok sampleInfo) bus1).
Proof.
  assert (H : ~ next_out_of_route
                  (VehicleService.initVehicle (Ok sampleInfo) bus1)).
  { unfold next_out_of_route, in_route. cbn. intros [_ Hout]. apply Hout. lia. }
  split; [exact H|]. apply client_tick_agrees_with_server. exact H.
Defined.

Lemma safe_not_out_of_route (v : Sim.t) : safe v -> ~ next_out_of_route v.
Proof.
  unfold safe, short_route, next_out_of_route, state_inv.
  intros [Hs|(route & Hlen & (Hr & _) & Hnext)] Hout.
  - destruct (Sim.fixedRoute v); [lia|assumption].
  - rewrite Hr in Hout. tauto.
Qed.

Lemma server_tick_safe (s : R) (now : timestamp) (v : Sim.t) :
  (0 <= s)%R -> safe v ->
  exists v', Server.tickVehicleWith (Num s) now v = Ok v' /\ safe v'.
Proof.
  intros Hs [Hshort|(route & Hlen & Hinv & Hnext)].
  - exists v. split; [apply server_tick_invalid; now left|now left].
  - pose proof Hinv as (_ & _ & (p & Hp & _) & _).
    destruct (@tick_step_spec s now route v p Hs Hlen Hinv Hp)
      as (v' & Ht & Hinv' & _ & _ & Hnext').
    exists v'. split; [exact Ht|]. right. exists route. auto.
Qed.

Lemma client_tick_safe (s : R) (now : timestamp) (v : Sim.t) :
  (0 <= s)%R -> safe v ->
  exists v', VehicleService.tickVehicleWith (Num s) now v = Ok v' /\ safe v'.
Proof.
  intros Hs Hsafe.
  rewrite client_tick_agrees_with_server_aux by now apply safe_not_out_of_route.
  now apply server_tick_safe.
Qed.

Lemma safe_at_start (b : Vehicle.t) (i : Sim.info) (o : coordinate)
    (sp : option number) (fr : option (list coordinate)) :
  safe (Sim.mk b i 0 o sp fr 1 (Num 0)).
Proof.
  destruct fr as [route|]; [|now left].
  destruct (le_lt_dec 2 (List.length route)) as [Hlen|Hlen]; [|now left].
  right. exists route. unfold state_inv, in_route; cbn.
  repeat split; try lia; try reflexivity.
  exists 0%R. split; [reflexivity|lra].
Qed.

Lemma server_initVehicle_safe
    (userLocation : coordinate) (u w : number)
    (fetch : outcome (option Directions.t)) (vehicle : Vehicle.t) (v : Sim.t) :
  Server.initVehicle userLocation u w fetch vehicle = Ok v -> safe v.
Proof.
  unfold Server.initVehicle.
  destruct (findRoute (Vehicle.routeId vehicle)) as [routeData|];
    [|discriminate].
  destruct (match Route.startCoordinates routeData,
                  Route.endCoordinates routeData with
            | Some sc, Some ec => (sc, ec)
            | _, _ => (Vehicle.location vehicle,
                       LocationUtils.generateRandomCoordinate userLocation
                         (Num 3) u w)
            end) as [startPoint endPoint].
  intros [= <-]. apply safe_at_start.
Qed.

Lemma server_initVehicles_safe
    (userLocation : coordinate)
    (inputs : list (number * number * outcome (option Directions.t)))
    (vehicles : list Vehicle.t) (collection : list Sim.t) :
  server_initVehicles userLocation inputs vehicles = Ok collection ->
  Forall safe collection /\
  (List.length collection <= List.length vehicles)%nat.
Proof.
  revert inputs collection.
  induction vehicles as [|vehicle vehicles IH]; intros inputs collection.
  - destruct inputs; cbn; intros [= <-]; (split; [constructor|cbn; lia]).
  - destruct inputs as [|[[u w] fetch] inputs];
      [cbn; intros [= <-]; split; [constructor|cbn; lia]|].
    cbn.
    destruct (Server.initVehicle userLocation u w fetch vehicle) as [sv|] eqn:Hi;
      [|discriminate].
    cbn.
    destruct (server_initVehicles userLocation inputs vehicles) as [svs|] eqn:Hr;
      [|discriminate].
    cbn. intros [= <-]. destruct (IH inputs svs Hr) as [Fs Hl].
    split; [constructor; [now apply server_initVehicle_safe in Hi|exact Fs]|].
    cbn. lia.
Qed.

Lemma client_initVehicles_safe
    (resolved : list (outcome MapService.routeInfo)) (vehicles : list Vehicle.t) :
  Forall safe (VehicleService.initVehicles resolved vehicles).
Proof.
  revert resolved.
  induction vehicles as [|vehicle vehicles IH]; intros [|r resolved]; cbn;
    try constructor; [|apply IH].
  destruct r as [routeInfo|]; cbn; apply safe_at_start.
Qed.

Lemma socket_tick_safe (now : timestamp) (v : SocketUtils.simVehicle) :
  socket_safe v ->
  exists v', SocketUtils.tickVehicle now v = Ok v' /\ socket_safe v'.
Proof.
  unfold socket_safe.
  destruct (SocketUtils.fixedRoute v) as [route|] eqn:Hr.
  - intros [Hshort|Hstuck].
    + exists v. split; [|rewrite Hr; now left].
      unfold SocketUtils.tickVehicle. rewrite Hr.
      destruct (1 <? Z.of_nat (List.length route)) eqn:E; zbool;
        [lia|reflexivity].
    + destruct (le_lt_dec 2 (List.length route)) as [Hlen|Hlen].
      * destruct (@tick_stuck now route v Hlen Hstuck)
          as (v' & Ht & Hs' & _ & _).
        exists v'. split; [exact Ht|].
        destruct Hs' as (Hr' & Hrest). rewrite Hr'. right. now split.
      * exists v. split; [|rewrite Hr; now left].
        unfold SocketUtils.tickVehicle. rewrite Hr.
        destruct (1 <? Z.of_nat (List.length route)) eqn:E; zbool;
          [lia|reflexivity].
  - intros _. exists v. split; [|now rewrite Hr].
    unfold SocketUtils.tickVehicle. now rewrite Hr.
Qed.

Lemma socket_initVehicles_safe
    (resolved : list (outcome MapService.routeInfo)) (vehicles : list Vehicle.t) :
  Forall socket_safe (SocketUtils.initVehicles resolved vehicles).
Proof.
  revert resolved.
  induction vehicles as [|vehicle vehicles IH]; intros [|r resolved]; cbn;
    try constructor; [|apply IH].
  unfold socket_safe.
  destruct (socket_init_at_start r vehicle) as [Hp Hi].
  destruct (SocketUtils.fixedRoute (SocketUtils.initVehicle r vehicle))
    as [route|] eqn:E; [|exact I].
  right. split; [exact E|]. split; [exact Hi|]. rewrite Hp. reflexivity.
Qed.

(** X8. Once the server's start has resumed, no tick can throw: every firing
    of the installed timer hands the update callback one collection, with
    one vehicle per simulated vehicle. *)
Theorem server_timer_always_delivers
    (userLocation : coordinate)
    (inputs : list (number * number * outcome (option Directions.t)))
    (vehicles : list Vehicle.t) (collection : list Sim.t)
    (cb : callback) (st : state Sim.t) (nows : list timestamp) :
  server_initVehicles userLocation inputs vehicles = Ok collection ->
  quiescent st ->
  let started :=
    run Server.tickVehicle Server.written st
      [Start (Ok collection) (Some cb); Resume 0] in
  exists news,
    emitted (run Server.tickVehicle Server.written started
               (map (Fire (nextHandle st)) nows)) = emitted st ++ news /\
    List.length news = List.length nows /\
    Forall (fun entry =>
              fst entry = cb /\
              List.length (snd entry) = List.length collection) news.
Proof.
  intros Hinit Hq started.
  destruct (@start_when_quiescent _ Server.tickVehicle Server.written st
              collection (Some cb) Hq) as (_ & Hiv & _ & Hsv & Hem & _).
  fold started in Hiv, Hsv, Hem.
  destruct (@fires_deliver _ Server.tickVehicle Server.written safe
              (fun now v => @server_tick_safe 0.01 now v ltac:(lra))
              (nextHandle st) cb nows started)
    as (news & Hnews & Hcount & Fnews).
  - rewrite Hiv. cbn. now rewrite Nat.eqb_refl.
  - rewrite Hsv. now apply (server_initVehicles_safe _ _ _ Hinit).
  - exists news. rewrite Hnews, Hem, Hsv in *. auto.
Qed.

Lemma server_timer_always_delivers_witness :
  exists collection news,
    server_initVehicles DEFAULT_REGION [(Num 0, Num 0, Ok None)] [bus1] =
      Ok collection /\
    emitted (run Server.tickVehicle Server.written
               (run Server.tickVehicle Server.written (initial Sim.t)
                  [Start (Ok collection) (Some 7%nat); Resume 0])
               (map (Fire 1) ["t1"; "t2"]%string)) = [] ++ news /\
    List.length news = 2%nat.
Proof.
  eexists. 
  destruct (@server_timer_always_delivers DEFAULT_REGION
              [(Num 0, Num 0, Ok None)] [bus1] _ 7%nat (initial Sim.t)
              ["t1"; "t2"]%string eq_refl)
    as (news & Hnews & Hcount & _).
  - split; reflexivity.
  - exists news. split; [reflexivity|]. split; [exact Hnews|exact Hcount].
Defined.

(** X9. In the client service, whatever the route lookups produced, start
    never leaves a vehicle on which the tick could throw: after a start
    and any number of timer firings, the map of the tick over the
    simulated vehicles completes, the simulated vehicles are as many as
    were started, and so are the vehicles of every collection handed to
    the update callback. *)
Theorem client_map_never_throws
    (resolved : list (outcome MapService.routeInfo)) (vehicles : list Vehicle.t)
    (cb : option callback) (st : state Sim.t) (fires : list (event Sim.t))
    (now : timestamp) :
  quiescent st ->
  Forall (@is_fire _) fires ->
  let collection := VehicleService.initVehicles resolved vehicles in
  let started :=
    run VehicleService.tickVehicle VehicleService.written st
      [Start (Ok collection) cb; Resume 0] in
  let later :=
    run VehicleService.tickVehicle VehicleService.written started fires in
  (exists mapped,
     snd (tickAll VehicleService.tickVehicle VehicleService.written now
            (simulatedVehicles later)) = Ok mapped /\
     List.length mapped = List.length collection) /\
  List.length (simulatedVehicles later) = List.length collection /\
  exists news,
    emitted later = emitted st ++ news /\
    Forall (fun entry => List.length (snd entry) = List.length collection)
           news.
Proof.
  intros Hq Hf collection started later.
  destruct (@start_when_quiescent _ VehicleService.tickVehicle
              VehicleService.written st collection cb Hq)
    as (_ & _ & _ & Hsv & Hem & _).
  fold started in Hsv, Hem.
  destruct (@fires_stay_safe _ VehicleService.tickVehicle
              VehicleService.written safe
              (fun now v => @client_tick_safe 0.01 now v ltac:(lra))
              fires started Hf)
    as (Hsafe & Hlen & news & Hnews & Fnews).
  { rewrite Hsv. apply client_initVehicles_safe. }
  fold later in Hsafe, Hlen, Hnews.
  rewrite Hsv in Hlen, Fnews.
  split; [|split; [exact Hlen|]].
  - destruct (@tickAll_safe _ VehicleService.tickVehicle
                VehicleService.written safe
                (fun now v => @client_tick_safe 0.01 now v ltac:(lra))
                now _ Hsafe)
      as (mapped & Hm & _ & Hml).
    exists mapped. split; [exact Hm|]. now rewrite Hml.
  - exists news. rewrite Hnews, Hem. split; [reflexivity|exact Fnews].
Qed.

Lemma client_map_never_throws_witness :
  exists mapped,
    snd (tickAll VehicleService.tickVehicle VehicleService.written "t3"%string
           (simulatedVehicles
              (run VehicleService.tickVehicle VehicleService.written
                 (run VehicleService.tickVehicle VehicleService.written
                    (initial Sim.t)
                    [Start (Ok (VehicleService.initVehicles
                                  [Ok sampleInfo; Throw] [bus1; bus2]))
                           (Some 7%nat); Resume 0])
                 [Fire 1 "t1"%string; Fire 1 "t2"%string]))) = Ok mapped /\
    List.length mapped = 2%nat.
Proof.
  destruct (@client_map_never_throws [Ok sampleInfo; Throw] [bus1; bus2]
              (Some 7%nat) (initial Sim.t)
              [Fire 1 "t1"%string; Fire 1 "t2"%string] "t3"%string)
    as (Hmap & _).
  - split; reflexivity.
  - repeat constructor.
  - exact Hmap.
Defined.

(** X10. In the socket utilities, whatever the route lookups produced, no
    tick can throw after a start (a vehicle with a route stays stuck on its
    first leg): every firing of the installed timer hands the update
    callback one collection, with one vehicle per simulated vehicle. *)
Theorem socket_timer_always_delivers
    (resolved : list (outcome MapService.routeInfo)) (vehicles : list Vehicle.t)
    (cb : callback) (st : state SocketUtils.simVehicle)
    (nows : list timestamp) :
  quiescent st ->
  let collection := SocketUtils.initVehicles resolved vehicles in
  let started :=
    run SocketUtils.tickVehicle SocketUtils.written st
      [Start (Ok collection) (Some cb); Resume 0] in
  exists news,
    emitted (run SocketUtils.tickVehicle SocketUtils.written started
               (map (Fire (nextHandle st)) nows)) = emitted st ++ news /\
    List.length news = List.length nows /\
    Forall (fun entry =>
              fst entry = cb /\
              List.length (snd entry) = List.length collection) news.
Proof.
  intros Hq collection started.
  destruct (@start_when_quiescent _ SocketUtils.tickVehicle
              SocketUtils.written st collection (Some cb) Hq)
    as (_ & Hiv & _ & Hsv & Hem & _).
  fold started in Hiv, Hsv, Hem.
  destruct (@fires_deliver _ SocketUtils.tickVehicle SocketUtils.written
              socket_safe socket_tick_safe
              (nextHandle st) cb nows started)
    as (news & Hnews & Hcount & Fnews).
  - rewrite Hiv. cbn. now rewrite Nat.eqb_refl.
  - rewrite Hsv. apply socket_initVehicles_safe.
  - exists news. rewrite Hnews, Hem, Hsv in *. auto.
Qed.

Lemma socket_timer_always_delivers_witness :
  exists news,
    emitted (run SocketUtils.tickVehicle SocketUtils.written
               (run SocketUtils.tickVehicle SocketUtils.written
                  (initial SocketUtils.simVehicle)
                  [Start (Ok (SocketUtils.initVehicles
                                [Ok sampleInfo; Throw] [bus1; bus2]))
                         (Some 7%nat); Resume 0])
               (map (Fire 1) ["t1"; "t2"]%string)) = [] ++ news /\
    List.length news = 2%nat.
Proof.
  destruct (@socket_timer_always_delivers [Ok sampleInfo; Throw] [bus1; bus2]
              7%nat (initial SocketUtils.simVehicle) ["t1"; "t2"]%string)
    as (news & Hnews & Hcount & _).
  - split; reflexivity.
  - exists news. split; [exact Hnews|exact Hcount].
Defined.

(** X11. No tick of the server or of the client service, successful or aborted,
    touches a vehicle's identity, display data, route or original location:
    while only timers fire, the vehicles in [simulatedVehicles] and in every
    collection handed to a callback are the same vehicles, in the same
    order, bound to the same routes. *)
Theorem ticks_never_change_route_or_identity
    (st st' : state Sim.t) (fires : list (event Sim.t)) :
  Forall (@is_fire _) fires ->
  (map static_part
       (simulatedVehicles (run Server.tickVehicle Server.written st fires)) =
     map static_part (simulatedVehicles st) /\
   exists news,
     emitted (run Server.tickVehicle Server.written st fires) =
       emitted st ++ news /\
     Forall (fun entry => map static_part (snd entry) =
                          map static_part (simulatedVehicles st)) news) /\
  (map static_part
       (simulatedVehicles
          (run VehicleService.tickVehicle VehicleService.written st' fires)) =
     map static_part (simulatedVehicles st') /\
   exists news,
     emitted (run VehicleService.tickVehicle VehicleService.written st' fires) =
       emitted st' ++ news /\
     Forall (fun entry => map static_part (snd entry) =
                          map static_part (simulatedVehicles st')) news).
Proof.
  intros Hf. split.
  - apply fires_keys; [|apply server_written_static|exact Hf].
    intros now v v'. apply server_tick_static.
  - apply fires_keys; [|apply server_written_static|exact Hf].
    intros now v v'. apply client_tick_static.
Qed.

Lemma ticks_never_change_route_or_identity_witness :
  map static_part
      (simulatedVehicles
         (run Server.tickVehicle Server.written
            (mkState [Server.scenario bus1 (Sim.Endpoints "a" "b" "c") (coord 0 0)]
                     (Some 1%nat) [(1%nat, Some 7%nat)] 2 [] [])
            [Fire 1 "t1"%string])) =
  [static_part (Server.scenario bus1 (Sim.Endpoints "a" "b" "c") (coord 0 0))].
Proof.
  apply (@ticks_never_change_route_or_identity
           (mkState [Server.scenario bus1 (Sim.Endpoints "a" "b" "c") (coord 0 0)]
                    (Some 1%nat) [(1%nat, Some 7%nat)] 2 [] [])
           (initial Sim.t) [Fire 1 "t1"%string]).
  repeat constructor.
Defined.

(** X12. No tick of the socket utilities, successful or aborted, touches a
    vehicle's identity, display data, route or original location: while
    only timers fire, the vehicles in [simulatedVehicles] and in every
    collection handed to a callback are the same vehicles, in the same
    order, bound to the same routes. *)
Theorem socket_ticks_never_change_route_or_identity
    (st : state SocketUtils.simVehicle)
    (fires : list (event SocketUtils.simVehicle)) :
  Forall (@is_fire _) fires ->
  map socket_static_part
      (simulatedVehicles (run SocketUtils.tickVehicle SocketUtils.written
                            st fires)) =
    map socket_static_part (simulatedVehicles st) /\
  exists news,
    emitted (run SocketUtils.tickVehicle SocketUtils.written st fires) =
      emitted st ++ news /\
    Forall (fun entry => map socket_static_part (snd entry) =
                         map socket_static_part (simulatedVehicles st)) news.
Proof.
  intros Hf.
  apply fires_keys; [|apply socket_written_static|exact Hf].
  intros now v v'. apply socket_tick_static.
Qed.

Lemma socket_ticks_never_change_route_or_identity_witness :
  map socket_static_part
      (simulatedVehicles
         (run SocketUtils.tickVehicle SocketUtils.written
            (mkState [SocketUtils.initVehicle (Ok sampleInfo) bus1]
                     (Some 1%nat) [(1%nat, Some 7%nat)] 2 [] [])
            [Fire 1 "t1"%string])) =
  [socket_static_part (SocketUtils.initVehicle (Ok sampleInfo) bus1)].
Proof.
  apply (@socket_ticks_never_change_route_or_identity
           (mkState [SocketUtils.initVehicle (Ok sampleInfo) bus1]
                    (Some 1%nat) [(1%nat, Some 7%nat)] 2 [] [])
           [Fire 1 "t1"%string]).
  repeat constructor.
Defined.

End NeverThrows.

(* ================================================================== *)
(** * A whole leg of the route *)
(* ================================================================== *)

Section Legs.

Import Server LocationUtils.
Local Open Scope Z_scope.

Local Ltac finish_leg :=
  cbn;
  split; [reflexivity|];
  split; [first [reflexivity | lia]|];
  split; [reflexivity|];
  split; [reflexivity|];
  unfold state_inv, in_route; cbn;
  split; [assumption|];
  split; [lia|];
  split; [exists 0%R; split; [reflexivity|lra]|lia].

Lemma ticks_within_leg
    (s : R) (nows : list timestamp) (route : list coordinate)
    (cur nxt : coordinate) :
  (0 <= s)%R -> (1 < List.length route)%nat ->
  forall (v : Sim.t) (p : R),
    Sim.fixedRoute v = Some route ->
    lookup route (Sim.currentRouteIndex v) = Some cur ->
    lookup route (Sim.currentRouteIndex v + Sim.direction v) = Some nxt ->
    Sim.progress v = Num p ->
    (p + INR (List.length nows) * s < 1)%R ->
    exists v' p',
      ticks (Num s) nows v = Ok v' /\
      Sim.progress v' = Num p' /\
      p' = (p + INR (List.length nows) * s)%R /\
      Sim.currentRouteIndex v' = Sim.currentRouteIndex v /\
      Sim.direction v' = Sim.direction v /\
      Sim.fixedRoute v' = Some route /\
      (nows <> [] ->
       Vehicle.location (Sim.base v') = lerp cur nxt p' /\
       Vehicle.heading (Sim.base v') = calculateBearing (Some cur) (Some nxt)).
Proof.
  intros Hs Hlen. induction nows as [|now nows IH]; intros v p Hr Hc Hn Hp Hlt.
  - exists v, p. cbn.
    split; [reflexivity|]. split; [assumption|]. split; [ring|].
    split; [reflexivity|]. split; [reflexivity|]. split; [assumption|].
    intros H; contradiction.
  - cbn [List.length] in Hlt. rewrite S_INR in Hlt.
    assert (Hstep : (p + s < 1)%R).
    { pose proof (pos_INR (List.length nows)). nra. }
    pose proof (@tick_interpolates s p now route v cur nxt Hr Hlen Hc Hn Hp Hstep)
      as Ht.
    set (v1 := Sim.moved v _ _ _ _ _ _) in Ht.
    destruct (IH v1 (p + s)%R) as (v' & p' & Hts & Hp' & Heq & Hi & Hd & Hr' & Hloc);
      try assumption; try reflexivity.
    { lra. }
    exists v', p'. cbn [ticks]. rewrite Ht. cbn [bind].
    split; [exact Hts|]. split; [exact Hp'|].
    split; [cbn [List.length]; rewrite S_INR; lra|].
    split; [exact Hi|]. split; [exact Hd|]. split; [exact Hr'|].
    intros _. destruct nows as [|now' nows'].
    + cbn in Hts. injection Hts as <-. cbn in Hp'. injection Hp' as <-.
      split; reflexivity.
    + apply Hloc. discriminate.
Qed.

(** X13. With a progress step [s > 0], a vehicle that leaves a way point takes
    exactly [n] ticks to the next one, [n] being the first count with
    [n * s >= 1]: after any [k < n] ticks it is a fraction [k * s] of the
    way, index and direction unchanged; the [n]-th tick puts it exactly on
    the next way point, with the index advanced and progress back to 0. *)
Theorem leg_takes_exactly_n_ticks
    (s : R) (nows : list timestamp) (last : timestamp)
    (route : list coordinate) (v : Sim.t) (cur nxt : coordinate) :
  (0 < s)%R ->
  state_inv route v ->
  Sim.progress v = Num 0 ->
  lookup route (Sim.currentRouteIndex v) = Some cur ->
  lookup route (Sim.currentRouteIndex v + Sim.direction v) = Some nxt ->
  (INR (List.length nows) * s < 1 <= INR (S (List.length nows)) * s)%R ->
  (forall k, (k <= List.length nows)%nat ->
     exists v' p',
       ticks (Num s) (firstn k nows) v = Ok v' /\
       Sim.progress v' = Num p' /\ p' = (INR k * s)%R /\
       Sim.currentRouteIndex v' = Sim.currentRouteIndex v /\
       Sim.direction v' = Sim.direction v /\
       (k <> 0%nat -> Vehicle.location (Sim.base v') = lerp cur nxt p')) /\
  exists v',
    ticks (Num s) (nows ++ [last]) v = Ok v' /\
    Sim.progress v' = Num 0 /\
    Sim.currentRouteIndex v' = Sim.currentRouteIndex v + Sim.direction v /\
    Vehicle.location (Sim.base v') = nxt /\
    Vehicle.heading (Sim.base v') = calculateBearing (Some cur) (Some nxt) /\
    state_inv route v'.
Proof.
  intros Hs Hinv Hp Hc Hn [Hlt Hge].
  pose proof Hinv as (Hr & Hidx & _ & Hdir).
  pose proof (lookup_Some_in_range _ _ Hn) as Hnext.
  unfold in_route in Hidx.
  assert (Hlen : (1 < List.length route)%nat) by lia.
  split.
  - intros k Hk.
    destruct (@ticks_within_leg s (firstn k nows) route cur nxt ltac:(lra) Hlen
                v 0%R Hr Hc Hn Hp)
      as (v' & p' & Hts & Hp' & Heq & Hi & Hd & _ & Hloc).
    { rewrite length_firstn, Nat.min_l by exact Hk.
      apply le_INR in Hk. nra. }
    rewrite length_firstn, Nat.min_l in Heq by exact Hk.
    exists v', p'. repeat split; try assumption; [lra|].
    intros Hk0. apply Hloc.
    destruct nows, k; cbn in *; try discriminate; try congruence; exfalso; lia.
  - destruct (@ticks_within_leg s nows route cur nxt ltac:(lra) Hlen
                v 0%R Hr Hc Hn Hp ltac:(lra))
      as (v1 & p1 & Hts & Hp1 & Heq & Hi & Hd & Hr1 & _).
    assert (Hrun : forall l w, ticks (Num s) l v = Ok w ->
              ticks (Num s) (l ++ [last]) v = tickVehicleWith (Num s) last w).
    { clear. intros l. revert v. induction l as [|a l IH]; intros v w H; cbn in *.
      - injection H as <-. destruct (tickVehicleWith _ _ _); reflexivity.
      - destruct (tickVehicleWith (Num s) a v) as [v2|]; cbn in *;
          [now apply IH|discriminate]. }
    rewrite (Hrun _ _ Hts).
    rewrite <- Hi, <- Hd in Hn, Hnext |- *. rewrite <- Hi in Hc, Hidx.
    rewrite <- Hd in Hdir.
    rewrite S_INR in Hge.
    pose proof (@tick_arrives s p1 last route v1 nxt Hr1 Hlen Hn Hp1
                  ltac:(lra)) as Ht.
    cbv zeta in Ht. rewrite Hc in Ht.
    set (len := Z.of_nat (List.length route)) in *.
    set (next := Sim.currentRouteIndex v1 + Sim.direction v1) in *.
    destruct ((next >=? len - 1) || (next <=? 0))%bool eqn:E; zbool.
    + assert (Hend : len - 1 <= next \/ next <= 0)
        by (destruct E as [E|E]; zbool; lia).
      clear E.
      destruct (Sim.direction v1 * -1 =? -1) eqn:E2; zbool.
      * assert (Hnx : next = len - 1) by lia. rewrite Hnx in Hn.
        rewrite Hn in Ht. unfold next in Hnx.
        eexists. split; [exact Ht|]. finish_leg.
      * assert (Hnx : next = 0) by lia. rewrite Hnx in Hn.
        rewrite Hn in Ht. unfold next in Hnx.
        eexists. split; [exact Ht|]. finish_leg.
    + unfold next in *. eexists. split; [exact Ht|]. finish_leg.
Qed.

Lemma leg_takes_exactly_n_ticks_witness :
  exists v',
    ticks (Num 0.01) (repeat "t"%string 99 ++ ["t"%string])
      (shuttle [coord 0 0; coord 0 1]) = Ok v' /\
    Sim.currentRouteIndex v' = 1 /\
    Vehicle.location (Sim.base v') = coord 0 1.
Proof.
  destruct (@leg_takes_exactly_n_ticks 0.01 (repeat "t"%string 99) "t"%string
              [coord 0 0; coord 0 1] (shuttle [coord 0 0; coord 0 1])
              (coord 0 0) (coord 0 1))
    as (_ & v' & Ht & _ & Hi & Hl & _).
  - lra.
  - unfold state_inv, in_route, shuttle; cbn.
    split; [reflexivity|]. split; [lia|].
    split; [exists 0%R; split; [reflexivity|lra]|now left].
  - reflexivity.
  - reflexivity.
  - reflexivity.
  - rewrite repeat_length, !INR_IZR_INZ. cbn. lra.
  - exists v'. split; [exact Ht|]. split; assumption.
Defined.

(** ** The client service's repair, and the socket utilities' legs *)

(** X14. In the client service a vehicle whose next index is outside its route
    is put back on the route: after the repair the index and the next
    index are both positions of the route, so the following tick moves
    it. *)
Theorem repair_restores_invariants
    (s : number) (now : timestamp) (route : list coordinate) (v : Sim.t) :
  Sim.fixedRoute v = Some route ->
  next_out_of_route v ->
  (Sim.direction v = 1 \/ Sim.direction v = -1) ->
  exists v',
    VehicleService.tickVehicleWith s now v = Ok v' /\
    state_inv route v' /\
    in_route (Z.of_nat (List.length route))
             (Sim.currentRouteIndex v' + Sim.direction v') /\
    Sim.direction v' = - Sim.direction v.
Proof.
  intros Hr Hout Hdir.
  exists (repaired v). split; [now apply client_tick_out_of_route|].
  unfold next_out_of_route in Hout. rewrite Hr in Hout.
  destruct Hout as [Hlen _].
  unfold repaired, state_inv, in_route. rewrite Hr. cbn.
  destruct Hdir as [-> | ->]; cbn;
    (split; [split; [reflexivity|];
             split; [lia|];
             split; [exists 0%R; split; [reflexivity|lra]|lia]|]);
    split; lia.
Qed.

Lemma repair_restores_invariants_witness :
  exists v',
    VehicleService.tickVehicleWith (Num 0.01) "t"%string
      VehicleService.backwards_at_start = Ok v' /\
    Sim.direction v' = 1.
Proof.
  destruct (@repair_restores_invariants (Num 0.01) "t"%string
              [coord 24.715722 46.672611; coord 24.711389 46.674444]
              VehicleService.backwards_at_start)
    as (v' & Ht & _ & _ & Hd).
  - reflexivity.
  - unfold next_out_of_route, in_route; cbn. split; lia.
  - now right.
  - exists v'. split; [exact Ht|exact Hd].
Defined.

End Legs.

Section SocketLegs.

Import SocketUtils LocationUtils.
Local Open Scope Z_scope.

(** X15. In the socket utilities, a vehicle with a route of at least two points
    and a progress in [0,1) keeps both through a tick, which never throws:
    on the last point of the route the tick rewinds it to index 0 and to
    its original location (not to the first way point) with heading 0;
    elsewhere the index stays or advances by one. *)
Theorem socket_tick_preserves_invariants
    (now : timestamp) (route : list coordinate) (v : simVehicle) :
  (2 <= List.length route)%nat ->
  socket_inv route v ->
  exists v',
    tickVehicle now v = Ok v' /\
    socket_inv route v' /\
    (currentRouteIndex v = Z.of_nat (List.length route) - 1 ->
       currentRouteIndex v' = 0 /\
       Vehicle.location (base v') = originalLocation v /\
       Vehicle.heading (base v') = Num 0 /\
       progress v' = progress v) /\
    (currentRouteIndex v < Z.of_nat (List.length route) - 1 ->
       currentRouteIndex v' = currentRouteIndex v \/
       currentRouteIndex v' = currentRouteIndex v + 1).
Proof.
  intros Hlen (Hr & Hidx & p & Hp & Hp01). unfold in_route in Hidx.
  unfold tickVehicle. rewrite Hr.
  set (len := Z.of_nat (List.length route)) in *.
  destruct (1 <? len) eqn:E1; zbool; [|lia].
  destruct (currentRouteIndex v >=? len - 1) eqn:E2; zbool.
  - eexists. split; [reflexivity|]. split.
    + unfold socket_inv, in_route; cbn. fold len.
      split; [first [assumption|reflexivity]|]. split; [lia|]. exists p. now split.
    + split; [intros _; cbn; repeat split|intros H; lia].
  - destruct (@lookup_in_range _ route (currentRouteIndex v)) as [cur ->];
      [fold len; lia|].
    destruct (@lookup_in_range _ route (currentRouteIndex v + 1)) as [nxt ->];
      [fold len; lia|].
    rewrite Hp. cbn [JS.toNumber JS.add lift2 JS.geb].
    destruct (Rle_dec 1 (p + 0.0005)) as [Hge|Hlt];
      (eexists; split; [reflexivity|]); (split; [|split; [intros H; lia|]]).
    + unfold socket_inv, in_route; cbn. fold len.
      split; [first [assumption|reflexivity]|]. split; [lia|].
      exists 0%R. split; [reflexivity|lra].
    + intros _. cbn. now right.
    + unfold socket_inv, in_route; cbn. fold len.
      split; [first [assumption|reflexivity]|]. split; [lia|].
      exists (p + 0.0005)%R. split; [reflexivity|lra].
    + intros _. cbn. now left.
Qed.

Lemma socket_tick_preserves_invariants_witness :
  exists v',
    tickVehicle "t"%string (socket_shuttle [coord 0 0; coord 0 1] 0.5) = Ok v' /\
    socket_inv [coord 0 0; coord 0 1] v'.
Proof.
  destruct (@socket_tick_preserves_invariants "t"%string
              [coord 0 0; coord 0 1] (socket_shuttle [coord 0 0; coord 0 1] 0.5))
    as (v' & Ht & Hinv & _).
  - cbn. lia.
  - unfold socket_inv, in_route, socket_shuttle; cbn.
    split; [reflexivity|]. split; [lia|].
    exists 0.5%R. split; [reflexivity|lra].
  - exists v'. split; assumption.
Defined.

(** X16. In the socket utilities the tick that completes a leg advances the
    index but interpolates with the progress it has just reset: the vehicle
    is shown back on the way point it left, not on the one it reached. *)
Theorem socket_arrival_jumps_back
    (now : timestamp) (route : list coordinate) (v : simVehicle)
    (p la lo la' lo' : R) :
  fixedRoute v = Some route ->
  currentRouteIndex v < Z.of_nat (List.length route) - 1 ->
  lookup route (currentRouteIndex v) = Some (coord la lo) ->
  lookup route (currentRouteIndex v + 1) = Some (coord la' lo') ->
  progress v = Some (Num p) ->
  (1 <= p + 0.0005)%R ->
  exists v',
    tickVehicle now v = Ok v' /\
    currentRouteIndex v' = currentRouteIndex v + 1 /\
    progress v' = Some (Num 0) /\
    Vehicle.location (base v') = coord la lo /\
    Vehicle.heading (base v') =
      calculateBearing (Some (coord la lo)) (Some (coord la' lo')).
Proof.
  intros Hr Hidx Hc Hn Hp Hge.
  pose proof (lookup_Some_in_range _ _ Hc) as Hin.
  unfold tickVehicle. rewrite Hr, Hc, Hn, Hp.
  destruct (1 <? Z.of_nat (List.length route)) eqn:E1; zbool; [|lia].
  destruct (currentRouteIndex v >=? Z.of_nat (List.length route) - 1) eqn:E2;
    zbool; [lia|].
  cbn [JS.toNumber JS.add lift2 JS.geb].
  destruct (Rle_dec 1 (p + 0.0005)); [|lra].
  eexists. split; [reflexivity|]. cbn.
  repeat split. apply mk_coord_eq; ring.
Qed.

Lemma socket_arrival_jumps_back_witness :
  exists v',
    tickVehicle "t"%string
      (socket_shuttle [coord 0 0; coord 0 1; coord 1 1] 0.9996) = Ok v' /\
    currentRouteIndex v' = 1 /\
    Vehicle.location (base v') = coord 0 0.
Proof.
  destruct (@socket_arrival_jumps_back "t"%string
              [coord 0 0; coord 0 1; coord 1 1]
              (socket_shuttle [coord 0 0; coord 0 1; coord 1 1] 0.9996)
              0.9996 0 0 0 1)
    as (v' & Ht & Hi & _ & Hl & _).
  - reflexivity.
  - cbn. lia.
  - reflexivity.
  - reflexivity.
  - reflexivity.
  - lra.
  - exists v'. split; [exact Ht|]. split; assumption.
Defined.

End SocketLegs.

(* ================================================================== *)
(** * More on the life cycle *)
(* ================================================================== *)

Section StopAndSchedules.

Variable V : Type.
Variable tick : timestamp -> V -> outcome V.
Variable written : V -> V.

Local Abbreviation runS := (run tick written).
Local Abbreviation fireS := (fire tick written).

Lemma stop_twice (st : state V) :
  stopVehicleSimulation (stopVehicleSimulation st) = stopVehicleSimulation st.
Proof.
  unfold stopVehicleSimulation. destruct (simulationInterval st); reflexivity.
Qed.

(** X17. [stopVehicleSimulation] is idempotent: any number of further stops
    changes nothing; a stop leaves no vehicles and no held timer, and does
    not touch the starts still awaiting their lookups. *)
Theorem stop_is_idempotent (st : state V) (n : nat) :
  runS st (repeat Stop (S n)) = stopVehicleSimulation st /\
  simulatedVehicles (stopVehicleSimulation st) = [] /\
  simulationInterval (stopVehicleSimulation st) = None /\
  pending (stopVehicleSimulation st) = pending st /\
  emitted (stopVehicleSimulation st) = emitted st.
Proof.
  split.
  - induction n as [|n IH]; [reflexivity|].
    change (repeat Stop (S (S n))) with (@Stop V :: repeat Stop (S n)).
    unfold run in *. cbn [fold_left step] in *.
    rewrite <- stop_twice in IH at 1.
    cbn [repeat fold_left step] in IH |- *. rewrite stop_twice.
    rewrite stop_twice in IH. exact IH.
  - unfold stopVehicleSimulation. destruct (simulationInterval st) eqn:E; cbn;
      repeat split; try reflexivity; exact E.
Qed.

Lemma fire_dead (h : nat) (now : timestamp) (st : state V) :
  intervals st = [] -> fireS h now st = st.
Proof. intros H. unfold fire. now rewrite H. Qed.

Lemma fires_dead (es : list (event V)) (st : state V) :
  Forall (@is_fire V) es -> intervals st = [] -> runS st es = st.
Proof.
  intros Hes. revert st. induction Hes as [|e es He _ IH]; intros st Hiv.
  - reflexivity.
  - destruct e as [| |h now|]; try contradiction.
    unfold run. cbn [fold_left step]. rewrite fire_dead by exact Hiv.
    now apply IH.
Qed.

(** X18. After a stop of a simulation started serially no timer is live: no
    later firing changes the state or reaches a callback. *)
Theorem stop_silences_the_simulation (st : state V) (fires : list (event V)) :
  quiescent st ->
  Forall (@is_fire V) fires ->
  activeTimers (stopVehicleSimulation st) = 0%nat /\
  runS (stopVehicleSimulation st) fires = stopVehicleSimulation st /\
  emitted (runS (stopVehicleSimulation st) fires) = emitted st.
Proof.
  intros [Hp Hiv] Hf.
  assert (Hdead : intervals (stopVehicleSimulation st) = []).
  { unfold stopVehicleSimulation.
    destruct (simulationInterval st) as [h|].
    - destruct Hiv as [cb ->]. cbn. now rewrite Nat.eqb_refl.
    - exact Hiv. }
  split; [unfold activeTimers; now rewrite Hdead|].
  rewrite fires_dead by assumption.
  split; [reflexivity|].
  unfold stopVehicleSimulation. destruct (simulationInterval st); reflexivity.
Qed.

Lemma quiescent_stop (st : state V) :
  quiescent st -> quiescent (stopVehicleSimulation st).
Proof.
  intros [Hp Hiv]. unfold quiescent, stopVehicleSimulation.
  destruct (simulationInterval st) as [h|] eqn:E; cbn.
  - split; [exact Hp|]. destruct Hiv as [cb ->]. cbn. now rewrite Nat.eqb_refl.
  - try rewrite E. split; assumption.
Qed.

Lemma quiescent_fire (h : nat) (now : timestamp) (st : state V) :
  quiescent st -> quiescent (fireS h now st).
Proof.
  intros Hq. unfold fire.
  destruct (find _ (intervals st)) as [[h' cb]|]; [|exact Hq].
  destruct (tickAll tick written now (simulatedVehicles st)) as [olds [vs|]];
    exact Hq.
Qed.

Lemma quiescent_failed_start (st : state V) (cb : option callback) :
  quiescent st ->
  let st' := runS st [Start Throw cb; Resume 0] in
  quiescent st' /\ activeTimers st' = 0%nat /\
  simulatedVehicles st' = [] /\ emitted st' = emitted st.
Proof.
  intros [Hp Hiv]. destruct st as [sv si ivs nh pend em]. cbn in *. subst pend.
  unfold run, quiescent, activeTimers; cbn.
  unfold startVehicleSimulation, stopVehicleSimulation, resume.
  destruct si as [h|]; cbn.
  - destruct Hiv as [cb0 ->]. cbn. rewrite Nat.eqb_refl. cbn. repeat split.
  - subst ivs. repeat split.
Qed.

(** X19. When the joined route lookups of a start reject (on the server, when
    one vehicle's initialisation throws), the simulator is left stopped:
    the previous simulation has been torn down, no timer is installed, no
    vehicles are held, and no callback is ever invoked. *)
Theorem failed_start_leaves_simulator_stopped
    (st : state V) (cb : option callback) (fires : list (event V)) :
  quiescent st ->
  Forall (@is_fire V) fires ->
  let st' := runS st [Start Throw cb; Resume 0] in
  activeTimers st' = 0%nat /\
  simulatedVehicles st' = [] /\
  emitted (runS st' fires) = emitted st.
Proof.
  intros Hq Hf st'.
  destruct (@quiescent_failed_start st cb Hq) as ([_ Hiv] & Hat & Hsv & Hem).
  fold st' in Hiv, Hat, Hsv, Hem.
  split; [exact Hat|]. split; [exact Hsv|].
  rewrite fires_dead; [exact Hem|exact Hf|].
  unfold activeTimers in Hat. now apply length_zero_iff_nil.
Qed.

(** X20. A stop issued while a start still awaits its route lookups does not
    cancel that start: when the lookups settle the start installs its
    timer and its vehicles all the same, and the simulation runs although
    stop was the last call made. *)
Theorem stop_does_not_cancel_a_pending_start
    (st : state V) (vehicles : list V) (cb : option callback) :
  quiescent st ->
  let st' := runS st [Start (Ok vehicles) cb; Stop; Resume 0] in
  activeTimers st' = 1%nat /\
  intervals st' = [(nextHandle st, cb)] /\
  simulationInterval st' = Some (nextHandle st) /\
  simulatedVehicles st' = vehicles.
Proof.
  intros [Hp Hiv]. destruct st as [sv si ivs nh pend em]. cbn in *. subst pend.
  unfold run, activeTimers; cbn.
  unfold startVehicleSimulation, stopVehicleSimulation, resume.
  destruct si as [h|]; cbn.
  - destruct Hiv as [cb0 ->]. cbn. rewrite Nat.eqb_refl. cbn. repeat split.
  - subst ivs. repeat split.
Qed.

(** X21. In a serial schedule (no start issued while another still awaits its
    lookups) the simulator never holds more than one timer, and that timer
    is the one [simulationInterval] refers to. *)
Theorem serial_schedules_hold_one_timer (es : list (event V)) (st : state V) :
  serial es ->
  quiescent st ->
  quiescent (runS st es) /\ (activeTimers (runS st es) <= 1)%nat.
Proof.
  intros Hes Hq.
  assert (Hfinal : quiescent (runS st es)).
  { revert st Hq. induction Hes as [|lookups cb es _ IH|h now es _ IH|es _ IH];
      intros st Hq.
    - exact Hq.
    - change (runS st (Start lookups cb :: Resume 0 :: es))
        with (runS (runS st [Start lookups cb; Resume 0]) es).
      apply IH. destruct lookups as [vehicles|].
      + now apply start_when_quiescent.
      + now apply quiescent_failed_start.
    - change (runS st (Fire h now :: es)) with (runS (fireS h now st) es).
      apply IH. now apply quiescent_fire.
    - change (runS st (Stop :: es)) with (runS (stopVehicleSimulation st) es).
      apply IH. now apply quiescent_stop. }
  split; [exact Hfinal|].
  destruct Hfinal as [_ Hiv]. unfold activeTimers.
  destruct (simulationInterval (runS st es)).
  - destruct Hiv as [cb ->]. cbn. lia.
  - rewrite Hiv. cbn. lia.
Qed.

End StopAndSchedules.

Lemma stop_silences_the_simulation_witness :
  activeTimers
    (stopVehicleSimulation
       (run Server.tickVehicle Server.written (initial Sim.t) [Start (Ok []) (Some 7%nat); Resume 0])) = 0%nat.
Proof.
  apply (@stop_silences_the_simulation Sim.t Server.tickVehicle Server.written
           (run Server.tickVehicle Server.written (initial Sim.t) [Start (Ok []) (Some 7%nat); Resume 0])
           [Fire 1 "t"%string]).
  - split; [reflexivity|]. cbn. now exists (Some 7%nat).
  - repeat constructor.
Defined.

Lemma failed_start_leaves_simulator_stopped_witness :
  activeTimers
    (run Server.tickVehicle Server.written (run Server.tickVehicle Server.written (initial Sim.t) [Start (Ok []) (Some 7%nat); Resume 0])
          [Start Throw (Some 8%nat); Resume 0]) = 0%nat.
Proof.
  apply (@failed_start_leaves_simulator_stopped Sim.t Server.tickVehicle Server.written
           (run Server.tickVehicle Server.written (initial Sim.t) [Start (Ok []) (Some 7%nat); Resume 0])
           (Some 8%nat) [Fire 1 "t"%string]).
  - split; [reflexivity|]. cbn. now exists (Some 7%nat).
  - repeat constructor.
Defined.

Lemma stop_does_not_cancel_a_pending_start_witness :
  activeTimers (run Server.tickVehicle Server.written (initial Sim.t) [Start (Ok []) (Some 7%nat); Stop; Resume 0]) =
    1%nat.
Proof.
  apply (@stop_does_not_cancel_a_pending_start Sim.t Server.tickVehicle Server.written (initial Sim.t) [] (Some 7%nat)).
  split; reflexivity.
Defined.

Lemma serial_schedules_hold_one_timer_witness :
  (activeTimers
     (run Server.tickVehicle Server.written (initial Sim.t)
        [Start (Ok []) (Some 7%nat); Resume 0; Fire 1 "t"%string;
         Start (Ok []) (Some 8%nat); Resume 0]) <= 1)%nat.
Proof.
  apply (@serial_schedules_hold_one_timer Sim.t Server.tickVehicle Server.written
           [Start (Ok []) (Some 7%nat); Resume 0; Fire 1 "t"%string;
            Start (Ok []) (Some 8%nat); Resume 0] (initial Sim.t)).
  - repeat constructor.
  - split; reflexivity.
Defined.


(* ================================================================== *)
(** * Route lookups and their table *)
(* ================================================================== *)

Section RouteTable.

Import MapService.

Lemma table_get_set_same (t : table) (k : string) (e : fixedEntry) :
  table_get (table_set t k e) k = Some e.
Proof. unfold table_get, table_set. cbn. now rewrite String.eqb_refl. Qed.

Lemma table_get_set_other (t : table) (k k' : string) (e : fixedEntry) :
  k <> k' -> table_get (table_set t k e) k' = table_get t k'.
Proof.
  intros Hk. unfold table_get, table_set. cbn.
  destruct (String.eqb_spec k k') as [E|_]; [contradiction|].
  f_equal. induction t as [|[k0 e0] t IH]; cbn; [reflexivity|].
  destruct (String.eqb_spec k0 k) as [->|Hk0]; cbn.
  - destruct (String.eqb_spec k k'); [contradiction|exact IH].
  - destruct (String.eqb k0 k'); [reflexivity|exact IH].
Qed.

Lemma usable_location_spec (vehicle : Vehicle.t) :
  negb (JS.truthy (latitude (Vehicle.location vehicle))) ||
  negb (JS.truthy (longitude (Vehicle.location vehicle))) =
  negb (usable_location vehicle).
Proof.
  unfold usable_location.
  destruct (JS.truthy _), (JS.truthy _); reflexivity.
Qed.


Lemma table_read_ordinary (t : table) (k : string) :
  inherited k = false ->
  table_read t k = match table_get t k with
                   | Some e => Own e
                   | None => Undefined
                   end.
Proof. intros H. unfold table_read. rewrite H. reflexivity. Qed.

Lemma with_coordinates_init
    (routeInfo : routeInfo) (r : routeT) (coords : list coordinate) :
  route routeInfo = Some r -> coordinates r = Some coords ->
  forall sv,
    Sim.fixedRoute (VehicleService.initVehicle (Ok routeInfo) sv) =
      Some (VehicleService.bidirectional coords) /\
    SocketUtils.fixedRoute (SocketUtils.initVehicle (Ok routeInfo) sv) =
      Some coords.
Proof.
  intros Hr Hc sv. unfold VehicleService.initVehicle, SocketUtils.initVehicle.
  rewrite Hr, Hc. split; reflexivity.
Qed.

Lemma without_coordinates_init (routeInfo : routeInfo) (r : routeT) :
  route routeInfo = Some r -> coordinates r = None ->
  forall sv,
    Sim.fixedRoute (VehicleService.initVehicle (Ok routeInfo) sv) = None /\
    SocketUtils.initVehicle (Ok routeInfo) sv = SocketUtils.withoutRoute sv.
Proof.
  intros Hr Hc sv. unfold VehicleService.initVehicle, SocketUtils.initVehicle.
  rewrite Hr, Hc. split; reflexivity.
Qed.

(** X22. With the predefined route table [generateVehicleRoute] always resolves,
    and always with a route object: the rejection its callers guard
    against cannot come from it.  The route has coordinates, and both
    clients bind the vehicle to them, except when the vehicle's id names a
    property of [Object.prototype] that the table does not hold itself:
    the lookup then takes the inherited value for a stored route, answers
    without coordinates and stores nothing, the client service leaves the
    vehicle without a route, and the socket utilities' spread throws into
    their [catch] clause. *)
Theorem generateVehicleRoute_always_resolves
    (fixedRoutes : table) (vehicle : option Vehicle.t)
    (userLocation : option coordinate)
    (fetch : outcome (option Directions.t)) (u v : number) :
  exists routeInfo fixedRoutes' r,
    generateVehicleRoute fixedRoutes vehicle userLocation fetch u v =
      Ok (routeInfo, fixedRoutes') /\
    route routeInfo = Some r /\
    ((reads_prototype fixedRoutes vehicle userLocation /\
      coordinates r = None /\ fixedRoutes' = fixedRoutes /\
      forall sv,
        Sim.fixedRoute (VehicleService.initVehicle (Ok routeInfo) sv) = None /\
        SocketUtils.initVehicle (Ok routeInfo) sv =
          SocketUtils.withoutRoute sv) \/
     (~ reads_prototype fixedRoutes vehicle userLocation /\
      exists coords,
        coordinates r = Some coords /\
        forall sv,
          Sim.fixedRoute (VehicleService.initVehicle (Ok routeInfo) sv) =
            Some (VehicleService.bidirectional coords) /\
          SocketUtils.fixedRoute (SocketUtils.initVehicle (Ok routeInfo) sv) =
            Some coords)).
Proof.
  assert (Hwith : forall routeInfo fixedRoutes' r coords,
            ~ reads_prototype fixedRoutes vehicle userLocation ->
            route routeInfo = Some r -> coordinates r = Some coords ->
            exists routeInfo0 fixedRoutes0 r0,
              Ok (routeInfo, fixedRoutes') = Ok (routeInfo0, fixedRoutes0) /\
              route routeInfo0 = Some r0 /\
              ((reads_prototype fixedRoutes vehicle userLocation /\
                coordinates r0 = None /\ fixedRoutes0 = fixedRoutes /\
                forall sv,
                  Sim.fixedRoute
                    (VehicleService.initVehicle (Ok routeInfo0) sv) = None /\
                  SocketUtils.initVehicle (Ok routeInfo0) sv =
                    SocketUtils.withoutRoute sv) \/
               (~ reads_prototype fixedRoutes vehicle userLocation /\
                exists coords0,
                  coordinates r0 = Some coords0 /\
                  forall sv,
                    Sim.fixedRoute
                      (VehicleService.initVehicle (Ok routeInfo0) sv) =
                      Some (VehicleService.bidirectional coords0) /\
                    SocketUtils.fixedRoute
                      (SocketUtils.initVehicle (Ok routeInfo0) sv) =
                      Some coords0))).
  { intros routeInfo fixedRoutes' r coords Hno Hr Hc.
    exists routeInfo, fixedRoutes', r.
    split; [reflexivity|]. split; [exact Hr|]. right.
    split; [exact Hno|]. exists coords. split; [exact Hc|].
    now apply with_coordinates_init with r. }
  unfold generateVehicleRoute.
  destruct vehicle as [vehicle|].
  2:{ eapply Hwith; [|reflexivity|reflexivity].
      intros (v0 & E & _). discriminate E. }
  destruct userLocation as [userLocation|].
  2:{ eapply Hwith; [|reflexivity|reflexivity].
      intros (v0 & _ & E & _). now apply E. }
  rewrite usable_location_spec.
  destruct (usable_location vehicle) eqn:Hus; cbn [negb].
  2:{ eapply Hwith; [|reflexivity|reflexivity].
      intros (v0 & E & _ & Hu & _). injection E as <-. congruence. }
  destruct (table_read fixedRoutes (Vehicle.id vehicle)) as [entry| |] eqn:Hread.
  - eapply Hwith; [|reflexivity|reflexivity].
    intros (v0 & E & _ & _ & Hi). injection E as <-. congruence.
  - do 3 eexists. split; [reflexivity|]. split; [reflexivity|]. left.
    split.
    { exists vehicle. split; [reflexivity|]. split; [discriminate|].
      split; assumption. }
    split; [reflexivity|]. split; [reflexivity|].
    intros sv. eapply without_coordinates_init; reflexivity.
  - destruct (findRoute_has_endpoints (Vehicle.routeId vehicle))
      as (routeData & sc & ec & -> & -> & ->).
    destruct (match fetch with
              | Ok (Some d) =>
                  if (0 <? List.length (Directions.coordinates d))%nat
                  then Some d else None
              | _ => None
              end);
      (eapply Hwith; [|reflexivity|reflexivity]);
      intros (v0 & E & _ & _ & Hi); injection E as <-; congruence.
Qed.

Lemma generateVehicleRoute_always_resolves_witness :
  exists routeInfo r,
    generateVehicleRoute []
      (Some (Vehicle.mk "constructor" "Bus 1" "bus" "Bus #1" "route-1" 8
               (Num 30) (Num 0) (coord 24.7157 46.6726) "t"%string))
      (Some DEFAULT_REGION) (Ok None) (Num 0) (Num 0) = Ok (routeInfo, []) /\
    route routeInfo = Some r /\
    coordinates r = None.
Proof.
  destruct (@generateVehicleRoute_always_resolves []
              (Some (Vehicle.mk "constructor" "Bus 1" "bus" "Bus #1" "route-1" 8
                       (Num 30) (Num 0) (coord 24.7157 46.6726) "t"%string))
              (Some DEFAULT_REGION) (Ok None) (Num 0) (Num 0))
    as (routeInfo & fixedRoutes' & r & Hgen & Hr & Hcases).
  destruct Hcases as [(_ & Hc & -> & _) | (Hno & _)].
  - exists routeInfo, r. split; [exact Hgen|]. split; [exact Hr|exact Hc].
  - exfalso. apply Hno. eexists. split; [reflexivity|].
    split; [discriminate|]. split; [|reflexivity].
    unfold usable_location; cbn.
    destruct (Req_dec_T 24.7157 0); [lra|].
    destruct (Req_dec_T 46.6726 0); [lra|reflexivity].
Defined.



(** X24. A vehicle whose latitude or longitude is 0 or [NaN] counts as having
    no location: the lookup answers with the empty "Unknown Route" and
    stores nothing, the client service binds the vehicle to an empty
    route, and no tick ever moves it. *)
Theorem unusable_location_keeps_vehicle_still
    (fixedRoutes : table) (vehicle : Vehicle.t) (userLocation : coordinate)
    (fetch : outcome (option Directions.t)) (u v : number)
    (step : number) (nows : list timestamp) :
  usable_location vehicle = false ->
  generateVehicleRoute fixedRoutes (Some vehicle) (Some userLocation)
    fetch u v = Ok (unknownRoute, fixedRoutes) /\
  Sim.fixedRoute (VehicleService.initVehicle (Ok unknownRoute) vehicle) =
    Some [] /\
  client_ticks step nows (VehicleService.initVehicle (Ok unknownRoute) vehicle) =
    Ok (VehicleService.initVehicle (Ok unknownRoute) vehicle).
Proof.
  intros Hloc. split; [|split; [reflexivity|]].
  - unfold generateVehicleRoute. rewrite usable_location_spec, Hloc. reflexivity.
  - induction nows as [|now nows IH]; [reflexivity|].
    cbn [client_ticks]. rewrite client_tick_short; [exact IH|].
    unfold short_route. cbn. lia.
Qed.

Lemma unusable_location_keeps_vehicle_still_witness :
  Sim.fixedRoute
    (VehicleService.initVehicle (Ok unknownRoute)
       (Vehicle.mk "vehicle-9" "Bus 10" "bus" "Bus #1" "route-1" 8
          (Num 30) (Num 0) (coord 0 46.6726) "t"%string)) = Some [].
Proof.
  apply (@unusable_location_keeps_vehicle_still [] 
           (Vehicle.mk "vehicle-9" "Bus 10" "bus" "Bus #1" "route-1" 8
              (Num 30) (Num 0) (coord 0 46.6726) "t"%string)
           DEFAULT_REGION (Ok None) (Num 0) (Num 0) (Num 0.01) []).
  unfold usable_location; cbn.
  destruct (Req_dec_T 0 0); [reflexivity|contradiction].
Defined.

End RouteTable.

(* ================================================================== *)
(** * Polyline decoding *)
(* ================================================================== *)

Section PolylineFacts.

Import Polyline.
Local Open Scope Z_scope.

Lemma toInt32_small (z : Z) : - 2 ^ 31 <= z < 2 ^ 31 -> toInt32 z = z.
Proof.
  intros H. unfold toInt32. rewrite Z.mod_small; lia.
Qed.

Lemma land_below_shiftl (a x s : Z) :
  0 <= s -> 0 <= a < 2 ^ s -> Z.land a (Z.shiftl x s) = 0.
Proof.
  intros Hs Ha. apply Z.bits_inj'. intros n Hn.
  rewrite Z.land_spec, Z.bits_0.
  destruct (Z.ltb_spec n s) as [Hlt | Hge].
  - rewrite (Z.shiftl_spec_low x s n Hlt). apply andb_false_r.
  - rewrite <- (Z.mod_small a (2 ^ s)) by lia.
    rewrite Z.mod_pow2_bits_high by lia. reflexivity.
Qed.

(** One group of five bits is added above the bits already read. *)
Lemma group_step (acc b s : Z) :
  0 <= s <= 25 -> 0 <= acc < 2 ^ s -> 0 <= b < 2 ^ 31 ->
  or32 acc (shl32 (and32 b 31) s) = acc + (b mod 32) * 2 ^ s.
Proof.
  intros Hs Hacc Hb.
  assert (Hp : 2 ^ s <= 2 ^ 25) by (apply Z.pow_le_mono_r; lia).
  assert (Hm : 0 <= b mod 32 < 32) by (apply Z.mod_pos_bound; lia).
  assert (Hand : and32 b 31 = b mod 32).
  { unfold and32. rewrite (@toInt32_small b) by lia.
    rewrite (@toInt32_small 31) by lia.
    change 31 with (Z.ones 5). rewrite Z.land_ones by lia.
    change (2 ^ 5) with 32. apply toInt32_small. lia. }
  assert (Hshl : shl32 (and32 b 31) s = (b mod 32) * 2 ^ s).
  { unfold shl32. rewrite Hand. rewrite (@toInt32_small (b mod 32)) by lia.
    rewrite (Z.mod_small s 32) by lia.
    rewrite Z.shiftl_mul_pow2 by lia. apply toInt32_small. nia. }
  rewrite Hshl. unfold or32.
  rewrite (@toInt32_small acc) by lia.
  rewrite (@toInt32_small (b mod 32 * 2 ^ s)) by nia.
  assert (Hl : Z.land acc (b mod 32 * 2 ^ s) = 0).
  { rewrite <- Z.shiftl_mul_pow2 by lia. apply land_below_shiftl; lia. }
  pose proof (Z.add_lor_land acc (b mod 32 * 2 ^ s)) as Hadd.
  rewrite Hl, Z.add_0_r in Hadd. rewrite Hadd.
  apply toInt32_small. nia.
Qed.

Lemma charCode_chr (z : Z) : 0 <= z < 256 -> charCode (chr z) = z.
Proof.
  intros H. unfold charCode, chr.
  rewrite Ascii.N_ascii_embedding by lia. lia.
Qed.

Lemma charCode_range (c : Ascii.ascii) : 0 <= charCode c < 256.
Proof.
  unfold charCode. pose proof (Ascii.N_ascii_bounded c). lia.
Qed.

(** Reading never leaves more of the string than it was given, and a
    string that is not empty loses at least one character. *)
Lemma readChunk_shorter (encoded : string) :
  forall shift result,
    (String.length (snd (readChunk encoded shift result))
       <= Nat.pred (String.length encoded))%nat.
Proof.
  induction encoded as [| c rest IH]; intros shift result; cbn [readChunk].
  - cbn. lia.
  - cbv zeta. destruct (32 <=? charCode c - 63).
    + specialize (IH (shift + 5) (or32 result (shl32 (and32 (charCode c - 63) 31) shift))).
      cbn [String.length Nat.pred]. lia.
    + cbn. lia.
Qed.

Lemma decodeFrom_total (fuel : nat) :
  forall encoded lat lng,
    (String.length encoded <= fuel)%nat ->
    exists points,
      decodeFrom fuel encoded lat lng = Some points /\
      (2 * List.length points <= String.length encoded + 1)%nat.
Proof.
  induction fuel as [| fuel IH]; intros encoded lat0 lng0 Hlen.
  - destruct encoded; [| cbn in Hlen; lia].
    exists []. split; [reflexivity | cbn; lia].
  - destruct encoded as [| c rest].
    + exists []. split; [reflexivity | cbn; lia].
    + cbn [decodeFrom].
      pose proof (readChunk_shorter (String c rest) 0 0) as H1.
      destruct (readChunk (String c rest) 0 0) as [r1 rest1].
      pose proof (readChunk_shorter rest1 0 0) as H2.
      destruct (readChunk rest1 0 0) as [r2 rest2].
      cbn [snd String.length Nat.pred] in H1, H2.
      cbn [String.length] in Hlen.
      destruct (IH rest2 (lat0 + delta r1) (lng0 + delta r2)) as (pts & E & Hn).
      { lia. }
      rewrite E. eexists. split; [reflexivity |].
      cbn [List.length String.length].
      destruct rest1 as [| c1 rest1'].
      * cbn in H2. destruct rest2; [| cbn in H2; lia].
        cbn in E. destruct fuel; injection E as <-; cbn; lia.
      * cbn [String.length Nat.pred] in H1, H2. lia.
Qed.

(** X25. The decoder returns on every string, with at most one point for each
    two characters (a last point may be read from a single one). *)
Theorem decodePolyline_always_returns (encoded : string) :
  exists points,
    decodePolyline encoded = Some points /\
    (2 * List.length points <= String.length encoded + 1)%nat.
Proof.
  apply decodeFrom_total. lia.
Qed.

(** The empty string decodes to no point, and no other string does. *)
Theorem decodePolyline_empty_iff (encoded : string) :
  decodePolyline encoded = Some [] <-> encoded = EmptyString.
Proof.
  split.
  - destruct encoded as [| c rest]; [reflexivity |].
    unfold decodePolyline. cbn [String.length decodeFrom].
    destruct (readChunk (String c rest) 0 0) as [r1 rest1].
    destruct (readChunk rest1 0 0) as [r2 rest2].
    destruct (decodeFrom _ rest2 _ _); discriminate.
  - intros ->. reflexivity.
Qed.

Lemma encodeGroups_cons (fuel : nat) (v : Z) :
  exists c s, encodeGroups (S fuel) v = String c s.
Proof.
  cbn [encodeGroups]. destruct (32 <=? v); eauto.
Qed.

(** Reading back the groups of a value gives the value, above the bits
    already read, and stops at the end of the groups. *)
Lemma readChunk_encodeGroups (fuel : nat) :
  forall v s acc rest,
    0 <= v < 2 ^ (5 * Z.of_nat (S fuel)) ->
    0 <= s -> s + 5 * Z.of_nat (S fuel) <= 30 ->
    0 <= acc < 2 ^ s ->
    readChunk (encodeGroups (S fuel) v ++ rest)%string s acc
    = (acc + v * 2 ^ s, rest).
Proof.
  induction fuel as [| fuel IH]; intros v s acc rest Hv Hs Hb Hacc.
  - change (5 * Z.of_nat 1) with 5 in *. change (2 ^ 5) with 32 in Hv.
    cbn [encodeGroups].
    destruct (Z.leb_spec 32 v) as [H | H]; [lia |].
    cbn [String.append readChunk]. cbv zeta.
    rewrite charCode_chr by lia.
    replace (v + 63 - 63) with v by lia.
    destruct (Z.leb_spec 32 v) as [H' | _]; [lia |].
    rewrite group_step by lia. rewrite Z.mod_small by lia. reflexivity.
  - remember (S fuel) as f eqn:Ef.
    cbn [encodeGroups].
    destruct (Z.leb_spec 32 v) as [H | H].
    + cbn [String.append readChunk]. cbv zeta.
      assert (Hlow : Z.lor (Z.land v 31) 32 = v mod 32 + 32).
      { change 31 with (Z.ones 5). rewrite Z.land_ones by lia.
        change (2 ^ 5) with 32.
        assert (Hm : 0 <= v mod 32 < 32) by (apply Z.mod_pos_bound; lia).
        pose proof (Z.add_lor_land (v mod 32) 32) as Hadd.
        assert (Hl : Z.land (v mod 32) 32 = 0).
        { change 32 with (Z.shiftl 1 5) at 2.
          apply land_below_shiftl; [lia |]. change (2 ^ 5) with 32. lia. }
        lia. }
      rewrite Hlow.
      assert (Hm : 0 <= v mod 32 < 32) by (apply Z.mod_pos_bound; lia).
      rewrite charCode_chr by lia.
      replace (v mod 32 + 32 + 63 - 63) with (v mod 32 + 32) by lia.
      destruct (Z.leb_spec 32 (v mod 32 + 32)) as [_ | H']; [| lia].
      rewrite group_step by lia.
      replace ((v mod 32 + 32) mod 32) with (v mod 32).
      2:{ rewrite <- (Z.mul_1_l 32) at 3. rewrite Z.mod_add by lia.
          rewrite Z.mod_mod by lia. reflexivity. }
      rewrite Z.shiftr_div_pow2 by lia. change (2 ^ 5) with 32.
      assert (Hpow : 2 ^ (5 * Z.of_nat (S f)) = 32 * 2 ^ (5 * Z.of_nat f)).
      { replace (5 * Z.of_nat (S f)) with (5 + 5 * Z.of_nat f) by lia.
        rewrite Z.pow_add_r by lia. reflexivity. }
      assert (Hs5 : 2 ^ (s + 5) = 2 ^ s * 32).
      { rewrite Z.pow_add_r by lia. reflexivity. }
      subst f. rewrite IH.
      * f_equal. rewrite Hs5.
        pose proof (Z.div_mod v 32 ltac:(lia)) as Hdm. nia.
      * split; [apply Z.div_pos; lia |].
        apply Z.div_lt_upper_bound; lia.
      * lia.
      * lia.
      * rewrite Hs5. assert (0 < 2 ^ s) by (apply Z.pow_pos_nonneg; lia). nia.
    + cbn [String.append readChunk]. cbv zeta.
      rewrite charCode_chr by lia.
      replace (v + 63 - 63) with v by lia.
      destruct (Z.leb_spec 32 v) as [H' | _]; [lia |].
      rewrite group_step by lia. rewrite Z.mod_small by lia. reflexivity.
Qed.

Lemma zigzag_range (v : Z) :
  - 2 ^ 29 <= v < 2 ^ 29 ->
  0 <= zigzag v < 2 ^ 30 /\
  zigzag v = (if v <? 0 then - 2 * v - 1 else 2 * v).
Proof.
  intros H. unfold zigzag. rewrite Z.shiftl_mul_pow2 by lia.
  change (2 ^ 1) with 2.
  destruct (Z.ltb_spec v 0).
  - rewrite Z.lnot_eq_pred_opp. lia.
  - lia.
Qed.

Lemma delta_zigzag (v : Z) :
  - 2 ^ 29 <= v < 2 ^ 29 -> delta (zigzag v) = v.
Proof.
  intros H. destruct (zigzag_range H) as [Hr Hz].
  unfold delta, and32, sar32, not32.
  rewrite (@toInt32_small (zigzag v)) by lia.
  rewrite (@toInt32_small 1) by lia.
  change 1 with (Z.ones 1) at 1 2. rewrite Z.land_ones by lia.
  change (2 ^ 1) with 2. change (Z.ones 1) with 1. change (1 mod 32) with 1.
  rewrite Z.shiftr_div_pow2 by lia. change (2 ^ 1) with 2.
  assert (Hm : 0 <= zigzag v mod 2 < 2) by (apply Z.mod_pos_bound; lia).
  rewrite (@toInt32_small (zigzag v mod 2)) by lia.
  pose proof (Z.div_mod (zigzag v) 2 ltac:(lia)) as Hdm.
  destruct (Z.ltb_spec v 0) as [Hneg | Hpos].
  - assert (Hmod : zigzag v mod 2 = 1) by lia.
    rewrite Hmod. cbn [Z.eqb].
    rewrite toInt32_small by lia.
    rewrite Z.lnot_eq_pred_opp. lia.
  - assert (Hmod : zigzag v mod 2 = 0) by lia.
    rewrite Hmod. cbn [Z.eqb]. lia.
Qed.

Lemma readChunk_encodeValue (v : Z) (rest : string) :
  - 2 ^ 29 <= v < 2 ^ 29 ->
  readChunk (encodeValue v ++ rest)%string 0 0 = (zigzag v, rest).
Proof.
  intros H. destruct (zigzag_range H) as [Hr _].
  unfold encodeValue. rewrite readChunk_encodeGroups.
  - f_equal. lia.
  - change (5 * Z.of_nat 6) with 30. lia.
  - lia.
  - change (5 * Z.of_nat 6) with 30. lia.
  - change (2 ^ 0) with 1. lia.
Qed.

Lemma append_assoc (a b c : string) :
  ((a ++ b) ++ c = a ++ (b ++ c))%string.
Proof.
  induction a as [| x a IH]; cbn; [reflexivity | now rewrite IH].
Qed.

Lemma decodeFrom_encodeFrom (points : list (Z * Z)) :
  forall fuel lat lng,
    (List.length points <= fuel)%nat ->
    small_steps points lat lng ->
    decodeFrom fuel (encodeFrom points lat lng) lat lng
    = Some (map scaled points).
Proof.
  induction points as [| [la lo] rest IH]; intros fuel lat0 lng0 Hf Hs.
  - destruct fuel; reflexivity.
  - cbn [small_steps] in Hs. destruct Hs as (Hla & Hlo & Hrest).
    cbn [List.length] in Hf. destruct fuel as [| fuel]; [lia |].
    cbn [encodeFrom].
    destruct (encodeGroups_cons 5 (zigzag (la - lat0))) as (c & s & Ec).
    assert (Ehead : exists tl,
      (encodeValue (la - lat0) ++ encodeValue (lo - lng0) ++ encodeFrom rest la lo)%string
      = String c tl).
    { unfold encodeValue at 1. rewrite Ec. cbn [String.append]. eauto. }
    destruct Ehead as (tl & Ehead).
    cbn [decodeFrom]. rewrite Ehead. rewrite <- Ehead.
    rewrite readChunk_encodeValue by lia.
    rewrite readChunk_encodeValue by lia.
    rewrite !delta_zigzag by lia.
    replace (lat0 + (la - lat0)) with la by lia.
    replace (lng0 + (lo - lng0)) with lo by lia.
    rewrite IH by (assumption || lia).
    reflexivity.
Qed.

Lemma encodeGroups_length (fuel : nat) :
  forall v, (1 <= String.length (encodeGroups (S fuel) v))%nat.
Proof.
  intros v. cbn [encodeGroups]. destruct (32 <=? v); cbn [String.length]; lia.
Qed.

Lemma append_length (a b : string) :
  String.length (a ++ b)%string = (String.length a + String.length b)%nat.
Proof.
  induction a as [| x a IH]; cbn; [reflexivity | now rewrite IH].
Qed.

Lemma encodeFrom_length (points : list (Z * Z)) :
  forall lat lng,
    (2 * List.length points <= String.length (encodeFrom points lat lng))%nat.
Proof.
  induction points as [| [la lo] rest IH]; intros lat0 lng0.
  - cbn. lia.
  - cbn [encodeFrom List.length]. rewrite !append_length.
    pose proof (encodeGroups_length 5 (zigzag (la - lat0))).
    pose proof (encodeGroups_length 5 (zigzag (lo - lng0))).
    specialize (IH la lo). unfold encodeValue. lia.
Qed.

(** X26. Decoding the polyline encoding of a path gives the path back, in
    degrees, as long as successive points are less than 2^29 units of
    1e-5 degrees apart in each coordinate. *)
Theorem decodePolyline_inverts_encoding (points : list (Z * Z)) :
  small_steps points 0 0 ->
  decodePolyline (encodePolyline points) = Some (map scaled points).
Proof.
  intros H. unfold decodePolyline, encodePolyline.
  apply decodeFrom_encodeFrom; [| assumption].
  pose proof (encodeFrom_length points 0 0). lia.
Qed.

End PolylineFacts.

Lemma decodePolyline_inverts_encoding_witness :
  Polyline.small_steps [(3850000, -12020000); (4070000, -12095000)]%Z 0 0 /\
  Polyline.decodePolyline
    (Polyline.encodePolyline [(3850000, -12020000); (4070000, -12095000)]%Z)
  = Some (map Polyline.scaled [(3850000, -12020000); (4070000, -12095000)]%Z).
Proof.
  assert (H : Polyline.small_steps
                [(3850000, -12020000); (4070000, -12095000)]%Z 0 0).
  { cbn [Polyline.small_steps]. repeat split; lia. }
  split; [exact H | apply (decodePolyline_inverts_encoding _ H)].
Defined.

(* ================================================================== *)
(** * Routes handed to the simulators *)
(* ================================================================== *)

Section FreshRoutes.

Import MapService.

Lemma table_set_keeps_nonempty (t : table) (k : string) (e : fixedEntry) :
  stored_routes_nonempty t -> e_coordinates e <> [] ->
  stored_routes_nonempty (table_set t k e).
Proof.
  intros Ht He k' e' Hget.
  destruct (String.eqb_spec k k') as [<- | Hk].
  - rewrite table_get_set_same in Hget. injection Hget as <-. exact He.
  - rewrite table_get_set_other in Hget by exact Hk. exact (Ht _ _ Hget).
Qed.

Lemma positive_length_nonempty {A : Type} (l : list A) :
  (0 <? List.length l)%nat = true -> l <> [].
Proof. destruct l; [discriminate | discriminate]. Qed.

(** X27. Whatever the directions request produced (a failed request, a
    status other than OK, no route, no leg, an empty polyline or a path), a
    vehicle with a usable location, whose id names no property of
    [Object.prototype], is answered with a route of at least one point,
    and that route is the one stored under the vehicle's id; the table
    keeps holding routes with at least one point only. *)
Theorem usable_vehicle_gets_a_route_with_points
    (fixedRoutes : table) (vehicle : Vehicle.t) (userLocation : coordinate)
    (response : outcome DirectionsApi.data) (u v : number) :
  usable_location vehicle = true ->
  inherited (Vehicle.id vehicle) = false ->
  stored_routes_nonempty fixedRoutes ->
  exists routeInfo fixedRoutes' r coords e,
    generateVehicleRoute fixedRoutes (Some vehicle) (Some userLocation)
      (Ok (DirectionsApi.fetchDirections response)) u v
    = Ok (routeInfo, fixedRoutes') /\
    route routeInfo = Some r /\
    coordinates r = Some coords /\
    coords <> [] /\
    table_get fixedRoutes' (Vehicle.id vehicle) = Some e /\
    e_coordinates e = coords /\
    stored_routes_nonempty fixedRoutes'.
Proof.
  intros Hus Hid Hinv.
  unfold generateVehicleRoute.
  rewrite usable_location_spec, Hus. cbn [negb].
  rewrite table_read_ordinary by exact Hid.
  destruct (table_get fixedRoutes (Vehicle.id vehicle)) as [entry |] eqn:Hget.
  - do 5 eexists. split; [reflexivity |].
    split; [reflexivity |]. split; [reflexivity |].
    split; [exact (Hinv _ _ Hget) |].
    split; [exact Hget |]. split; [reflexivity | exact Hinv].
  - destruct (findRoute_has_endpoints (Vehicle.routeId vehicle))
      as (routeData & sc & ec & -> & -> & ->).
    set (fetched := DirectionsApi.fetchDirections response).
    destruct fetched as [d |].
    + destruct (0 <? List.length (Directions.coordinates d))%nat eqn:Hlen.
      * pose proof (positive_length_nonempty Hlen) as Hne.
        do 5 eexists. split; [reflexivity |].
        split; [reflexivity |]. split; [reflexivity |].
        split; [exact Hne |].
        split; [apply table_get_set_same |].
        split; [reflexivity |].
        apply table_set_keeps_nonempty; assumption.
      * do 5 eexists. split; [reflexivity |].
        split; [reflexivity |]. split; [reflexivity |].
        split; [discriminate |].
        split; [apply table_get_set_same |].
        split; [reflexivity |].
        apply table_set_keeps_nonempty; [assumption | discriminate].
    + do 5 eexists. split; [reflexivity |].
      split; [reflexivity |]. split; [reflexivity |].
      split; [discriminate |].
      split; [apply table_get_set_same |].
      split; [reflexivity |].
      apply table_set_keeps_nonempty; [assumption | discriminate].
Qed.

End FreshRoutes.

Lemma usable_vehicle_gets_a_route_with_points_witness :
  exists routeInfo fixedRoutes' r coords e,
    MapService.generateVehicleRoute [] (Some bus1) (Some DEFAULT_REGION)
      (Ok (DirectionsApi.fetchDirections
             (Ok (DirectionsApi.mkData "OK"
                    [DirectionsApi.mkApiRoute
                       [DirectionsApi.mkLeg (Num 1200) (Num 180)
                          "Al Urubah Station" "Olaya buildings"]
                       "_p~iF~ps|U"]))))
      (Num 0) (Num 0)
    = Ok (routeInfo, fixedRoutes') /\
    MapService.route routeInfo = Some r /\
    MapService.coordinates r = Some coords /\
    coords <> [] /\
    MapService.table_get fixedRoutes' (Vehicle.id bus1) = Some e /\
    MapService.e_coordinates e = coords /\
    stored_routes_nonempty fixedRoutes'.
Proof.
  apply usable_vehicle_gets_a_route_with_points.
  - unfold usable_location, bus1, JS.truthy, coord; cbn.
    repeat match goal with
           | |- context [Req_dec_T ?a ?b] =>
               destruct (Req_dec_T a b); [lra |]
           end.
    reflexivity.
  - reflexivity.
  - intros k e H. discriminate H.
Defined.

(* ================================================================== *)
(** * Length and duration of a route *)
(* ================================================================== *)

Section RouteLength.

Import LocationUtils MapService.
Local Open Scope R_scope.

Lemma sumLegs_real (rest : list (R * R)) :
  forall (p : R * R) (acc : R),
    clear_legs p rest -> 0 <= acc ->
    exists d : R,
      sumLegs (coord (fst p) (snd p)) (real_route rest) (Num acc) = Num d /\
      acc <= d <= acc + 6371 * PI * INR (List.length rest).
Proof.
  induction rest as [| q rest IH]; intros p acc Hrest Hacc.
  - exists acc. split; [reflexivity |]. cbn. lra.
  - destruct Hrest as ((Hp & Hq & _) & Hrest').
    cbn [real_route map sumLegs].
    destruct (@calculateDistance_range (fst p) (snd p) (fst q) (snd q) Hp Hq)
      as (leg & -> & Hleg).
    unfold JS.add; cbn [lift2].
    destruct (IH q (acc + leg) Hrest' ltac:(lra)) as (d & Hd & Hb).
    exists d. split; [exact Hd |].
    change (List.length (q :: rest)) with (S (List.length rest)).
    rewrite S_INR. pose proof PI_RGT_0. lra.
Qed.

Lemma calculateRouteDistance_real (points : list (R * R)) :
  clear_route points ->
  exists d : R,
    calculateRouteDistance (Some (real_route points)) = Num d /\
    0 <= d <= 6371 * PI * INR (Nat.pred (List.length points)).
Proof.
  intros H. destruct points as [| p [| q rest]].
  - exists 0. split; [reflexivity |]. cbn. lra.
  - exists 0. split; [reflexivity |]. cbn. lra.
  - destruct (@sumLegs_real (q :: rest) p 0 H ltac:(lra))
      as (d & Hd & Hb).
    exists d. split; [exact Hd |].
    cbn [List.length Nat.pred]. cbn [List.length] in Hb. lra.
Qed.

(** X28. For a path whose legs join points with latitudes between -90 and 90
    degrees that are not nearly antipodal, the length is a number between
    0 and half the Earth's circumference for each of its legs, and the
    travel time at a speed that is not negative is a number that is not
    negative: zero when the path has no length or the speed is zero (no
    division by zero takes place), and otherwise the minutes that cover
    the length at that speed in km/h.  A missing coordinate list has
    length and travel time 0. *)
Theorem route_length_and_duration_are_numbers
    (points : list (R * R)) (speed : R) :
  clear_route points -> 0 <= speed ->
  (exists d t : R,
     calculateRouteDistance (Some (real_route points)) = Num d /\
     calculateRouteDuration (Some (real_route points)) (Num speed) = Num t /\
     0 <= d <= 6371 * PI * INR (Nat.pred (List.length points)) /\
     0 <= t /\
     (d = 0 \/ speed = 0 -> t = 0) /\
     (speed <> 0 -> t * speed = 60 * d)) /\
  calculateRouteDistance None = Num 0 /\
  calculateRouteDuration None (Num speed) = Num 0.
Proof.
  intros Hpts Hspeed. split.
  2:{ split; [reflexivity|]. unfold calculateRouteDuration. cbn [calculateRouteDistance].
      unfold JS.eqb. destruct (Req_dec_T 0 0) as [_|H]; [reflexivity|lra]. }
  destruct (@calculateRouteDistance_real points Hpts) as (d & Hd & Hb).
  exists d. unfold calculateRouteDuration. rewrite Hd.
  unfold JS.eqb, JS.truthy.
  destruct (Req_dec_T d 0) as [Hd0 | Hd0].
  - exists 0. cbn [orb].
    split; [reflexivity |]. split; [reflexivity |]. split; [exact Hb |].
    split; [lra |]. split; [reflexivity |]. intros _. lra.
  - destruct (Req_dec_T speed 0) as [Hs0 | Hs0].
    + exists 0. cbn [orb negb].
      split; [reflexivity |]. split; [reflexivity |]. split; [exact Hb |].
      split; [lra |]. split; [reflexivity |]. intros H. contradiction.
    + cbn [orb negb].
      rewrite div_Num by lra. rewrite div_Num by lra.
      exists (d / (speed / 60)). split; [reflexivity |]. split; [reflexivity |].
      split; [exact Hb |].
      assert (Hq : d / (speed / 60) = 60 * d / speed) by (field; lra).
      rewrite Hq.
      split; [| split].
      * apply div_sign_nonneg; lra.
      * intros [H | H]; contradiction.
      * intros _. field. lra.
Qed.

End RouteLength.

Lemma route_length_and_duration_are_numbers_witness :
  exists d t : R,
    MapService.calculateRouteDistance
      (Some (real_route [(0, 0); (0, 90)]%R)) = Num d /\
    MapService.calculateRouteDuration
      (Some (real_route [(0, 0); (0, 90)]%R)) (Num 30) = Num t /\
    (0 <= d <= 6371 * PI * INR 1)%R /\
    (0 <= t)%R /\
    (d = 0%R \/ 30%R = 0%R -> t = 0%R) /\
    (30%R <> 0%R -> (t * 30 = 60 * d)%R).
Proof.
  apply (@route_length_and_duration_are_numbers [(0, 0); (0, 90)]%R 30%R).
  - unfold clear_route, clear_legs, clear_leg; cbn [fst snd].
    split; [|exact I]. split; [lra|]. split; [lra|].
    unfold not_antipodal. rewrite haversine_quarter_equator. lra.
  - lra.
Defined.

(* ================================================================== *)
(** * The generated fleet *)
(* ================================================================== *)

Section Fleet.

Import Server.

Lemma mapM_ext {A B : Type} (f g : A -> outcome B) (l : list A) :
  (forall a, f a = g a) -> mapM f l = mapM g l.
Proof.
  intros H. induction l as [| a l IH]; cbn; [reflexivity |].
  now rewrite H, IH.
Qed.

(** X29. The center handed to [generateVehicles] has no effect: every
    predefined route carries start coordinates, so the branch that would
    place a vehicle around the center is never taken. *)
Theorem generateVehicles_ignores_center
    (center1 center2 : option coordinate) (count : Z)
    (random : nat -> number) (clock : nat -> timestamp) :
  generateVehicles center1 count random clock =
  generateVehicles center2 count random clock.
Proof.
  unfold generateVehicles. apply mapM_ext. intros i.
  do 5 (destruct i as [| i]; [reflexivity |]).
  replace (nth_error BUS_ROUTES (S (S (S (S (S i)))))) with (@None Route.t).
  - reflexivity.
  - symmetry. apply nth_error_None. cbn. lia.
Qed.

Lemma generateVehicle_near_start
    (center : coordinate) (random : nat -> number) (clock : nat -> timestamp)
    (i : nat) (routeData : Route.t) (slat slng : R) :
  (forall k, exists r : R, random k = Num r /\ (0 <= r < 1)%R) ->
  Route.startCoordinates routeData = Some (coord slat slng) ->
  exists (lat lng : R) (h : Z),
    Vehicle.location (generateVehicle center random clock i routeData) =
      coord lat lng /\
    (Rabs (lat - slat) <= 0.0005)%R /\
    (Rabs (lng - slng) <= 0.0005)%R /\
    Vehicle.heading (generateVehicle center random clock i routeData) =
      Num (IZR h) /\
    (0 <= h < 360)%Z.
Proof.
  intros Hrand Hsc.
  destruct (Hrand (4 * i)%nat) as (r0 & Hr0 & Hr0b).
  destruct (Hrand (4 * i + 1)%nat) as (r1 & Hr1 & Hr1b).
  destruct (Hrand (4 * i + 3)%nat) as (r3 & Hr3 & Hr3b).
  exists (slat + (r0 - 0.5) * 0.001)%R, (slng + (r1 - 0.5) * 0.001)%R,
         (Int_part (r3 * 360)).
  unfold generateVehicle. cbn [Vehicle.location Vehicle.heading].
  rewrite Hsc, Hr0, Hr1, Hr3.
  unfold coord. cbn [latitude longitude].
  unfold Math_floor, JS.mul, JS.add, JS.sub; cbn [lift1 lift2].
  split; [reflexivity |].
  split; [apply Rabs_le; lra |].
  split; [apply Rabs_le; lra |].
  split; [reflexivity |].
  exact (@floor_of_scaled_draw r3 360 Hr3b ltac:(lia)).
Qed.

(** X30. For random draws in [0,1) every generated vehicle is placed within
    0.0005 degrees, in latitude and in longitude, of the start of the
    predefined route with its index, and its heading is a whole number of
    degrees from 0 to 359. *)
Theorem generated_vehicles_start_near_their_route
    (centerLocation : option coordinate) (count : Z)
    (random : nat -> number) (clock : nat -> timestamp) :
  (0 <= count)%Z ->
  (forall k, exists r : R, random k = Num r /\ (0 <= r < 1)%R) ->
  exists vehicles,
    generateVehicles centerLocation count random clock = Ok vehicles /\
    forall i v, nth_error vehicles i = Some v ->
      exists routeData (slat slng lat lng : R) (h : Z),
        nth_error BUS_ROUTES i = Some routeData /\
        Route.startCoordinates routeData = Some (coord slat slng) /\
        Vehicle.location v = coord lat lng /\
        (Rabs (lat - slat) <= 0.0005)%R /\
        (Rabs (lng - slng) <= 0.0005)%R /\
        Vehicle.heading v = Num (IZR h) /\
        (0 <= h < 360)%Z.
Proof.
  intros Hcount Hrand.
  set (center := match centerLocation with Some c => c | None => DEFAULT_REGION end).
  set (m := Z.to_nat (Z.min count 5)).
  assert (Hm : (m <= 5)%nat) by (unfold m; lia).
  exists (map (generated center random clock) (seq 0 m)).
  split.
  - unfold generateVehicles. fold center.
    change (Z.of_nat (List.length BUS_ROUTES)) with 5%Z. fold m.
    apply mapM_total. intros i Hi. apply in_seq in Hi.
    unfold generated.
    destruct (nth_error BUS_ROUTES i) as [routeData |] eqn:E.
    + now rewrite (nth_error_nth _ _ _ E).
    + apply nth_error_None in E. cbn in E. lia.
  - intros i v Hv.
    assert (Hi : (i < m)%nat).
    { assert (Hlt : (i < List.length (map (generated center random clock) (seq 0 m)))%nat)
        by (apply nth_error_Some; rewrite Hv; discriminate).
      now rewrite length_map, length_seq in Hlt. }
    rewrite nth_error_map, nth_error_seq in Hv.
    destruct (Nat.ltb_spec i m) as [_ | Hge]; [| lia].
    cbn in Hv. injection Hv as <-.
    assert (Hroute : exists routeData slat slng,
              nth_error BUS_ROUTES i = Some routeData /\
              Route.startCoordinates routeData = Some (coord slat slng)).
    { do 5 (destruct i as [| i];
            [do 3 eexists; split; reflexivity |]).
      lia. }
    destruct Hroute as (routeData & slat & slng & E & Hsc).
    destruct (@generateVehicle_near_start center random clock i routeData
                slat slng Hrand Hsc) as (lat & lng & h & H1 & H2 & H3 & H4 & H5).
    exists routeData, slat, slng, lat, lng, h.
    unfold generated. rewrite (nth_error_nth _ _ _ E).
    repeat split; assumption || lia.
Qed.

End Fleet.

Lemma generated_vehicles_start_near_their_route_witness :
  exists vehicles,
    Server.generateVehicles None 5 (fun _ => Num 0.5) (fun _ => "t"%string)
    = Ok vehicles /\
    forall i v, nth_error vehicles i = Some v ->
      exists routeData (slat slng lat lng : R) (h : Z),
        nth_error BUS_ROUTES i = Some routeData /\
        Route.startCoordinates routeData = Some (coord slat slng) /\
        Vehicle.location v = coord lat lng /\
        (Rabs (lat - slat) <= 0.0005)%R /\
        (Rabs (lng - slng) <= 0.0005)%R /\
        Vehicle.heading v = Num (IZR h) /\
        (0 <= h < 360)%Z.
Proof.
  apply (@generated_vehicles_start_near_their_route None 5
           (fun _ => Num 0.5) (fun _ => "t"%string)).
  - lia.
  - intros _. exists 0.5%R. split; [reflexivity | lra].
Defined.

(* ================================================================== *)
(** * The scenario at the step the code fixes *)
(* ================================================================== *)

Section FixedStep.

Import Server LocationUtils.
Local Open Scope Z_scope.

Lemma server_ticks_eq (nows : list timestamp) (v : Sim.t) :
  server_ticks nows v = ticks (Num 0.01) nows v.
Proof.
  revert v. induction nows as [|now nows IH]; intros v; [reflexivity|].
  cbn [server_ticks ticks]. unfold tickVehicle.
  destruct (tickVehicleWith (Num 0.01) now v); cbn [bind]; [apply IH|reflexivity].
Qed.

Lemma ticks_app (s : number) (l1 l2 : list timestamp) (v : Sim.t) :
  ticks s (l1 ++ l2) v = bind (ticks s l1 v) (ticks s l2).
Proof.
  revert v. induction l1 as [|now l1 IH]; intros v; [reflexivity|].
  cbn [app ticks]. destruct (tickVehicleWith s now v); cbn [bind];
    [apply IH|reflexivity].
Qed.

Lemma runs_length (clock : nat -> timestamp) (a n : nat) :
  List.length (runs clock a n) = n.
Proof. unfold runs. now rewrite length_map, length_seq. Qed.

Lemma runs_app (clock : nat -> timestamp) (a n m : nat) :
  runs clock a (n + m) = runs clock a n ++ runs clock (a + n) m.
Proof. unfold runs. now rewrite seq_app, map_app. Qed.

Lemma runs_one (clock : nat -> timestamp) (a : nat) :
  runs clock a 1 = [clock a].
Proof. reflexivity. Qed.

(** One leg at the step 0.01, from a way point: the first run moves the
    vehicle 1% of the way, the hundredth puts it on the next way point. *)
Lemma leg_at_the_fixed_step
    (clock : nat -> timestamp) (a : nat) (route : list coordinate)
    (v : Sim.t) (cur nxt : coordinate) :
  Sim.fixedRoute v = Some route ->
  (1 < List.length route)%nat ->
  lookup route (Sim.currentRouteIndex v) = Some cur ->
  lookup route (Sim.currentRouteIndex v + Sim.direction v) = Some nxt ->
  Sim.progress v = Num 0 ->
  exists v1 v99,
    ticks (Num 0.01) (runs clock a 1) v = Ok v1 /\
    Sim.progress v1 = Num 0.01 /\
    Vehicle.location (Sim.base v1) = lerp cur nxt 0.01 /\
    Vehicle.heading (Sim.base v1) = calculateBearing (Some cur) (Some nxt) /\
    ticks (Num 0.01) (runs clock a 99) v = Ok v99 /\
    ticks (Num 0.01) (runs clock a 100) v =
      tickVehicleWith (Num 0.01) (clock (a + 99)%nat) v99 /\
    tickVehicleWith (Num 0.01) (clock (a + 99)%nat) v99 =
      (let len := Z.of_nat (List.length route) in
       let next := Sim.currentRouteIndex v + Sim.direction v in
       let bearing := calculateBearing (Some cur) (Some nxt) in
       if ((next >=? len - 1) || (next <=? 0))%bool then
         if Sim.direction v * -1 =? -1
         then Ok (Sim.moved v99 (len - 1) (Sim.direction v * -1) (Num 0)
                    (spread (lookup route (len - 1))) bearing
                    (clock (a + 99)%nat))
         else Ok (Sim.moved v99 0 (Sim.direction v * -1) (Num 0)
                    (spread (lookup route 0)) bearing (clock (a + 99)%nat))
       else Ok (Sim.moved v99 next (Sim.direction v) (Num 0)
                  (spread (Some nxt)) bearing (clock (a + 99)%nat))) /\
    Sim.fixedRoute v99 = Some route.
Proof.
  intros Hr Hlen Hc Hn Hp.
  destruct (@ticks_within_leg 0.01 (runs clock a 1) route cur nxt
              ltac:(lra) Hlen v 0%R Hr Hc Hn Hp)
    as (v1 & p1 & Ht1 & Hp1 & Hq1 & _ & _ & _ & Hloc1).
  { rewrite runs_length. cbn. lra. }
  rewrite runs_length in Hq1. cbn in Hq1.
  assert (Ep1 : p1 = 0.01%R) by lra.
  rewrite Ep1 in Hp1, Hloc1. clear Ep1 Hq1.
  destruct (Hloc1 ltac:(discriminate)) as [Hl1 Hh1].
  destruct (@ticks_within_leg 0.01 (runs clock a 99) route cur nxt
              ltac:(lra) Hlen v 0%R Hr Hc Hn Hp)
    as (v99 & p99 & Ht99 & Hp99 & Hq99 & Hi99 & Hd99 & Hr99 & _).
  { rewrite runs_length, INR_IZR_INZ. cbn. lra. }
  rewrite runs_length, INR_IZR_INZ in Hq99. cbn in Hq99.
  exists v1, v99.
  split; [exact Ht1|]. split; [exact Hp1|]. split; [exact Hl1|].
  split; [exact Hh1|]. split; [exact Ht99|].
  split.
  { change 100%nat with (99 + 1)%nat. rewrite runs_app, ticks_app, Ht99.
    cbn [bind]. rewrite runs_one. cbn [ticks].
    destruct (tickVehicleWith (Num 0.01) (clock (a + 99)%nat) v99);
      reflexivity. }
  split; [|exact Hr99].
  rewrite <- Hi99 in Hc, Hn |- *. rewrite <- Hd99 in Hn |- *.
  pose proof (@tick_arrives 0.01 p99 (clock (a + 99)%nat) route v99 nxt
                Hr99 Hlen Hn Hp99 ltac:(lra)) as Ha.
  cbv zeta in Ha. rewrite Hc in Ha. exact Ha.
Qed.

(** C2, counterexample.  The tick of the code has no step of 0.5: it adds
    0.01 to the progress, so the first tick of the scenario gives progress
    0.01 and location (0, 0.01), not progress 0.5 and location (0, 0.5). *)
Lemma scenario_first_tick_is_one_hundredth :
  exists v1,
    tickVehicle "t"%string
      (scenario bus1 (Sim.Endpoints "a" "b" "c") (Vehicle.location bus1))
    = Ok v1 /\
    Sim.progress v1 = Num 0.01 /\
    Vehicle.location (Sim.base v1) = coord 0 0.01 /\
    Sim.progress v1 <> Num 0.5 /\
    Vehicle.location (Sim.base v1) <> coord 0 0.5.
Proof.
  unfold tickVehicle.
  rewrite (@tick_interpolates 0.01 0 "t"%string
             [coord 0 0; coord 0 1; coord 1 1]
             (scenario bus1 (Sim.Endpoints "a" "b" "c") (Vehicle.location bus1))
             (coord 0 0) (coord 0 1)
             eq_refl ltac:(cbn; lia) eq_refl eq_refl eq_refl ltac:(lra)).
  eexists. split; [reflexivity|].
  split; [cbn; f_equal; lra|].
  split; [cbn; apply mk_coord_eq; lra|].
  split.
  - cbn. intros E. injection E as E. lra.
  - cbn. intros E. injection E as _ E. lra.
Qed.

(** C2, amended.  On the route (0,0), (0,1), (1,1), starting at index 0
    with direction +1 and progress 0, the server's tick, whose progress
    step is fixed at 0.01, gives: after tick 1, progress 0.01, location
    (0, 0.01) and heading bearing((0,0),(0,1)) = 90 degrees; after tick
    100, progress back to 0, index 1 and the vehicle exactly on (0,1);
    after tick 101, progress 0.01, location (0.01, 1) and heading
    bearing((0,1),(1,1)); after tick 200, index 2, direction flipped to -1
    and the vehicle on (1,1). *)
Theorem scenario_at_the_fixed_step
    (b : Vehicle.t) (i : Sim.info) (o : coordinate) (clock : nat -> timestamp) :
  exists v1 v100 v101 v200 : Sim.t,
    server_ticks (runs clock 0 1) (scenario b i o) = Ok v1 /\
    Sim.progress v1 = Num 0.01 /\
    Vehicle.location (Sim.base v1) = coord 0 0.01 /\
    Vehicle.heading (Sim.base v1) =
      calculateBearing (Some (coord 0 0)) (Some (coord 0 1)) /\
    Vehicle.heading (Sim.base v1) = Num 90 /\
    server_ticks (runs clock 0 100) (scenario b i o) = Ok v100 /\
    Sim.progress v100 = Num 0 /\
    Sim.currentRouteIndex v100 = 1 /\
    Vehicle.location (Sim.base v100) = coord 0 1 /\
    server_ticks (runs clock 0 101) (scenario b i o) = Ok v101 /\
    Sim.progress v101 = Num 0.01 /\
    Vehicle.location (Sim.base v101) = coord 0.01 1 /\
    Vehicle.heading (Sim.base v101) =
      calculateBearing (Some (coord 0 1)) (Some (coord 1 1)) /\
    server_ticks (runs clock 0 200) (scenario b i o) = Ok v200 /\
    Sim.currentRouteIndex v200 = 2 /\
    Sim.direction v200 = -1 /\
    Vehicle.location (Sim.base v200) = coord 1 1.
Proof.
  set (route := [coord 0 0; coord 0 1; coord 1 1]).
  set (v0 := scenario b i o).
  assert (Hlen : (1 < List.length route)%nat) by (cbn; lia).
  destruct (@leg_at_the_fixed_step clock 0 route v0 (coord 0 0) (coord 0 1)
              eq_refl Hlen eq_refl eq_refl eq_refl)
    as (v1 & v99 & Ht1 & Hp1 & Hl1 & Hh1 & _ & Ht100 & Ha100 & Hr99).
  cbv zeta in Ha100.
  change ((Sim.currentRouteIndex v0 + Sim.direction v0 >=?
           Z.of_nat (List.length route) - 1) ||
          (Sim.currentRouteIndex v0 + Sim.direction v0 <=? 0))%bool
    with false in Ha100.
  cbv beta iota in Ha100.
  set (v100 := Sim.moved v99 _ _ _ _ _ _) in Ha100.
  rewrite Ha100 in Ht100.
  destruct (@leg_at_the_fixed_step clock 100 route v100 (coord 0 1) (coord 1 1)
              Hr99 Hlen eq_refl eq_refl eq_refl)
    as (v101 & v199 & Ht101 & Hp101 & Hl101 & Hh101 & _ & Ht200 & Ha200 & _).
  cbv zeta in Ha200.
  change ((Sim.currentRouteIndex v100 + Sim.direction v100 >=?
           Z.of_nat (List.length route) - 1) ||
          (Sim.currentRouteIndex v100 + Sim.direction v100 <=? 0))%bool
    with true in Ha200.
  change (Sim.direction v100 * -1 =? -1) with true in Ha200.
  cbv beta iota in Ha200.
  set (v200 := Sim.moved v199 _ _ _ _ _ _) in Ha200.
  rewrite Ha200 in Ht200.
  exists v1, v100, v101, v200.
  rewrite !server_ticks_eq.
  split; [exact Ht1|]. split; [exact Hp1|].
  split; [rewrite Hl1; unfold lerp, coord; cbn [latitude longitude];
          unfold JS.add, JS.mul, JS.sub; cbn [lift2]; f_equal; f_equal; lra|].
  split; [exact Hh1|].
  split; [rewrite Hh1, calculateBearing_real; f_equal;
          apply bearing_equator; lra|].
  split; [exact Ht100|]. split; [reflexivity|]. split; [reflexivity|].
  split; [reflexivity|].
  split.
  { change 101%nat with (100 + 1)%nat. rewrite runs_app, ticks_app, Ht100.
    cbn [bind]. exact Ht101. }
  split; [exact Hp101|].
  split; [rewrite Hl101; unfold lerp, coord; cbn [latitude longitude];
          unfold JS.add, JS.mul, JS.sub; cbn [lift2]; f_equal; f_equal; lra|].
  split; [exact Hh101|].
  split.
  { change 200%nat with (100 + 100)%nat. rewrite runs_app, ticks_app, Ht100.
    cbn [bind]. exact Ht200. }
  split; [reflexivity|]. split; [reflexivity|]. reflexivity.
Qed.

End FixedStep.

(* ================================================================== *)
(** * A failed route resolution *)
(* ================================================================== *)

Section FailedResolution.

Local Open Scope nat_scope.

Lemma nth_error_same_key {A K : Type} (key : A -> K) (l l' : list A)
    (i : nat) (x : A) :
  map key l = map key l' ->
  nth_error l' i = Some x ->
  exists y, nth_error l i = Some y /\ key y = key x.
Proof.
  revert l' i. induction l as [|a l IH]; intros [|b l'] i H Hx;
    try discriminate.
  - destruct i; discriminate.
  - cbn in H. injection H as Hab Hl.
    destruct i as [|i]; cbn in *.
    + injection Hx as <-. exists a. split; [reflexivity|exact Hab].
    + now apply IH with l'.
Qed.

Lemma static_part_route (v w : Sim.t) :
  static_part v = static_part w ->
  Vehicle.id (Sim.base v) = Vehicle.id (Sim.base w) /\
  Sim.fixedRoute v = Sim.fixedRoute w.
Proof.
  unfold static_part. intros H. injection H as H1 H2 H3 H4 H5 H6 H7 H8 H9 H10 H11.
  split; assumption.
Qed.

Lemma socket_static_part_route (v w : SocketUtils.simVehicle) :
  socket_static_part v = socket_static_part w ->
  Vehicle.id (SocketUtils.base v) = Vehicle.id (SocketUtils.base w) /\
  SocketUtils.fixedRoute v = SocketUtils.fixedRoute w.
Proof.
  unfold socket_static_part. intros H.
  injection H as H1 H2 H3 H4 H5 H6 H7 H8 H9 H10.
  split; assumption.
Qed.

(** What a provider failure leaves a vehicle with: the lookup resolves,
    with the direct line between the end points of the vehicle's route;
    the client service turns it into the line there and back and its
    first tick moves the vehicle 1% along it. *)
Lemma provider_failure_falls_back
    (fixedRoutes : MapService.table) (vehicle : Vehicle.t)
    (userLocation : coordinate) (fetch : outcome (option Directions.t))
    (u w : number) :
  usable_location vehicle = true ->
  MapService.table_read fixedRoutes (Vehicle.id vehicle) =
    MapService.Undefined ->
  MapService.provider_failed fetch ->
  exists routeInfo sc ec,
    answer (MapService.generateVehicleRoute fixedRoutes (Some vehicle)
              (Some userLocation) fetch u w) = Ok routeInfo /\
    Sim.fixedRoute (VehicleService.initVehicle (Ok routeInfo) vehicle) =
      Some [sc; ec; sc] /\
    SocketUtils.fixedRoute (SocketUtils.initVehicle (Ok routeInfo) vehicle) =
      Some [sc; ec] /\
    forall now, exists v1,
      VehicleService.tickVehicle now
        (VehicleService.initVehicle (Ok routeInfo) vehicle) = Ok v1 /\
      Vehicle.location (Sim.base v1) = lerp sc ec 0.01.
Proof.
  intros Hus Hread Hfail.
  unfold usable_location in Hus. apply andb_true_iff in Hus.
  destruct Hus as [Hlat Hlng].
  destruct (@generateVehicleRoute_falls_back fixedRoutes vehicle userLocation
              fetch u w Hlat Hlng Hread Hfail)
    as (routeInfo & fixedRoutes' & routeData & sc & ec & r &
        Hgen & _ & _ & _ & Hr & Hc).
  exists routeInfo, sc, ec.
  split; [rewrite Hgen; reflexivity|].
  assert (Hfr : Sim.fixedRoute (VehicleService.initVehicle (Ok routeInfo) vehicle)
                = Some [sc; ec; sc]).
  { unfold VehicleService.initVehicle. rewrite Hr, Hc. reflexivity. }
  split; [exact Hfr|].
  split; [unfold SocketUtils.initVehicle; rewrite Hr, Hc; reflexivity|].
  intros now. unfold VehicleService.tickVehicle.
  rewrite client_tick_agrees_with_server_aux.
  2:{ unfold next_out_of_route, in_route. rewrite Hfr.
      unfold VehicleService.initVehicle. cbn. intros [_ H]. apply H. lia. }
  rewrite (@tick_interpolates 0.01 0 now [sc; ec; sc]
             (VehicleService.initVehicle (Ok routeInfo) vehicle) sc ec
             Hfr ltac:(cbn; lia) eq_refl eq_refl eq_refl ltac:(lra)).
  eexists. split; [reflexivity|].
  unfold lerp, Sim.moved, Vehicle.moved. cbn [Sim.base Vehicle.location].
  replace (0 + 0.01)%R with 0.01%R by lra. reflexivity.
Qed.

(** C5, amended.  A failed route resolution for one vehicle degrades only
    that vehicle.  Start builds one simulated vehicle per vehicle, each
    from its own vehicle and lookup alone, and installs them all; whatever
    the lookup of vehicle [i] gave, that vehicle sits at position [i] of
    every collection handed to the update callback, with the identity and
    the route it was given at start.  When the lookup rejected, the
    vehicle has no route and keeps its initial location.  When the
    provider failed inside the lookup, the lookup did not reject: the
    vehicle has the direct line between the end points of its route
    (there and back in the client service), and the client service's
    first tick moves it 1% along that line.  This holds in the client
    service and in the socket utilities. *)
Theorem failed_resolution_degrades_one_vehicle
    (resolved : list (outcome MapService.routeInfo)) (vehicles : list Vehicle.t)
    (i : nat) (vehicle : Vehicle.t) (cb : option callback)
    (st : state Sim.t) (fires : list (event Sim.t))
    (st' : state SocketUtils.simVehicle)
    (fires' : list (event SocketUtils.simVehicle)) :
  List.length resolved = List.length vehicles ->
  nth_error vehicles i = Some vehicle ->
  quiescent st -> Forall (@is_fire _) fires ->
  quiescent st' -> Forall (@is_fire _) fires' ->
  (let collection := VehicleService.initVehicles resolved vehicles in
   let started :=
     run VehicleService.tickVehicle VehicleService.written st
       [Start (Ok collection) cb; Resume 0] in
   List.length collection = List.length vehicles /\
   (forall j r v, nth_error resolved j = Some r ->
                  nth_error vehicles j = Some v ->
                  nth_error collection j =
                    Some (VehicleService.initVehicle r v)) /\
   simulatedVehicles started = collection /\
   exists news,
     emitted (run VehicleService.tickVehicle VehicleService.written
                started fires) = emitted st ++ news /\
     (forall r, nth_error resolved i = Some r ->
        Forall (fun entry =>
                  exists v, nth_error (snd entry) i = Some v /\
                            Vehicle.id (Sim.base v) = Vehicle.id vehicle /\
                            Sim.fixedRoute v =
                              Sim.fixedRoute
                                (VehicleService.initVehicle r vehicle)) news) /\
     (nth_error resolved i = Some Throw ->
        Forall (fun entry =>
                  exists v, nth_error (snd entry) i = Some v /\
                            Vehicle.location (Sim.base v) =
                              Vehicle.location vehicle /\
                            Sim.fixedRoute v = None) news) /\
     (forall fixedRoutes userLocation fetch u w,
        usable_location vehicle = true ->
        MapService.table_read fixedRoutes (Vehicle.id vehicle) =
          MapService.Undefined ->
        MapService.provider_failed fetch ->
        nth_error resolved i =
          Some (answer (MapService.generateVehicleRoute fixedRoutes
                          (Some vehicle) (Some userLocation) fetch u w)) ->
        exists routeInfo sc ec,
          nth_error resolved i = Some (Ok routeInfo) /\
          Forall (fun entry =>
                    exists v, nth_error (snd entry) i = Some v /\
                              Vehicle.id (Sim.base v) = Vehicle.id vehicle /\
                              Sim.fixedRoute v = Some [sc; ec; sc]) news /\
          forall now, exists v1,
            VehicleService.tickVehicle now
              (VehicleService.initVehicle (Ok routeInfo) vehicle) = Ok v1 /\
            Vehicle.location (Sim.base v1) = lerp sc ec 0.01)) /\
  (let collection := SocketUtils.initVehicles resolved vehicles in
   let started :=
     run SocketUtils.tickVehicle SocketUtils.written st'
       [Start (Ok collection) cb; Resume 0] in
   List.length collection = List.length vehicles /\
   (forall j r v, nth_error resolved j = Some r ->
                  nth_error vehicles j = Some v ->
                  nth_error collection j =
                    Some (SocketUtils.initVehicle r v)) /\
   simulatedVehicles started = collection /\
   exists news,
     emitted (run SocketUtils.tickVehicle SocketUtils.written
                started fires') = emitted st' ++ news /\
     (forall r, nth_error resolved i = Some r ->
        Forall (fun entry =>
                  exists v, nth_error (snd entry) i = Some v /\
                            Vehicle.id (SocketUtils.base v) =
                              Vehicle.id vehicle /\
                            SocketUtils.fixedRoute v =
                              SocketUtils.fixedRoute
                                (SocketUtils.initVehicle r vehicle)) news) /\
     (nth_error resolved i = Some Throw ->
        Forall (fun entry =>
                  exists v, nth_error (snd entry) i = Some v /\
                            Vehicle.location (SocketUtils.base v) =
                              Vehicle.location vehicle /\
                            SocketUtils.fixedRoute v = None) news) /\
     (forall fixedRoutes userLocation fetch u w,
        usable_location vehicle = true ->
        MapService.table_read fixedRoutes (Vehicle.id vehicle) =
          MapService.Undefined ->
        MapService.provider_failed fetch ->
        nth_error resolved i =
          Some (answer (MapService.generateVehicleRoute fixedRoutes
                          (Some vehicle) (Some userLocation) fetch u w)) ->
        exists routeInfo sc ec,
          nth_error resolved i = Some (Ok routeInfo) /\
          Forall (fun entry =>
                    exists v, nth_error (snd entry) i = Some v /\
                              Vehicle.id (SocketUtils.base v) =
                                Vehicle.id vehicle /\
                              SocketUtils.fixedRoute v = Some [sc; ec]) news)).
Proof.
  intros Hlen Hv Hq Hf Hq' Hf'.
  split.
  - cbv zeta.
    set (collection := VehicleService.initVehicles resolved vehicles).
    destruct (@start_when_quiescent _ VehicleService.tickVehicle
                VehicleService.written st collection cb Hq)
      as (_ & _ & _ & Hsv & Hem & _).
    split; [now apply client_initVehicles_length|].
    split; [intros j r v; apply client_initVehicles_nth|].
    split; [exact Hsv|].
    set (started := run VehicleService.tickVehicle VehicleService.written st
                      [Start (Ok collection) cb; Resume 0]) in *.
    destruct (@fires_keys _ VehicleService.tickVehicle VehicleService.written
                _ static_part
                (fun now v v' => @client_tick_static (Num 0.01) now v v')
                (server_written_static (Num 0.01)) fires started Hf)
      as (_ & news & Hnews & Fnews).
    exists news. rewrite Hnews, Hem. split; [reflexivity|].
    assert (Hgeneric : forall r, nth_error resolved i = Some r ->
              Forall (fun entry =>
                        exists v, nth_error (snd entry) i = Some v /\
                                  static_part v =
                                    static_part
                                      (VehicleService.initVehicle r vehicle))
                     news).
    { intros r Hr.
      pose proof (@client_initVehicles_nth resolved vehicles i r vehicle Hr Hv)
        as Hnth.
      fold collection in Hnth. rewrite <- Hsv in Hnth.
      eapply Forall_impl; [|exact Fnews].
      intros entry He.
      exact (@nth_error_same_key _ _ static_part _ _ i _ He Hnth). }
    split; [|split].
    + intros r Hr. eapply Forall_impl; [|exact (Hgeneric r Hr)].
      intros entry (v & Hnv & Hst).
      destruct (static_part_route Hst) as [Hid Hfr].
      exists v. split; [exact Hnv|]. split; [|exact Hfr].
      rewrite Hid. destruct r as [routeInfo|]; reflexivity.
    + intros Hr.
      pose proof (@client_initVehicles_nth resolved vehicles i Throw vehicle
                    Hr Hv) as Hnth.
      fold collection in Hnth. rewrite <- Hsv in Hnth.
      destruct (@fires_keep_inert _ VehicleService.tickVehicle
                  VehicleService.written fires _ i _
                  (client_rejected_inert vehicle) Hf Hnth)
        as (_ & news' & Hnews' & Fnews').
      rewrite Hnews in Hnews'. apply app_inv_head in Hnews'. subst news'.
      eapply Forall_impl; [|exact Fnews'].
      intros entry He. eexists. split; [exact He|]. split; reflexivity.
    + intros fixedRoutes userLocation fetch u w Hus Hread Hfail Hr.
      destruct (@provider_failure_falls_back fixedRoutes vehicle userLocation
                  fetch u w Hus Hread Hfail)
        as (routeInfo & sc & ec & Hans & Hfr & _ & Hmove).
      rewrite Hans in Hr.
      exists routeInfo, sc, ec. split; [exact Hr|]. split; [|exact Hmove].
      eapply Forall_impl; [|exact (Hgeneric _ Hr)].
      intros entry (v & Hnv & Hst).
      destruct (static_part_route Hst) as [Hid Hfr'].
      exists v. split; [exact Hnv|]. split; [exact Hid|].
      rewrite Hfr'. exact Hfr.
  - cbv zeta.
    set (collection := SocketUtils.initVehicles resolved vehicles).
    destruct (@start_when_quiescent _ SocketUtils.tickVehicle
                SocketUtils.written st' collection cb Hq')
      as (_ & _ & _ & Hsv & Hem & _).
    split; [now apply socket_initVehicles_length|].
    split; [intros j r v; apply socket_initVehicles_nth|].
    split; [exact Hsv|].
    set (started := run SocketUtils.tickVehicle SocketUtils.written st'
                      [Start (Ok collection) cb; Resume 0]) in *.
    destruct (@fires_keys _ SocketUtils.tickVehicle SocketUtils.written
                _ socket_static_part socket_tick_static
                socket_written_static fires' started Hf')
      as (_ & news & Hnews & Fnews).
    exists news. rewrite Hnews, Hem. split; [reflexivity|].
    assert (Hgeneric : forall r, nth_error resolved i = Some r ->
              Forall (fun entry =>
                        exists v, nth_error (snd entry) i = Some v /\
                                  socket_static_part v =
                                    socket_static_part
                                      (SocketUtils.initVehicle r vehicle))
                     news).
    { intros r Hr.
      pose proof (@socket_initVehicles_nth resolved vehicles i r vehicle Hr Hv)
        as Hnth.
      fold collection in Hnth. rewrite <- Hsv in Hnth.
      eapply Forall_impl; [|exact Fnews].
      intros entry He.
      exact (@nth_error_same_key _ _ socket_static_part _ _ i _ He Hnth). }
    assert (Hid0 : forall r,
              Vehicle.id (SocketUtils.base (SocketUtils.initVehicle r vehicle)) =
              Vehicle.id vehicle).
    { intros [routeInfo|]; [|reflexivity]. unfold SocketUtils.initVehicle.
      destruct (MapService.route routeInfo) as [r0|]; [|reflexivity].
      destruct (MapService.coordinates r0); reflexivity. }
    split; [|split].
    + intros r Hr. eapply Forall_impl; [|exact (Hgeneric r Hr)].
      intros entry (v & Hnv & Hst).
      destruct (socket_static_part_route Hst) as [Hid Hfr].
      exists v. split; [exact Hnv|]. split; [|exact Hfr].
      rewrite Hid. apply Hid0.
    + intros Hr.
      pose proof (@socket_initVehicles_nth resolved vehicles i Throw vehicle
                    Hr Hv) as Hnth.
      fold collection in Hnth. rewrite <- Hsv in Hnth.
      destruct (@fires_keep_inert _ SocketUtils.tickVehicle
                  SocketUtils.written fires' _ i _
                  (socket_rejected_inert vehicle) Hf' Hnth)
        as (_ & news' & Hnews' & Fnews').
      rewrite Hnews in Hnews'. apply app_inv_head in Hnews'. subst news'.
      eapply Forall_impl; [|exact Fnews'].
      intros entry He. eexists. split; [exact He|]. split; reflexivity.
    + intros fixedRoutes userLocation fetch u w Hus Hread Hfail Hr.
      destruct (@provider_failure_falls_back fixedRoutes vehicle userLocation
                  fetch u w Hus Hread Hfail)
        as (routeInfo & sc & ec & Hans & _ & Hfr & _).
      rewrite Hans in Hr.
      exists routeInfo, sc, ec. split; [exact Hr|].
      eapply Forall_impl; [|exact (Hgeneric _ Hr)].
      intros entry (v & Hnv & Hst).
      destruct (socket_static_part_route Hst) as [Hid Hfr'].
      exists v. split; [exact Hnv|]. split; [rewrite Hid; apply Hid0|].
      rewrite Hfr'. exact Hfr.
Qed.

End FailedResolution.

Lemma failed_resolution_degrades_one_vehicle_witness :
  exists news,
    emitted
      (run VehicleService.tickVehicle VehicleService.written
         (run VehicleService.tickVehicle VehicleService.written
            (initial Sim.t)
            [Start (Ok (VehicleService.initVehicles
                          [answer (MapService.generateVehicleRoute []
                                     (Some bus1) (Some DEFAULT_REGION)
                                     (Ok None) (Num 0) (Num 0));
                           Throw]
                          [bus1; bus2])) (Some 7%nat);
             Resume 0])
         [Fire 1 "t1"%string; Fire 1 "t2"%string]) = [] ++ news /\
    (exists sc ec,
       Forall (fun entry =>
                 exists v, nth_error (snd entry) 0 = Some v /\
                           Vehicle.id (Sim.base v) = Vehicle.id bus1 /\
                           Sim.fixedRoute v = Some [sc; ec; sc]) news) /\
    Forall (fun entry =>
              exists v, nth_error (snd entry) 1 = Some v /\
                        Vehicle.location (Sim.base v) = Vehicle.location bus2 /\
                        Sim.fixedRoute v = None) news.
Proof.
  set (resolved := [answer (MapService.generateVehicleRoute []
                              (Some bus1) (Some DEFAULT_REGION)
                              (Ok None) (Num 0) (Num 0));
                    Throw]).
  assert (Hfires : Forall (@is_fire Sim.t)
                     [Fire 1 "t1"%string; Fire 1 "t2"%string])
    by (repeat constructor).
  assert (Hfires' : Forall (@is_fire SocketUtils.simVehicle)
                      [Fire 1 "t1"%string])
    by (repeat constructor).
  assert (Hus : usable_location bus1 = true).
  { unfold usable_location; cbn.
    destruct (Req_dec_T 24.7157 0); [lra|].
    destruct (Req_dec_T 46.6726 0); [lra|reflexivity]. }
  destruct (@failed_resolution_degrades_one_vehicle
              resolved [bus1; bus2] 0 bus1 (Some 7%nat)
              (initial Sim.t) [Fire 1 "t1"%string; Fire 1 "t2"%string]
              (initial SocketUtils.simVehicle) [Fire 1 "t1"%string]
              eq_refl eq_refl (conj eq_refl eq_refl) Hfires
              (conj eq_refl eq_refl) Hfires')
    as ((_ & _ & _ & news & Hnews & _ & _ & Hfallback) & _).
  destruct (@failed_resolution_degrades_one_vehicle
              resolved [bus1; bus2] 1 bus2 (Some 7%nat)
              (initial Sim.t) [Fire 1 "t1"%string; Fire 1 "t2"%string]
              (initial SocketUtils.simVehicle) [Fire 1 "t1"%string]
              eq_refl eq_refl (conj eq_refl eq_refl) Hfires
              (conj eq_refl eq_refl) Hfires')
    as ((_ & _ & _ & news' & Hnews' & _ & Hrejected & _) & _).
  rewrite Hnews in Hnews'. apply app_inv_head in Hnews'. subst news'.
  exists news. split; [exact Hnews|]. split.
  - destruct (Hfallback [] DEFAULT_REGION (Ok None) (Num 0) (Num 0)
                Hus eq_refl I eq_refl)
      as (routeInfo & sc & ec & _ & Hall & _).
    exists sc, ec. exact Hall.
  - apply Hrejected. reflexivity.
Defined.
